(** * ChemEx: relaxation-dispersion back-calculation, profiles and fit clustering

    A shallow embedding of three source files of the repository

    - [chemex/experiments/cpmg/cpmg_profile.py]
    - [chemex/experiments/cpmg/n_cw_0013/back_calculation.py]
    - [chemex/fitting.py]

    together with the properties their specification states about them.

    Conventions of the embedding.

    - Python floats and numpy float arrays are real numbers ([R]) and lists of
      real numbers.  Rounding and overflow are not modelled.  A float operation
      whose IEEE result is [nan] or [inf] (a numpy division by zero) is the
      failure [FloatNotFinite] of the [result] monad; a Python exception is the
      failure carrying that exception.
    - A dict is a [gmap], a set is a [gset]; a dict whose iteration order is
      used is an association list.
    - Mutable objects (the memoisation caches, the global parameter set, the
      random generator) are threaded explicitly: a function that mutates one
      returns the new one.
    - Code that the three files import from modules that are not at hand
      (the Liouvillian, the parameter names, the minimizer of lmfit) is a
      parameter of the definitions that use it.

    The file has the embedding first, then the definitions that only the
    statements need, then the proofs. *)

From Stdlib Require Import Reals Lra Lia ZArith List Bool Ascii String Sorted Permutation.
From stdpp Require Import gmap strings.
Import ListNotations.

(* ===================================================================== *)
(** * Python runtime: exceptions, the result monad                        *)
(* ===================================================================== *)

Module Py.

Inductive exception : Type :=
| KeyError
| ValueError
| IndexError
| TypeError
| ZeroDivisionError
| UnboundLocalError
| KeyboardInterrupt
| SystemExit
| FloatNotFinite.

Inductive result (A : Type) : Type :=
| Ok (a : A)
| Raise (e : exception).
Arguments Ok {A} a.
Arguments Raise {A} e.

Definition bind {A B} (r : result A) (k : A -> result B) : result B :=
  match r with
  | Ok a => k a
  | Raise e => Raise e
  end.

Definition fmap {A B} (f : A -> B) (r : result A) : result B :=
  bind r (fun a => Ok (f a)).

Definition is_ok {A} (r : result A) : bool :=
  match r with Ok _ => true | Raise _ => false end.

(** [==] on floats *)
Definition float_eqb (x y : R) : bool := if Req_dec_T x y then true else false.

Fixpoint mapM {A B} (f : A -> result B) (l : list A) : result (list B) :=
  match l with
  | [] => Ok []
  | x :: l' =>
      bind (f x) (fun y => bind (mapM f l') (fun ys => Ok (y :: ys)))
  end.

End Py.
Export Py.

Notation "'let*' x ':=' e 'in' k" := (Py.bind e (fun x => k))
  (at level 10, x pattern, e at level 100, k at level 200).

(* ===================================================================== *)
(** * numpy: one-dimensional float arrays                                 *)
(* ===================================================================== *)

Module Np.

Local Open Scope R_scope.

Definition ndarray := list R.

(** Shapes [(n,)] and [(m,)] broadcast when they are equal or when one of
    them is [1]; anything else is a [ValueError]. *)
Definition broadcast {A B} (a : list A) (b : list B) : result (list (A * B)) :=
  if Nat.eqb (length a) (length b) then Ok (combine a b)
  else match a, b with
       | [x], _ => Ok (map (fun y => (x, y)) b)
       | _, [y] => Ok (map (fun x => (x, y)) a)
       | _, _ => Raise ValueError
       end.

(** [a * b] *)
Definition mul (a b : ndarray) : result ndarray :=
  let* ps := broadcast a b in Ok (map (fun '(x, y) => x * y) ps).

(** One entry of [a / b]: numpy gives [nan] or [inf] for a zero divisor. *)
Definition div1 (xy : R * R) : result R :=
  if Req_dec_T (snd xy) 0 then Raise FloatNotFinite else Ok (fst xy / snd xy).

(** [a / b] *)
Definition div (a b : ndarray) : result ndarray :=
  let* ps := broadcast a b in mapM div1 ps.

(** [a ** 2] *)
Definition square (a : ndarray) : ndarray := map (fun x => x ^ 2) a.

(** [a * s] for a scalar [s] *)
Definition scale (a : ndarray) (s : R) : ndarray := map (fun x => x * s) a.

(** Python's builtin [sum]: a left fold of [+] that starts from the integer
    [0]. *)
Definition sum (a : ndarray) : R := fold_left Rplus a 0.

(** [sum(a) / sum(b)] as Python evaluates it.  The builtin [sum] of an empty
    array is the [int] 0, and dividing by the [int] 0 raises when the
    dividend is an [int] too; every other zero divisor is a numpy division,
    whose result is [nan] or [inf]. *)
Definition sum_div (a b : ndarray) : result R :=
  match a, b with
  | [], [] => Raise ZeroDivisionError
  | _, _ => if Req_dec_T (sum b) 0 then Raise FloatNotFinite
            else Ok (sum a / sum b)
  end.

(** [a[idx]] with a list of integer indexes; an index out of range is an
    [IndexError]. *)
Definition take {A} (a : list A) (idx : list nat) : result (list A) :=
  mapM (fun i => match nth_error a i with
                 | Some x => Ok x
                 | None => Raise IndexError
                 end) idx.

(** [a[mask]] with a boolean mask, which must have the length of [a]. *)
Definition compress {A} (a : list A) (mask : list bool) : result (list A) :=
  if Nat.eqb (length a) (length mask)
  then Ok (map fst (List.filter snd (combine a mask)))
  else Raise IndexError.

(** [a / s] for a float [s]: a zero [s] gives entries [inf] or [nan]. *)
Definition div_scalar (a : ndarray) (s : R) : result ndarray :=
  mapM (fun x => if Req_dec_T s 0 then Raise FloatNotFinite else Ok (x / s)) a.

End Np.

(* ===================================================================== *)
(** * functools.lru_cache                                                 *)
(* ===================================================================== *)

Module Lru.

Section Cache.
Context {K V : Type} (eqb : K -> K -> bool).

(** Entries are kept most recently used first.  [hits] and [misses] are
    the counters that [cache_info()] reports. *)
Record cache : Type := mk_cache {
  maxsize : nat;
  entries : list (K * V);
  hits : nat;
  misses : nat
}.

Definition empty (n : nat) : cache :=
  {| maxsize := n; entries := []; hits := 0; misses := 0 |}.

Fixpoint find (k : K) (l : list (K * V)) : option V :=
  match l with
  | [] => None
  | (k', v) :: l' => if eqb k k' then Some v else find k l'
  end.

Fixpoint remove (k : K) (l : list (K * V)) : list (K * V) :=
  match l with
  | [] => []
  | (k', v) :: l' => if eqb k k' then l' else (k', v) :: remove k l'
  end.

(** A hit moves the entry to the front. *)
Definition touch (k : K) (v : V) (c : cache) : cache :=
  {| maxsize := maxsize c;
     entries := (k, v) :: remove k (entries c);
     hits := S (hits c);
     misses := misses c |}.

(** After a miss the value is stored in front and the least recently used
    entries beyond [maxsize] are dropped. *)
Definition store (k : K) (v : V) (c : cache) : cache :=
  {| maxsize := maxsize c;
     entries := firstn (maxsize c) ((k, v) :: entries c);
     hits := hits c;
     misses := S (misses c) |}.

(** A call of the wrapped function.  On a miss the function runs; an
    exception propagates and nothing is stored. *)
Definition call (f : K -> result V) (k : K) (c : cache) : result V * cache :=
  match find k (entries c) with
  | Some v => (Ok v, touch k v c)
  | None =>
      match f k with
      | Ok v => (Ok v, store k v c)
      | Raise e => (Raise e, c)
      end
  end.

(** The same for a wrapped function that works on a state [S] of which
    the cache is a part. *)
Definition call_st {S : Type} (get : S -> cache) (set : S -> cache -> S)
    (f : K -> S -> result V * S) (k : K) (s : S) : result V * S :=
  match find k (entries (get s)) with
  | Some v => (Ok v, set s (touch k v (get s)))
  | None =>
      let '(r, s') := f k s in
      match r with
      | Ok v => (Ok v, set s' (store k v (get s')))
      | Raise e => (Raise e, s')
      end
  end.

(** Every stored value is the value the function gives for its key. *)
Definition coherent (f : K -> result V) (c : cache) : Prop :=
  forall k v, In (k, v) (entries c) -> f k = Ok v.

End Cache.

Arguments cache : clear implicits.

End Lru.

(* ===================================================================== *)
(** * lmfit: parameters                                                   *)
(* ===================================================================== *)

Module Lmfit.

(** [lmfit.Parameter] ([Param] here, the name being reserved): the attributes
    that the repository reads. *)
Record Param : Type := mk_Param {
  value : R;
  vary : bool;
  expr : option string;
  _delay_asteval : bool
}.

(** [lmfit.Parameters]: parameters by full name. *)
Abbreviation Params := (gmap string Param).

(** [params[name]] *)
Definition getitem (params : Params) (name : string) : result Param :=
  match params !! name with
  | Some p => Ok p
  | None => Raise KeyError
  end.

(** Truth value of [param.expr]: [None] and the empty string are false. *)
Definition expr_truthy (p : Param) : bool :=
  match expr p with
  | None => false
  | Some s => negb (String.eqb s "")
  end.

End Lmfit.

(* ===================================================================== *)
(** * chemex/experiments/cpmg/cpmg_profile.py                             *)
(* ===================================================================== *)

Module CpmgProfile.

Import Lmfit.
Local Open Scope R_scope.

(** Keyword arguments of [calculate_unscaled_profile]: short parameter name
    and value, in the order of [map_names]. *)
Definition kwargs := list (string * R).

Fixpoint kwargs_eqb (a b : kwargs) : bool :=
  match a, b with
  | [], [] => true
  | (n, x) :: a', (m, y) :: b' => String.eqb n m && float_eqb x y && kwargs_eqb a' b'
  | _, _ => false
  end.

(** The attributes of a [CPMGProfile] that the methods below read or write.
    The other attributes that [__init__] sets ([h_larmor_frq],
    [temperature], [p_total], [l_total], [experiment_name], [model],
    [plot_data], and those built from [chemex.peaks] and [chemex.constants])
    are left out: none of these methods touches them. *)
Record CPMGProfile : Type := mk_CPMGProfile {
  profile_name : string;
  ncycs : list Z;
  val : Np.ndarray;
  err : Np.ndarray;
  reference : list bool;
  time_t2 : R;
  pw : R;
  tau_cp_list : Np.ndarray;
  omega1_i : R;
  calculate_unscaled_profile_cached : Lru.cache kwargs Np.ndarray;
  map_names : list (string * string)
}.

(** [time_t2 / (4.0 * ncyc) - pw if ncyc > 0 else time_t2 / 2.0 if ncyc else 0.0] *)
Definition tau_cp (time_t2 pw : R) (ncyc : Z) : R :=
  if Z.ltb 0 ncyc then time_t2 / (4 * IZR ncyc) - pw
  else if negb (Z.eqb ncyc 0) then time_t2 / 2
  else 0.

(** [__init__], from the measurements and the experimental details that
    [check_par] has converted. *)
Definition init (name : string) (m_ncycs : list Z) (m_val m_err : Np.ndarray)
    (e_time_t2 e_pw : R) : CPMGProfile :=
  {| profile_name := name;
     ncycs := m_ncycs;
     val := m_val;
     err := m_err;
     reference := map (fun n => Z.eqb n 0) m_ncycs;
     time_t2 := e_time_t2;
     pw := e_pw;
     tau_cp_list := map (tau_cp e_time_t2 e_pw) m_ncycs;
     omega1_i := if Rlt_dec 0 e_pw then 2 * PI / (4 * e_pw) else 0;
     calculate_unscaled_profile_cached := Lru.empty 5;
     map_names := [] |}.

(** [calculate_scale]:
    [sum(cal * self.val / self.err ** 2) / sum((cal / self.err) ** 2)] *)
Definition calculate_scale (self : CPMGProfile) (cal : Np.ndarray) : result R :=
  let* cv := Np.mul cal (val self) in
  let* num := Np.div cv (Np.square (err self)) in
  let* q := Np.div cal (err self) in
  Np.sum_div num (Np.square q).

Definition set_cache (self : CPMGProfile) (c : Lru.cache kwargs Np.ndarray)
  : CPMGProfile :=
  {| profile_name := profile_name self;
     ncycs := ncycs self;
     val := val self;
     err := err self;
     reference := reference self;
     time_t2 := time_t2 self;
     pw := pw self;
     tau_cp_list := tau_cp_list self;
     omega1_i := omega1_i self;
     calculate_unscaled_profile_cached := c;
     map_names := map_names self |}.

(** [{short_name: params[long_name].value for short_name, long_name in
    self.map_names.items()}] *)
Definition make_kwargs (self : CPMGProfile) (params : Params) : result kwargs :=
  mapM (fun '(short_name, long_name) =>
          let* p := getitem params long_name in Ok (short_name, value p))
       (map_names self).

Section Methods.

(** The base class leaves [calculate_unscaled_profile] to the class of the
    experiment; it reads the profile and the keyword arguments. *)
Variable calculate_unscaled_profile : CPMGProfile -> kwargs -> result Np.ndarray.

(** [calculate_profile].  The profile comes back with its cache as the
    call has left it. *)
Definition calculate_profile (self : CPMGProfile) (params : Params)
  : result Np.ndarray * CPMGProfile :=
  match make_kwargs self params with
  | Raise e => (Raise e, self)
  | Ok kw =>
      let '(r, c) := Lru.call kwargs_eqb (calculate_unscaled_profile self) kw
                       (calculate_unscaled_profile_cached self) in
      (let* values := r in
       let* scale := calculate_scale self values in
       Ok (Np.scale values scale),
       set_cache self c)
  end.

End Methods.

(** ** Bootstrap resampling *)

(** numpy's global random generator: the stream of raw draws and the
    position in it. *)
Record RandomState : Type := mk_RandomState {
  raw : nat -> nat;
  pos : nat
}.

(** [np.random.choice(a, size)]: [size] entries of [a] drawn uniformly with
    replacement.  An empty [a] is a [ValueError] ("a must be non-empty"),
    which is what the guard on [pool1] in [make_bs_profile] is for. *)
Definition choice (a : list nat) (size : nat) (st : RandomState)
  : result (list nat) * RandomState :=
  match a with
  | [] => (Raise ValueError, st)
  | x :: _ =>
      (Ok (map (fun k => nth (Nat.modulo (raw st (pos st + k)) (length a)) a x)
               (seq 0 size)),
       {| raw := raw st; pos := (pos st + size)%nat |})
  end.

(** [sorted] on indexes *)
Fixpoint insert_sorted (x : nat) (l : list nat) : list nat :=
  match l with
  | [] => [x]
  | y :: l' => if Nat.leb x y then x :: l else y :: insert_sorted x l'
  end.

Definition sorted (l : list nat) : list nat := fold_right insert_sorted [] l.

(** [make_bs_profile].  [copy.deepcopy] is the identity on values; the
    [reference] mask of the copy is the one of the original. *)
Definition make_bs_profile (self : CPMGProfile) (st : RandomState)
  : result CPMGProfile * RandomState :=
  let indexes := seq 0 (length (val self)) in
  match Np.compress indexes (reference self) with
  | Raise e => (Raise e, st)
  | Ok pool1 =>
  match Np.compress indexes (map negb (reference self)) with
  | Raise e => (Raise e, st)
  | Ok pool2 =>
  let '(r1, st1) :=
    match pool1 with
    | [] => (Ok [], st)
    | _ :: _ => choice pool1 (length pool1) st
    end in
  match r1 with
  | Raise e => (Raise e, st1)
  | Ok bs1 =>
  let '(r2, st2) := choice pool2 (length pool2) st1 in
  (let* bs2 := r2 in
   let bs_indexes := sorted (bs1 ++ bs2) in
   let* ncycs' := Np.take (ncycs self) bs_indexes in
   let* tau' := Np.take (tau_cp_list self) bs_indexes in
   let* val' := Np.take (val self) bs_indexes in
   let* err' := Np.take (err self) bs_indexes in
   Ok {| profile_name := profile_name self;
         ncycs := ncycs';
         val := val';
         err := err';
         reference := reference self;
         time_t2 := time_t2 self;
         pw := pw self;
         tau_cp_list := tau';
         omega1_i := omega1_i self;
         calculate_unscaled_profile_cached := Lru.empty 5;
         map_names := map_names self |},
   st2)
  end end end.

(** [ncycs_to_nu_cpmgs]; [None] is a call that does not pass [ncycs]. *)
Definition ncycs_to_nu_cpmgs (self : CPMGProfile) (ncycs_arg : option Np.ndarray)
  : result Np.ndarray :=
  let ncycs_ :=
    match ncycs_arg with
    | Some a => a
    | None => map (fun ncyc => if Z.leb 0 ncyc then IZR ncyc else 5 / 10)
                  (ncycs self)
    end in
  Np.div_scalar ncycs_ (time_t2 self).

(** [filter_points] *)
Definition filter_points (self : CPMGProfile) (params : option Params) : bool :=
  false.

End CpmgProfile.

(* ===================================================================== *)
(** * chemex/experiments/cpmg/n_cw_0013/back_calculation.py               *)
(* ===================================================================== *)

Module BackCalculation.

Local Open Scope R_scope.

(** The arrays and the linear algebra that the module takes from scipy and
    numpy. *)
Class LinAlg : Type := {
  matrix : Type;
  expm : matrix -> matrix;
  dot : matrix -> matrix -> matrix;
  matrix_power : matrix -> Z -> matrix;
  eye : nat -> matrix;
  madd : matrix -> matrix -> matrix;
  msub : matrix -> matrix -> matrix;
  mscale : matrix -> R -> matrix;
  mdiv : matrix -> R -> matrix
}.

(** The functions that the module imports from [.liouvillian], which is not
    among the sources. *)
Class Liouvillian (L : LinAlg) : Type := {
  compute_liouvillians :
    forall (pb kex dw r_nxy dr_nxy r_nz cs_offset w1 : R),
      matrix * matrix * matrix;
  compute_nz_eq : R -> matrix;
  get_nz : matrix -> R * R
}.

(** Python's [/] on floats. *)
Definition truediv (x y : R) : result R :=
  if Req_dec_T y 0 then Raise ZeroDivisionError else Ok (x / y).

(** [fh_flg.find('y') != -1] *)
Fixpoint find_y (s : string) : bool :=
  match s with
  | EmptyString => false
  | String c s' => if Ascii.eqb c "y"%char then true else find_y s'
  end.

(** The arguments of [make_calc_observable].  The function is itself under
    [lru_cache()]: calls with equal arguments return one closure, whose two
    caches the data points of one residue therefore share. *)
Record geometry : Type := mk_geometry {
  pw : R;
  time_t2 : R;
  time_equil : R;
  ncyc_max : Z;
  fh_flg : string;
  ppm_to_rads : R;
  carrier : R;
  _id : option (R * string * R)
}.

(** [make_calc_observable()] without arguments. *)
Definition default_geometry : geometry :=
  {| pw := 0; time_t2 := 0; time_equil := 0; ncyc_max := 0; fh_flg := "n";
     ppm_to_rads := 1; carrier := 0; _id := None |}.

(** The keyword arguments of [make_propagators]: the key of its cache. *)
Record propagator_args : Type := mk_propagator_args {
  mp_pb : R;
  mp_kex : R;
  mp_dw : R;
  mp_r_nxy : R;
  mp_dr_nxy : R;
  mp_r_nz : R;
  mp_cs_offset : R
}.

(** The keyword arguments of [_calc_observable]: the key of its cache. *)
Record observable_args : Type := mk_observable_args {
  pb : R;
  kex : R;
  dw : R;
  r_nxy : R;
  dr_nxy : R;
  r_nz : R;
  cs : R;
  ncyc : Z
}.

(** [_calc_observable()] without arguments. *)
Definition default_args : observable_args :=
  {| pb := 0; kex := 0; dw := 0; r_nxy := 5; dr_nxy := 0; r_nz := 15 / 10;
     cs := 0; ncyc := 0 |}.

Definition propagator_args_eqb (a b : propagator_args) : bool :=
  float_eqb (mp_pb a) (mp_pb b) && float_eqb (mp_kex a) (mp_kex b)
  && float_eqb (mp_dw a) (mp_dw b) && float_eqb (mp_r_nxy a) (mp_r_nxy b)
  && float_eqb (mp_dr_nxy a) (mp_dr_nxy b) && float_eqb (mp_r_nz a) (mp_r_nz b)
  && float_eqb (mp_cs_offset a) (mp_cs_offset b).

Definition observable_args_eqb (a b : observable_args) : bool :=
  float_eqb (pb a) (pb b) && float_eqb (kex a) (kex b) && float_eqb (dw a) (dw b)
  && float_eqb (r_nxy a) (r_nxy b) && float_eqb (dr_nxy a) (dr_nxy b)
  && float_eqb (r_nz a) (r_nz b) && float_eqb (cs a) (cs b) && Z.eqb (ncyc a) (ncyc b).

(** [reduce(dot, [m0, m1, ...])] *)
Definition reduce_dot {L : LinAlg} (ms : list matrix) : result matrix :=
  match ms with
  | [] => Raise TypeError
  | m :: ms' => Ok (fold_left dot ms' m)
  end.

Definition phase_1 : list nat := [0; 0; 1; 3; 0; 0; 3; 1; 0; 0; 3; 1; 0; 0; 1; 3]%nat.
Definition phase_2 : list nat := [1; 3; 2; 2; 3; 1; 2; 2; 3; 1; 2; 2; 1; 3; 2; 2]%nat.

Section Closure.

Context {L : LinAlg} {LV : Liouvillian L}.

(** The tuple [ps] that [make_propagators] returns. *)
Record propagators : Type := mk_propagators {
  p_equil : matrix;
  p_pos : matrix;
  p_neg : matrix;
  p_90px : matrix;
  p_90py : matrix;
  p_90mx : matrix;
  p_90my : matrix;
  p_180px : matrix;
  p_180py : matrix;
  p_180mx : matrix;
  p_180my : matrix;
  p_180pmy : matrix
}.

(** Modelled from the spec: [chemex.caching.lru_cache], which is not among
    the sources.  A memoisation of bounded capacity, keyed on the exact
    values of the arguments, that evicts the least recently used entry
    and never fails. *)
Definition lru_cache {K V S : Type} (eqb : K -> K -> bool)
    (get : S -> Lru.cache K V) (set : S -> Lru.cache K V -> S)
    (f : K -> S -> result V * S) : K -> S -> result V * S :=
  Lru.call_st eqb get set f.

(** The two caches that one call of [make_calc_observable] creates:
    [lru_cache(1)] around [make_propagators] and [lru_cache(100)] around
    [_calc_observable]. *)
Record closure : Type := mk_closure {
  propagators_cache : Lru.cache propagator_args (matrix * propagators);
  observable_cache : Lru.cache observable_args R
}.

Definition new_closure : closure :=
  {| propagators_cache := Lru.empty 1; observable_cache := Lru.empty 100 |}.

Definition set_propagators_cache (s : closure)
    (c : Lru.cache propagator_args (matrix * propagators)) : closure :=
  {| propagators_cache := c; observable_cache := observable_cache s |}.

Definition set_observable_cache (s : closure)
    (c : Lru.cache observable_args R) : closure :=
  {| propagators_cache := propagators_cache s; observable_cache := c |}.

Variable g : geometry.

(** The body of [make_propagators]. *)
Definition make_propagators_body (a : propagator_args)
  : result (matrix * propagators) :=
  let* w1 := truediv (2 * PI) (4 * pw g) in
  let '(l_free, l_w1x, l_w1y) :=
    compute_liouvillians (mp_pb a) (mp_kex a) (mp_dw a) (mp_r_nxy a)
      (mp_dr_nxy a) (mp_r_nz a) (mp_cs_offset a) w1 in
  let p_equil := expm (mscale l_free (time_equil g)) in
  let p_pos := expm (mdiv (mscale (mscale l_free 2) (pw g)) PI) in
  let p_neg := expm (mdiv (mscale (mscale l_free (-2)) (pw g)) PI) in
  let p_90px := expm (mscale (madd l_free l_w1x) (pw g)) in
  let p_90py := expm (mscale (madd l_free l_w1y) (pw g)) in
  let p_90mx := expm (mscale (msub l_free l_w1x) (pw g)) in
  let p_90my := expm (mscale (msub l_free l_w1y) (pw g)) in
  let p_180px := matrix_power p_90px 2 in
  let p_180py := matrix_power p_90py 2 in
  let p_180mx := matrix_power p_90mx 2 in
  let p_180my := matrix_power p_90my 2 in
  let p_180pmy := mdiv (madd p_180py p_180my) 2 in
  Ok (l_free,
      {| p_equil := p_equil; p_pos := p_pos; p_neg := p_neg;
         p_90px := p_90px; p_90py := p_90py; p_90mx := p_90mx;
         p_90my := p_90my; p_180px := p_180px; p_180py := p_180py;
         p_180mx := p_180mx; p_180my := p_180my; p_180pmy := p_180pmy |}).

(** [make_propagators], under [lru_cache(1)]. *)
Definition make_propagators : propagator_args -> closure ->
                              result (matrix * propagators) * closure :=
  lru_cache propagator_args_eqb propagators_cache set_propagators_cache
    (fun a s => (make_propagators_body a, s)).

(** [p_180s[phase[m % len(phase)]]] *)
Definition p_180s (ps : propagators) (phase : list nat) (m : nat) : matrix :=
  nth (nth (Nat.modulo m (length phase)) phase 0%nat)
      [p_180px ps; p_180py ps; p_180mx ps; p_180my ps] (p_180px ps).

(** The loop [for m in range(ncyc*2)] over one phase list. *)
Fixpoint cp_loop (ps : propagators) (p_free : matrix) (phase : list nat)
    (ms : list nat) (p_cp : matrix) : matrix :=
  match ms with
  | [] => p_cp
  | m :: ms' =>
      cp_loop ps p_free phase ms'
        (dot (dot (dot p_free (p_180s ps phase m)) p_free) p_cp)
  end.

(** Branch [fh_flg.find('y') != -1], [ncyc == 0]. *)
Definition mag_fh_reference (ps : propagators) (mag_eq : matrix)
  : result matrix :=
  reduce_dot [p_equil ps; p_90py ps; p_180pmy ps; p_90py ps; mag_eq].

(** Branch [fh_flg.find('y') != -1], [ncyc != 0]. *)
Definition mag_fh_train (l_free : matrix) (ps : propagators) (mag_eq : matrix)
    (ncyc : Z) : result matrix :=
  let* q := truediv (time_t2 g) (4 * IZR ncyc) in
  let t_cp := q - pw g in
  let p_free := expm (mscale l_free t_cp) in
  let p_cp := matrix_power (dot (dot p_free (p_180px ps)) p_free) ncyc in
  reduce_dot [p_equil ps; p_90py ps; p_neg ps; p_cp; p_180pmy ps; p_cp;
              p_neg ps; p_90py ps; mag_eq].

(** The magnetisation in the branch [fh_flg.find('y') != -1]. *)
Definition mag_fh (l_free : matrix) (ps : propagators) (mag_eq : matrix)
    (ncyc : Z) : result matrix :=
  if Z.eqb ncyc 0 then mag_fh_reference ps mag_eq
  else mag_fh_train l_free ps mag_eq ncyc.

(** Other branch, [ncyc == 0]: [mag1] and [mag2]. *)
Definition mags_cw_reference (p_free_pw : matrix) (ps : propagators)
    (mag_eq : matrix) : result (matrix * matrix) :=
  let* mag1 :=
    reduce_dot [p_equil ps; matrix_power p_free_pw (ncyc_max g - 1);
                p_90my ps; p_180px ps; p_pos ps; p_pos ps; p_180px ps;
                p_90py ps; mag_eq] in
  let* mag2 :=
    reduce_dot [p_equil ps; matrix_power p_free_pw (ncyc_max g - 1);
                p_90my ps; p_180my ps; p_pos ps; p_pos ps; p_180py ps;
                p_90py ps; mag_eq] in
  Ok (mag1, mag2).

(** Other branch, [ncyc != 0]: [mag1] and [mag2]. *)
Definition mags_cw_train (l_free p_free_pw : matrix) (ps : propagators)
    (mag_eq : matrix) (ncyc : Z) : result (matrix * matrix) :=
  let* q := truediv (time_t2 g) (4 * IZR ncyc) in
  let t_cp := q - pw g * (75 / 100) in
  let p_free := expm (mscale l_free t_cp) in
  let ms := seq 0 (Z.to_nat (ncyc * 2)) in
  let p_cp1 := cp_loop ps p_free phase_1 ms (eye 6) in
  let p_cp2 := cp_loop ps p_free phase_2 ms (eye 6) in
  let* mag1 :=
    reduce_dot [p_equil ps; matrix_power p_free_pw (ncyc_max g - ncyc);
                p_90my ps; p_neg ps; p_cp1; p_neg ps; p_90py ps; mag_eq] in
  let* mag2 :=
    reduce_dot [p_equil ps; matrix_power p_free_pw (ncyc_max g - ncyc);
                p_90my ps; p_neg ps; p_cp2; p_neg ps; p_90py ps; mag_eq] in
  Ok (mag1, mag2).

(** The magnetisation in the other branch: [(mag1 + mag2) / 2.0]. *)
Definition mag_cw (l_free : matrix) (ps : propagators) (mag_eq : matrix)
    (ncyc : Z) : result matrix :=
  let p_free_pw := expm (mscale l_free (pw g)) in
  let* mags :=
    if Z.eqb ncyc 0 then mags_cw_reference p_free_pw ps mag_eq
    else mags_cw_train l_free p_free_pw ps mag_eq ncyc in
  Ok (mdiv (madd (fst mags) (snd mags)) 2).

(** The arguments with which [_calc_observable] calls [make_propagators]:
    [dw *= ppm_to_rads] and [cs_offset = (cs - carrier) * ppm_to_rads]. *)
Definition propagator_args_of (a : observable_args) : propagator_args :=
  {| mp_pb := pb a;
     mp_kex := kex a;
     mp_dw := dw a * ppm_to_rads g;
     mp_r_nxy := r_nxy a;
     mp_dr_nxy := dr_nxy a;
     mp_r_nz := r_nz a;
     mp_cs_offset := (cs a - carrier g) * ppm_to_rads g |}.

(** The body of [_calc_observable]. *)
Definition _calc_observable_body (a : observable_args) (s : closure)
  : result R * closure :=
  let '(r, s') := make_propagators (propagator_args_of a) s in
  (let* (l_free, ps) := r in
   let mag_eq := compute_nz_eq (pb a) in
   let* mag :=
     if find_y (fh_flg g) then mag_fh l_free ps mag_eq (ncyc a)
     else mag_cw l_free ps mag_eq (ncyc a) in
   let '(magz_a, _magz_b) := get_nz mag in
   Ok magz_a,
   s').

(** [_calc_observable], under [lru_cache(100)]. *)
Definition _calc_observable : observable_args -> closure -> result R * closure :=
  lru_cache observable_args_eqb observable_cache set_observable_cache
    _calc_observable_body.

(** [calc_observable(i0=0.0, **kwargs)]; [None] is a call that does not
    pass [i0]. *)
Definition calc_observable (i0 : option R) (kwargs : observable_args)
    (s : closure) : result R * closure :=
  let i0 := match i0 with Some x => x | None => 0 end in
  let '(r, s') := _calc_observable kwargs s in
  (let* x := r in Ok (i0 * x), s').

End Closure.

End BackCalculation.

(* ===================================================================== *)
(** * chemex/fitting.py                                                   *)
(* ===================================================================== *)

Module Fitting.

Import Lmfit.

(** What the partitioner reads of a profile: [profile.params.keys()], in
    the order of the dict. *)
Record Profile : Type := mk_Profile {
  profile_name : string;
  params : list string
}.

(** Modelled from the spec: [datasets.DataSet], which is not among the
    sources.  An ordered collection of profiles; [DataSet(profile)] is the
    collection of one profile and [append] adds a profile at the end. *)
Definition DataSet := list Profile.

(** The class [parameters.ParameterName], which is not among the sources,
    and Python's [<] on the tuples [(name_cluster, data_cluster,
    params_cluster)], which begins with the order of that class. *)
Class ParameterNames : Type := {
  ParameterName : Type;
  from_full_name : string -> ParameterName;
  intersection : ParameterName -> ParameterName -> ParameterName;
  tuple_lt : ParameterName * DataSet * Params ->
             ParameterName * DataSet * Params -> bool
}.

(** [{name for name in pnames if params[name].vary and not params[name].expr}] *)
Fixpoint pnames_vary_of (all_params : Params) (pnames : list string)
  : result (gset string) :=
  match pnames with
  | [] => Ok ∅
  | name :: pnames' =>
      let* p := getitem all_params name in
      let* s := pnames_vary_of all_params pnames' in
      Ok (if vary p && negb (expr_truthy p) then {[name]} ∪ s else s)
  end.

(** A cluster while the dataset is scanned:
    [(data_cluster, pnames_cluster, pnames_vary_cluster)]. *)
Definition cluster : Type := DataSet * list string * gset string.

(** The inner [for ... break] over the clusters: the profile joins the
    first cluster whose varying names meet its own; [None] is the [else]
    clause of the loop. *)
Fixpoint join_first (profile : Profile) (pnames_vary : gset string)
    (clusters : list cluster) : option (list cluster) :=
  match clusters with
  | [] => None
  | (data_cluster, pnames_cluster, pnames_vary_cluster) :: rest =>
      if bool_decide (pnames_vary ∩ pnames_vary_cluster ≠ ∅) then
        Some ((data_cluster ++ [profile],
               pnames_cluster ++ params profile,
               pnames_vary_cluster ∪ pnames_vary) :: rest)
      else
        match join_first profile pnames_vary rest with
        | Some rest' => Some ((data_cluster, pnames_cluster, pnames_vary_cluster) :: rest')
        | None => None
        end
  end.

(** One iteration of [for profile in data]. *)
Definition add_profile (all_params : Params) (clusters : list cluster)
    (profile : Profile) : result (list cluster) :=
  let* pnames_vary := pnames_vary_of all_params (params profile) in
  match join_first profile pnames_vary clusters with
  | Some clusters' => Ok clusters'
  | None => Ok (clusters ++ [([profile], params profile, pnames_vary)])
  end.

(** [for profile in data] *)
Fixpoint scan (all_params : Params) (data : list Profile) (clusters : list cluster)
  : result (list cluster) :=
  match data with
  | [] => Ok clusters
  | profile :: data' =>
      let* clusters' := add_profile all_params clusters profile in
      scan all_params data' clusters'
  end.

(** [s.pop()] on a set: an arbitrary element, here the first in the
    enumeration of the set; [KeyError] on the empty set. *)
Definition pop (s : gset string) : result (string * gset string) :=
  match elements s with
  | [] => Raise KeyError
  | x :: _ => Ok (x, s ∖ {[x]})
  end.

Section Labels.

Context {PN : ParameterNames}.

(** [while pnames_vary_cluster: name_cluster = name_cluster.intersection(
    from_full_name(pnames_vary_cluster.pop()))]; the fuel is the size of
    the set, which every [pop] decreases by one. *)
Fixpoint intersect_all (fuel : nat) (name_cluster : ParameterName)
    (s : gset string) : ParameterName :=
  match fuel with
  | O => name_cluster
  | S fuel' =>
      match pop s with
      | Ok (x, s') =>
          intersect_all fuel' (intersection name_cluster (from_full_name x)) s'
      | Raise _ => name_cluster
      end
  end.

(** The label of a cluster. *)
Definition name_of_cluster (pnames_vary_cluster : gset string)
  : result ParameterName :=
  let* (x, s) := pop pnames_vary_cluster in
  Ok (intersect_all (size s) (from_full_name x) s).

(** [for pname in pnames_cluster: ...]: the parameters of the cluster.
    The flag [_delay_asteval] is raised on each of them and lowered when
    all are in; the parameter objects are those of the global set, which
    therefore sees the flag lowered too. *)
Fixpoint collect (all_params : Params) (pnames_cluster : list string)
    (params_cluster : Params) : result (Params * Params) :=
  match pnames_cluster with
  | [] => Ok (all_params, params_cluster)
  | pname :: rest =>
      let* p := getitem all_params pname in
      let p' := {| value := value p; vary := vary p; expr := expr p;
                   _delay_asteval := true |} in
      collect (<[pname := p']> all_params) rest (<[pname := p']> params_cluster)
  end.

Definition lower (p : Param) : Param :=
  {| value := value p; vary := vary p; expr := expr p;
     _delay_asteval := false |}.

(** [for param in params_cluster.values(): param._delay_asteval = False],
    seen from the global set. *)
Definition lower_all (params_cluster all_params : Params) : Params :=
  (lower <$> params_cluster) ∪ all_params.

(** The second loop, [for ... in clusters]. *)
Fixpoint label (all_params : Params) (clusters : list cluster)
  : result (list (ParameterName * DataSet * Params)) * Params :=
  match clusters with
  | [] => (Ok [], all_params)
  | (data_cluster, pnames_cluster, pnames_vary_cluster) :: rest =>
      match name_of_cluster pnames_vary_cluster with
      | Raise e => (Raise e, all_params)
      | Ok name_cluster =>
          match collect all_params pnames_cluster ∅ with
          | Raise e => (Raise e, all_params)
          | Ok (all_params', params_cluster) =>
              let params_cluster' := lower <$> params_cluster in
              let '(r, all_params'') :=
                label (lower_all params_cluster all_params') rest in
              (let* rest' := r in
               Ok ((name_cluster, data_cluster, params_cluster') :: rest'),
               all_params'')
          end
      end
  end.

(** [sorted]: a stable sort by [<]. *)
Fixpoint insert_by {A} (lt : A -> A -> bool) (x : A) (l : list A) : list A :=
  match l with
  | [] => [x]
  | y :: l' => if lt x y then x :: l else y :: insert_by lt x l'
  end.

Definition sorted_by {A} (lt : A -> A -> bool) (l : list A) : list A :=
  fold_left (fun acc x => insert_by lt x acc) l [].

(** [find_independent_clusters]; the global parameter set comes back as
    the function has left it. *)
Definition find_independent_clusters (data : list Profile) (all_params : Params)
  : result (list (ParameterName * DataSet * Params)) * Params :=
  match scan all_params data [] with
  | Raise e => (Raise e, all_params)
  | Ok clusters =>
      let '(r, all_params') := label all_params clusters in
      (let* clusters_ := r in Ok (sorted_by tuple_lt clusters_), all_params')
  end.

End Labels.

(** ** The fit driver *)

(** The attributes of [lmfit.minimizer.MinimizerResult] that [run_fit]
    reads or writes. *)
Record MinimizerResult : Type := mk_MinimizerResult {
  result_params : Params;
  method : string;
  chisqr : R;
  redchi : R
}.

(** A call [lmfit.Minimizer(func, params).minimize(...)]: the dataset whose
    [calculate_residuals] is [func], the parameters, and the keyword
    arguments [method], [keep], [params] and [maxfev]. *)
Record minimize_call : Type := mk_minimize_call {
  call_data : DataSet;
  call_params : Params;
  call_method : option string;
  call_keep : option string;
  call_restart : option Params;
  call_maxfev : option nat
}.

(** How a call of [minimize] ends: it returns a result, or the user
    interrupts it, in which case [minimizer.result] is what the minimizer
    has reached. *)
Inductive outcome : Type :=
| Returns (r : MinimizerResult)
| Interrupted (reached : MinimizerResult).

(** One section of the fit configuration: its name and its items. *)
Record config_section : Type := mk_config_section {
  section_name : string;
  items : list (string * string)
}.

(** [fit_config.get(section, "fitmethod", fallback=cl_fitmethod)] *)
Fixpoint get_fitmethod (its : list (string * string)) (fallback : string) : string :=
  match its with
  | [] => fallback
  | (k, v) :: its' => if String.eqb k "fitmethod" then v else get_fitmethod its' fallback
  end.

(** The variables of [run_fit] that change while it runs, and the calls of
    the minimizer it has made so far. *)
Record fit_state : Type := mk_fit_state {
  all_params : Params;
  c_result : option MinimizerResult;
  result_ : option MinimizerResult;
  calls : list minimize_call
}.

Section Driver.

Context {PN : ParameterNames}.

(** The minimizer of lmfit, [parameters.set_param_status] and the keys of
    [ALLOWED_FITMETHODS], none of which is among the sources. *)
Variable minimize : minimize_call -> outcome.
Variable set_param_status : Params -> list (string * string) -> Params.
Variable allowed_fitmethod : string -> bool.

(** [c_minimizer.minimize(method=fitmethod)], with [keep="all"] for the
    method "brute". *)
Definition first_call (fitmethod : string)
    (c : ParameterName * DataSet * Params) : minimize_call :=
  {| call_data := snd (fst c); call_params := snd c;
     call_method := Some fitmethod;
     call_keep := if String.eqb fitmethod "brute" then Some "all" else None;
     call_restart := None; call_maxfev := None |}.

(** [c_minimizer.minimize(params=c_minimizer.result.params, maxfev=1)] *)
Definition again_call (c : ParameterName * DataSet * Params)
    (reached : MinimizerResult) : minimize_call :=
  {| call_data := snd (fst c); call_params := snd c;
     call_method := None; call_keep := None;
     call_restart := Some (result_params reached);
     call_maxfev := Some 1%nat |}.

(** [for name, param in c_result.params.items(): params[name] = param] *)
Definition merge_result (r : MinimizerResult) (new_calls : list minimize_call)
    (st : fit_state) : fit_state :=
  {| all_params := result_params r ∪ all_params st;
     c_result := Some r;
     result_ := result_ st;
     calls := calls st ++ new_calls |}.

(** The body of [for c_name, c_data, c_params in clusters]. *)
Definition fit_cluster (fitmethod : string)
    (c : ParameterName * DataSet * Params) (st : fit_state) : result fit_state :=
  match minimize (first_call fitmethod c) with
  | Returns r => Ok (merge_result r [first_call fitmethod c] st)
  | Interrupted reached =>
      match minimize (again_call c reached) with
      | Returns r =>
          Ok (merge_result r [first_call fitmethod c; again_call c reached] st)
      | Interrupted _ => Raise KeyboardInterrupt
      end
  end.

(** [for c_name, c_data, c_params in clusters] *)
Fixpoint fit_clusters (fitmethod : string)
    (clusters : list (ParameterName * DataSet * Params)) (st : fit_state)
  : result fit_state :=
  match clusters with
  | [] => Ok st
  | c :: rest =>
      let* st' := fit_cluster fitmethod c st in
      fit_clusters fitmethod rest st'
  end.

(** The statements after the loop over the clusters: the evaluation of
    the whole dataset when there are several clusters. *)
Definition reconcile (data : list Profile)
    (clusters : list (ParameterName * DataSet * Params)) (st : fit_state)
  : result fit_state :=
  if Nat.ltb 1 (length clusters) then
    let whole :=
      {| call_data := data; call_params := all_params st;
         call_method := None; call_keep := None;
         call_restart := None; call_maxfev := Some 1%nat |} in
    match minimize whole with
    | Returns r =>
        Ok {| all_params := all_params st;
              c_result := c_result st;
              result_ := Some {| result_params := all_params st;
                                 method := method r;
                                 chisqr := chisqr r;
                                 redchi := redchi r |};
              calls := calls st ++ [whole] |}
    | Interrupted _ => Raise KeyboardInterrupt
    end
  else
    match c_result st with
    | Some r =>
        Ok {| all_params := all_params st; c_result := c_result st;
              result_ := Some r; calls := calls st |}
    | None => Raise UnboundLocalError
    end.

(** The body of [for section in fit_config.sections()]. *)
Definition fit_section (data : list Profile) (cl_fitmethod : string)
    (section : config_section) (st : fit_state) : result fit_state :=
  let params1 := set_param_status (all_params st) (items section) in
  let '(r, params2) := find_independent_clusters data params1 in
  let* clusters := r in
  let fitmethod := get_fitmethod (items section) cl_fitmethod in
  if negb (allowed_fitmethod fitmethod) then Raise SystemExit
  else
    let* st' :=
      fit_clusters fitmethod clusters
        {| all_params := params2; c_result := c_result st;
           result_ := result_ st; calls := calls st |} in
    reconcile data clusters st'.

Fixpoint fit_sections (data : list Profile) (cl_fitmethod : string)
    (sections : list config_section) (st : fit_state) : result fit_state :=
  match sections with
  | [] => Ok st
  | section :: rest =>
      let* st' := fit_section data cl_fitmethod section st in
      fit_sections data cl_fitmethod rest st'
  end.

(** [run_fit], from the sections that [util.read_cfg_file] has read.  The
    result comes with the calls of the minimizer that were made. *)
Definition run_fit (fit_config : list config_section) (all_params0 : Params)
    (data : list Profile) (cl_fitmethod : string)
  : result (MinimizerResult * list minimize_call) :=
  let sections :=
    match fit_config with
    | [] => [{| section_name := "Standard Calculation"; items := [] |}]
    | _ :: _ => fit_config
    end in
  let* st :=
    fit_sections data cl_fitmethod sections
      {| all_params := all_params0; c_result := None; result_ := None;
         calls := [] |} in
  match result_ st with
  | Some r => Ok (r, calls st)
  | None => Raise UnboundLocalError
  end.

End Driver.

End Fitting.

(* ===================================================================== *)
(** * Specification-side definitions                                      *)
(* ===================================================================== *)

(** The sum of a list, as the specification writes it. *)
Definition Rsum (l : list R) : R := fold_right Rplus 0%R l.

(** ** Weighted least squares (profile) *)

Module ScaleSpec.

Local Open Scope R_scope.

(** The points of a profile next to a predicted curve:
    (predicted, measured, err). *)
Definition points (cal val err : list R) : list (R * R * R) :=
  combine (combine cal val) err.

Definition predicted (t : R * R * R) : R := fst (fst t).
Definition measured (t : R * R * R) : R := snd (fst t).
Definition uncertainty (t : R * R * R) : R := snd t.

(** Σ(predicted·measured/err²) *)
Definition numerator (pts : list (R * R * R)) : R :=
  Rsum (map (fun t => predicted t * measured t / uncertainty t ^ 2) pts).

(** Σ(predicted/err)² *)
Definition denominator (pts : list (R * R * R)) : R :=
  Rsum (map (fun t => (predicted t / uncertainty t) ^ 2) pts).

(** Σ((scale·predicted − measured)/err)² *)
Definition rss (scale : R) (pts : list (R * R * R)) : R :=
  Rsum (map (fun t => ((scale * predicted t - measured t) / uncertainty t) ^ 2) pts).

(** The profile with every measured intensity and every uncertainty
    multiplied by [c]. *)
Definition rescale (c : R) (self : CpmgProfile.CPMGProfile)
  : CpmgProfile.CPMGProfile :=
  {| CpmgProfile.profile_name := CpmgProfile.profile_name self;
     CpmgProfile.ncycs := CpmgProfile.ncycs self;
     CpmgProfile.val := map (Rmult c) (CpmgProfile.val self);
     CpmgProfile.err := map (Rmult c) (CpmgProfile.err self);
     CpmgProfile.reference := CpmgProfile.reference self;
     CpmgProfile.time_t2 := CpmgProfile.time_t2 self;
     CpmgProfile.pw := CpmgProfile.pw self;
     CpmgProfile.tau_cp_list := CpmgProfile.tau_cp_list self;
     CpmgProfile.omega1_i := CpmgProfile.omega1_i self;
     CpmgProfile.calculate_unscaled_profile_cached :=
       CpmgProfile.calculate_unscaled_profile_cached self;
     CpmgProfile.map_names := CpmgProfile.map_names self |}.

End ScaleSpec.

(** ** Resampling (profile) *)

Module ResampleSpec.

Import CpmgProfile.

(** A reference point has cycle count 0. *)
Definition is_reference (n : Z) : bool := Z.eqb n 0.

Definition n_reference (p : CPMGProfile) : nat :=
  length (List.filter is_reference (ncycs p)).

Definition n_non_reference (p : CPMGProfile) : nat :=
  length (List.filter (fun n => negb (is_reference n)) (ncycs p)).

(** The (ncyc, val, err) triples of a profile. *)
Definition triples (p : CPMGProfile) : list (Z * R * R) :=
  combine (combine (ncycs p) (val p)) (err p).

(** The invariant of the data model: parallel arrays of one length, and the
    reference mask that [__init__] derives from the cycle counts. *)
Definition well_formed (p : CPMGProfile) : Prop :=
  length (val p) = length (ncycs p)
  /\ length (err p) = length (ncycs p)
  /\ length (tau_cp_list p) = length (ncycs p)
  /\ reference p = map is_reference (ncycs p).

Definition non_decreasing (l : list Z) : Prop := StronglySorted Z.le l.

End ResampleSpec.

(** ** The back-calculation without its caches *)

Module BackCalcSpec.

Import BackCalculation.
Local Open Scope R_scope.

Definition with_ncyc (a : observable_args) (n : Z) : observable_args :=
  {| pb := pb a; kex := kex a; dw := dw a; r_nxy := r_nxy a;
     dr_nxy := dr_nxy a; r_nz := r_nz a; cs := cs a; ncyc := n |}.

Definition with_cs (a : observable_args) (x : R) : observable_args :=
  {| pb := pb a; kex := kex a; dw := dw a; r_nxy := r_nxy a;
     dr_nxy := dr_nxy a; r_nz := r_nz a; cs := x; ncyc := ncyc a |}.

Definition with_time_t2 (g : geometry) (t : R) : geometry :=
  {| pw := pw g; time_t2 := t; time_equil := time_equil g;
     ncyc_max := ncyc_max g; fh_flg := fh_flg g;
     ppm_to_rads := ppm_to_rads g; carrier := carrier g; _id := _id g |}.

Section Values.

Context {L : LinAlg} {LV : Liouvillian L}.
Variable g : geometry.

(** What [_calc_observable] computes when nothing is cached. *)
Definition observable_value (a : observable_args) : result R :=
  let* (l_free, ps) := make_propagators_body g (propagator_args_of g a) in
  let* mag :=
    if find_y (fh_flg g) then mag_fh g l_free ps (compute_nz_eq (pb a)) (ncyc a)
    else mag_cw g l_free ps (compute_nz_eq (pb a)) (ncyc a) in
  Ok (fst (get_nz mag)).

(** The intensity of the reference point: the sequences of the branches
    [ncyc == 0], which have no refocusing train. *)
Definition reference_value (a : observable_args) : result R :=
  let* (l_free, ps) := make_propagators_body g (propagator_args_of g a) in
  let* mag :=
    if find_y (fh_flg g) then mag_fh_reference ps (compute_nz_eq (pb a))
    else
      let* mags := mags_cw_reference g (expm (mscale l_free (pw g))) ps
                     (compute_nz_eq (pb a)) in
      Ok (mdiv (madd (fst mags) (snd mags)) 2) in
  Ok (fst (get_nz mag)).

(** The intensity by the general formula of the refocusing train, the
    branches [ncyc != 0], at any cycle count. *)
Definition train_value (a : observable_args) : result R :=
  let* (l_free, ps) := make_propagators_body g (propagator_args_of g a) in
  let* mag :=
    if find_y (fh_flg g)
    then mag_fh_train g l_free ps (compute_nz_eq (pb a)) (ncyc a)
    else
      let* mags := mags_cw_train g l_free (expm (mscale l_free (pw g))) ps
                     (compute_nz_eq (pb a)) (ncyc a) in
      Ok (mdiv (madd (fst mags) (snd mags)) 2) in
  Ok (fst (get_nz mag)).

(** The states of the two caches that calls of [calc_observable] lead
    to. *)
Inductive reachable : closure -> Prop :=
| reachable_new : reachable new_closure
| reachable_call (i0 : option R) (a : observable_args) (s : closure) :
    reachable s -> reachable (snd (calc_observable g i0 a s)).

(** Both caches hold what their functions compute, and have the
    capacities they were created with. *)
Definition consistent (s : closure) : Prop :=
  Lru.coherent (make_propagators_body g) (propagators_cache s)
  /\ Lru.coherent observable_value (observable_cache s)
  /\ Lru.maxsize (propagators_cache s) = 1%nat
  /\ (length (Lru.entries (propagators_cache s)) <= 1)%nat.

End Values.

(** A one-dimensional instance of the linear algebra: the real numbers. *)
#[local] Instance scalar : LinAlg :=
  {| matrix := R;
     expm := exp;
     dot := Rmult;
     matrix_power := powerRZ;
     eye := fun _ => 1;
     madd := Rplus;
     msub := Rminus;
     mscale := Rmult;
     mdiv := Rdiv |}.

(** A single longitudinal magnetisation [1 - pb] that relaxes with rate
    [r_nz] and on which the pulses do not act. *)
#[local] Instance relaxing : Liouvillian scalar :=
  {| compute_liouvillians :=
       fun pb kex dw r_nxy dr_nxy r_nz cs_offset w1 => (- r_nz, 0, 0);
     compute_nz_eq := fun pb => 1 - pb;
     get_nz := fun m => (m, 0) |}.

(** An experiment with [fh_flg = 'y']. *)
Definition geometry_fh : geometry :=
  {| pw := 1 / 10000; time_t2 := 4 / 100; time_equil := 0; ncyc_max := 40;
     fh_flg := "y"; ppm_to_rads := 1; carrier := 0; _id := None |}.

End BackCalcSpec.

(** ** The partition into clusters *)

Module PartitionSpec.

Import Lmfit Fitting.

(** A parameter is free when it varies and is not bound to an expression. *)
Definition is_free (all_params : Params) (name : string) : bool :=
  match all_params !! name with
  | Some p => vary p && negb (expr_truthy p)
  | None => false
  end.

(** The free parameters that a profile refers to. *)
Definition free_names (all_params : Params) (p : Profile) : gset string :=
  list_to_set (List.filter (is_free all_params) (params p)).

(** Two profiles share a free parameter. *)
Definition shares (all_params : Params) (p q : Profile) : Prop :=
  free_names all_params p ∩ free_names all_params q ≠ ∅.

(** Two profiles of the dataset are linked by a chain of profiles of the
    dataset in which neighbours share a free parameter. *)
Definition linked (all_params : Params) (data : list Profile)
  : Profile -> Profile -> Prop :=
  Relation_Operators.clos_refl_sym_trans Profile
    (fun p q => In p data /\ In q data /\ shares all_params p q).

(** The profiles of a cluster that the partitioner returns. *)
Definition profiles_of {N : Type} (c : N * DataSet * Params) : DataSet :=
  snd (fst c).

(** What holds of every cluster while the dataset is scanned: its profiles
    are profiles of the dataset, each of its varying names is a free name of
    one of its profiles, and its profiles are linked. *)
Definition cluster_ok (all_params : Params) (data : list Profile) (c : cluster)
  : Prop :=
  (forall p, In p (fst (fst c)) -> In p data)
  /\ (forall v, v ∈ snd c ->
                exists p, In p (fst (fst c)) /\ v ∈ free_names all_params p)
  /\ (forall p q, In p (fst (fst c)) -> In q (fst (fst c)) ->
                  linked all_params data p q).

(** What the second loop needs of every cluster: varying names, and
    parameter names that the global set resolves. *)
Definition cluster_labelled (all_params : Params) (c : cluster) : Prop :=
  snd c ≠ ∅ /\ Forall (fun n => is_Some (all_params !! n)) (snd (fst c)).

End PartitionSpec.

(** ** Example data *)

Module Examples.

Import Lmfit CpmgProfile.
Local Open Scope R_scope.

(** A profile with cycle counts [0, 2, 4, 10]. *)
Definition profile_G23N : CPMGProfile :=
  let p := init "G23N-HN" [0; 2; 4; 10]%Z [10; 8; 7; 6] [1; 1; 2; 2] (4 / 100) 0 in
  {| profile_name := profile_name p;
     ncycs := ncycs p;
     val := val p;
     err := err p;
     reference := reference p;
     time_t2 := time_t2 p;
     pw := pw p;
     tau_cp_list := tau_cp_list p;
     omega1_i := omega1_i p;
     calculate_unscaled_profile_cached := calculate_unscaled_profile_cached p;
     map_names := [("kex", "KEX,TEMPERATURE->25.0C")] |}.

Definition params_kex : Params :=
  {[ "KEX,TEMPERATURE->25.0C" := {| value := 500; vary := true; expr := None; _delay_asteval := false |} ]}.

(** An experiment whose unscaled intensity at [ncyc] cycles is
    [1 / (1 + ncyc)], whatever the parameters. *)
Definition unscaled_decay (self : CPMGProfile) (kw : kwargs) : result Np.ndarray :=
  Ok (map (fun n => 1 / (1 + IZR n)) (ncycs self)).

(** A profile whose points are not in the order of their cycle counts. *)
Definition profile_unordered : CPMGProfile :=
  init "L24N-HN" [0; 4; 2]%Z [10; 6; 8] [1; 1; 1] (4 / 100) 0.

(** A random generator whose [k]-th raw draw is [k]. *)
Definition counting : RandomState := {| raw := fun k => k; pos := 0 |}.

(** Parameter names as plain strings: the intersection of two names is
    their longest common prefix, and the tuples are ordered by name. *)
Fixpoint common_prefix (a b : string) : string :=
  match a, b with
  | String x a', String y b' =>
      if Ascii.eqb x y then String x (common_prefix a' b') else EmptyString
  | _, _ => EmptyString
  end.

#[local] Instance plain_names : Fitting.ParameterNames :=
  {| Fitting.ParameterName := string;
     Fitting.from_full_name := fun s => s;
     Fitting.intersection := common_prefix;
     Fitting.tuple_lt := fun c1 c2 => String.ltb (fst (fst c1)) (fst (fst c2)) |}.

Definition free_param : Param :=
  {| value := 1; vary := true; expr := None; _delay_asteval := false |}.

Definition fixed_param : Param :=
  {| value := 1; vary := false; expr := None; _delay_asteval := false |}.

(** Two free parameters and a fixed one. *)
Definition params_abf : Params :=
  {[ "a" := free_param; "b" := free_param; "f" := fixed_param ]}.

Definition profile_A : Fitting.Profile :=
  {| Fitting.profile_name := "A"; Fitting.params := ["a"; "f"] |}.
Definition profile_B : Fitting.Profile :=
  {| Fitting.profile_name := "B"; Fitting.params := ["b"; "f"] |}.
Definition profile_C : Fitting.Profile :=
  {| Fitting.profile_name := "C"; Fitting.params := ["a"; "b"] |}.
(** A profile all of whose parameters are fixed. *)
Definition profile_F : Fitting.Profile :=
  {| Fitting.profile_name := "F"; Fitting.params := ["f"] |}.

(** A fit configuration of two sections without items. *)
Definition two_sections : list Fitting.config_section :=
  [ {| Fitting.section_name := "first"; Fitting.items := [] |};
    {| Fitting.section_name := "second"; Fitting.items := [] |} ].

Definition reached_of (call : Fitting.minimize_call) : Fitting.MinimizerResult :=
  {| Fitting.result_params := Fitting.call_params call;
     Fitting.method := match Fitting.call_method call with
                       | Some m => m
                       | None => "leastsq"
                       end;
     Fitting.chisqr := 0;
     Fitting.redchi := 0 |}.

(** A minimizer that leaves the parameters as they are, and that the user
    interrupts whenever it starts on the dataset made of profile A alone;
    the evaluation after the interruption returns. *)
Definition interrupted_on_A (call : Fitting.minimize_call) : Fitting.outcome :=
  match Fitting.call_data call, Fitting.call_maxfev call with
  | [p], None =>
      if String.eqb (Fitting.profile_name p) "A"
      then Fitting.Interrupted (reached_of call)
      else Fitting.Returns (reached_of call)
  | _, _ => Fitting.Returns (reached_of call)
  end.

Definition keep_status (all_params : Params) (its : list (string * string))
  : Params := all_params.

Definition only_leastsq (fitmethod : string) : bool :=
  String.eqb fitmethod "leastsq".

Definition cluster_A : Fitting.ParameterName * Fitting.DataSet * Params :=
  ("a", [profile_A], {[ "a" := free_param; "f" := fixed_param ]}).

Definition cluster_B : Fitting.ParameterName * Fitting.DataSet * Params :=
  ("b", [profile_B], {[ "b" := free_param; "f" := fixed_param ]}).

Definition fresh_state : Fitting.fit_state :=
  {| Fitting.all_params := params_abf; Fitting.c_result := None;
     Fitting.result_ := None; Fitting.calls := [] |}.

(** An experiment whose unscaled intensity vanishes. *)
Definition unscaled_zero (self : CPMGProfile) (kw : kwargs) : result Np.ndarray :=
  Ok (map (fun _ => 0) (ncycs self)).

End Examples.

(** ** Further definitions for the statements *)

Module ExtraSpec.

Import Lmfit CpmgProfile.
Local Open Scope R_scope.

(** The experiment whose unscaled intensities are those of
    [calculate_unscaled_profile] times a constant. *)
Definition scaled_experiment (k : R)
    (calculate_unscaled_profile : CPMGProfile -> kwargs -> result Np.ndarray)
  : CPMGProfile -> kwargs -> result Np.ndarray :=
  fun self kw => fmap (map (Rmult k)) (calculate_unscaled_profile self kw).

(** The timing of one point: the delay [tau] that belongs to the cycle
    count [n] in an experiment of length [time_t2] with pulses of width
    [pw]. *)
Definition delay_of (time_t2 pw : R) (n : Z) (tau : R) : Prop :=
  ((0 < n)%Z -> 4 * IZR n * (tau + pw) = time_t2)
  /\ (n = 0%Z -> tau = 0)
  /\ ((n < 0)%Z -> tau = time_t2 / 2).

(** The frequency [nu] that belongs to the cycle count [n]. *)
Definition frequency_of (time_t2 : R) (n : Z) (nu : R) : Prop :=
  ((0 <= n)%Z -> nu * time_t2 = IZR n)
  /\ ((n < 0)%Z -> nu * time_t2 = 1 / 2)
  /\ 0 <= nu
  /\ (nu = 0 <-> n = 0%Z).

(** A profile measured at two cycle counts. *)
Definition profile_two_points : CPMGProfile :=
  init "A1N-HN" [0; 2]%Z [10; 8] [1; 2] (4 / 100) (1 / 10000).

(** The profile whose points are those of [self] at the indexes [idx]; the
    other attributes are those of [self], with an empty cache. *)
Definition at_indexes (self : CPMGProfile) (idx : list nat) : CPMGProfile :=
  {| profile_name := profile_name self;
     ncycs := map (fun i => nth i (ncycs self) 0%Z) idx;
     val := map (fun i => nth i (val self) 0) idx;
     err := map (fun i => nth i (err self) 0) idx;
     reference := reference self;
     time_t2 := time_t2 self;
     pw := pw self;
     tau_cp_list := map (fun i => nth i (tau_cp_list self) 0) idx;
     omega1_i := omega1_i self;
     calculate_unscaled_profile_cached := Lru.empty 5;
     map_names := map_names self |}.

(** The delays of a profile are those of its cycle counts. *)
Definition delays_consistent (p : CPMGProfile) : Prop :=
  tau_cp_list p = map (tau_cp (time_t2 p) (pw p)) (ncycs p).

(** A profile whose reference point is not the first one. *)
Definition profile_reference_second : CPMGProfile :=
  init "V25N-HN" [2; 0; 4]%Z [8; 10; 6] [1; 1; 1] (4 / 100) 0.

(** What [calculate_profile] computes when nothing is cached. *)
Definition calculate_profile_uncached
    (calculate_unscaled_profile : CPMGProfile -> kwargs -> result Np.ndarray)
    (self : CPMGProfile) (params : Params) : result Np.ndarray :=
  let* kw := make_kwargs self params in
  let* values := calculate_unscaled_profile self kw in
  let* scale := calculate_scale self values in
  Ok (Np.scale values scale).

(** The states of a profile that calls of [calculate_profile] lead to. *)
Inductive evaluated
    (calculate_unscaled_profile : CPMGProfile -> kwargs -> result Np.ndarray)
    (self0 : CPMGProfile) : CPMGProfile -> Prop :=
| evaluated_start : evaluated calculate_unscaled_profile self0 self0
| evaluated_step (self : CPMGProfile) (params : Params) :
    evaluated calculate_unscaled_profile self0 self ->
    evaluated calculate_unscaled_profile self0
      (snd (calculate_profile calculate_unscaled_profile self params)).

(** The unscaled calculation does not read the cache of the profile. *)
Definition ignores_cache
    (calculate_unscaled_profile : CPMGProfile -> kwargs -> result Np.ndarray)
  : Prop :=
  forall self c kw,
    calculate_unscaled_profile (set_cache self c) kw
    = calculate_unscaled_profile self kw.

(** A random generator whose raw draws are all [0]. *)
Definition constant_draws : RandomState := {| raw := fun _ => 0%nat; pos := 0 |}.

End ExtraSpec.

Module PartitionExtraSpec.

Import Lmfit Fitting PartitionSpec.

(** The profiles and the parameter names of a cluster while the dataset is
    scanned. *)
Definition data_of (c : cluster) : DataSet := fst (fst c).
Definition names_of (c : cluster) : list string := snd (fst c).

(** No two profiles of the dataset share a free parameter. *)
Definition independent (all_params : Params) (data : list Profile) : Prop :=
  ForallOrdPairs (fun p q => ~ shares all_params p q) data.

(** The decomposition in which every profile is on its own. *)
Definition one_by_one (data : list Profile) : list DataSet :=
  map (fun p => [p]) data.

(** The parameter names that the profiles of a dataset refer to. *)
Definition referenced (d : DataSet) (n : string) : Prop :=
  exists p, In p d /\ In n (params p).

(** Two parameter sets with the same names, values, [vary] flags and
    expressions: they differ in the flags [_delay_asteval] at most. *)
Definition same_settings (P Q : Params) : Prop := lower <$> P = lower <$> Q.

(** [lmfit.Minimizer(c_func, params).minimize(maxfev=1)] on the whole
    dataset. *)
Definition whole_call (data : list Profile) (all_params : Params) : minimize_call :=
  {| call_data := data; call_params := all_params;
     call_method := None; call_keep := None;
     call_restart := None; call_maxfev := Some 1%nat |}.

End PartitionExtraSpec.

(* ===================================================================== *)
(** * Properties: the result monad, numpy arrays, the cache               *)
(* ===================================================================== *)

Section MonadFacts.

Lemma fmap_Ok {A B} (f : A -> B) (a : A) : fmap f (Ok a) = Ok (f a).
Proof. reflexivity. Qed.

Lemma fmap_fmap {A B C} (f : A -> B) (g : B -> C) (r : result A) :
  fmap g (fmap f r) = fmap (fun a => g (f a)) r.
Proof. destruct r; reflexivity. Qed.

Lemma bind_fmap {A B C} (f : A -> B) (k : B -> result C) (r : result A) :
  Py.bind (fmap f r) k = Py.bind r (fun a => k (f a)).
Proof. destruct r; reflexivity. Qed.

Lemma mapM_map {A B C} (h : A -> B) (f : B -> result C) (l : list A) :
  mapM f (map h l) = mapM (fun a => f (h a)) l.
Proof.
  induction l as [|a l IH]; simpl; [reflexivity|].
  rewrite IH. reflexivity.
Qed.

Lemma mapM_fmap {A B C} (f : A -> result B) (g : A -> result C) (k : B -> C)
    (l : list A) :
  (forall a, In a l -> g a = fmap k (f a)) ->
  mapM g l = fmap (map k) (mapM f l).
Proof.
  induction l as [|a l IH]; intros Hfg; simpl; [reflexivity|].
  rewrite (Hfg a (or_introl eq_refl)).
  destruct (f a) as [b|e]; simpl; [|reflexivity].
  rewrite IH by (intros; apply Hfg; right; assumption).
  destruct (mapM f l); reflexivity.
Qed.

Lemma mapM_total {A B} (f : A -> result B) (g : A -> B) (l : list A) :
  (forall a, In a l -> f a = Ok (g a)) ->
  mapM f l = Ok (map g l).
Proof.
  induction l as [|a l IH]; intros Hfg; simpl; [reflexivity|].
  rewrite (Hfg a (or_introl eq_refl)). simpl.
  rewrite IH by (intros; apply Hfg; right; assumption).
  reflexivity.
Qed.

Lemma mapM_length {A B} (f : A -> result B) (l : list A) (l' : list B) :
  mapM f l = Ok l' -> length l' = length l.
Proof.
  revert l'. induction l as [|a l IH]; simpl; intros l' H.
  - inversion H. reflexivity.
  - destruct (f a); simpl in H; [|discriminate].
    destruct (mapM f l) as [ys|]; simpl in H; [|discriminate].
    inversion H. simpl. f_equal. apply IH. reflexivity.
Qed.

End MonadFacts.

Section NumpyFacts.

Local Open Scope R_scope.

Lemma fold_left_Rplus (l : list R) (a : R) :
  fold_left Rplus l a = a + Rsum l.
Proof.
  revert a. induction l as [|x l IH]; intros a; simpl.
  - lra.
  - rewrite IH. lra.
Qed.

Lemma sum_Rsum (l : list R) : Np.sum l = Rsum l.
Proof. unfold Np.sum. rewrite fold_left_Rplus. lra. Qed.

Lemma Rsum_scal (k : R) (l : list R) :
  Rsum (map (fun x => k * x) l) = k * Rsum l.
Proof. induction l as [|x l IH]; simpl; [lra|]. rewrite IH. lra. Qed.

Lemma Rsum_square_scal (k : R) (l : list R) :
  Rsum (Np.square (map (fun x => k * x) l)) = k ^ 2 * Rsum (Np.square l).
Proof. induction l as [|x l IH]; simpl; [lra|]. simpl in IH. rewrite IH. lra. Qed.

Lemma Rsum_nonneg (l : list R) : Forall (fun x => 0 <= x) l -> 0 <= Rsum l.
Proof. induction 1; simpl; lra. Qed.

Lemma Rsum_pos (l : list R) :
  Forall (fun x => 0 <= x) l -> Exists (fun x => 0 < x) l -> 0 < Rsum l.
Proof.
  induction 1 as [|x l Hx Hl IH]; intros Hex; inversion Hex; subst; simpl.
  - pose proof (Rsum_nonneg l Hl). lra.
  - specialize (IH H0). lra.
Qed.

Lemma Rsum_zero (l : list R) : Forall (fun x => x = 0) l -> Rsum l = 0.
Proof. induction 1; simpl; lra. Qed.

Lemma broadcast_same {A B} (a : list A) (b : list B) :
  length a = length b -> Np.broadcast a b = Ok (combine a b).
Proof. intros H. unfold Np.broadcast. rewrite H, Nat.eqb_refl. reflexivity. Qed.

Lemma broadcast_map {A B A' B'} (f : A -> A') (g : B -> B')
    (a : list A) (b : list B) :
  Np.broadcast (map f a) (map g b)
  = fmap (map (fun xy => (f (fst xy), g (snd xy)))) (Np.broadcast a b).
Proof.
  unfold Np.broadcast. rewrite !length_map.
  destruct (Nat.eqb (length a) (length b)).
  - simpl. f_equal. revert b. induction a as [|x a IH]; intros [|y b]; simpl;
      try reflexivity. f_equal. apply IH.
  - destruct a as [|x [|x' a]]; destruct b as [|y [|y' b]]; simpl;
      try reflexivity; rewrite ?map_map; reflexivity.
Qed.

Lemma In_combine_Forall_r {A} (P : R -> Prop) (a : list A) (b : list R) xy :
  Forall P b -> In xy (combine a b) -> P (snd xy).
Proof.
  intros Hb Hin. destruct xy as [x y]. apply in_combine_r in Hin.
  rewrite List.Forall_forall in Hb. apply Hb, Hin.
Qed.

Lemma div_same (a b : list R) :
  length a = length b -> Forall (fun y => y <> 0) b ->
  Np.div a b = Ok (map (fun xy => fst xy / snd xy) (combine a b)).
Proof.
  intros Hlen Hb. unfold Np.div. rewrite broadcast_same by assumption. simpl.
  apply mapM_total. intros xy Hin. unfold Np.div1.
  destruct (Req_dec_T (snd xy) 0) as [Hz|_]; [|reflexivity].
  exfalso. exact (In_combine_Forall_r _ a b xy Hb Hin Hz).
Qed.

Lemma mul_same (a b : list R) :
  length a = length b ->
  Np.mul a b = Ok (map (fun xy => fst xy * snd xy) (combine a b)).
Proof.
  intros Hlen. unfold Np.mul. rewrite broadcast_same by assumption. simpl.
  f_equal. apply map_ext. intros [x y]. reflexivity.
Qed.

End NumpyFacts.

(* ===================================================================== *)
(** * Properties of [cpmg_profile.py]: the weighted least-squares scale   *)
(* ===================================================================== *)


Section ScaleFacts.

Import CpmgProfile ScaleSpec.
Local Open Scope R_scope.

Lemma combine_map_same {A B C} (f : A -> B) (g : A -> C) (l : list A) :
  combine (map f l) (map g l) = map (fun x => (f x, g x)) l.
Proof. induction l as [|x l IH]; simpl; [reflexivity|]. rewrite IH. reflexivity. Qed.

Lemma points_split (cal val err : list R) :
  length cal = length val -> length val = length err ->
  cal = map predicted (points cal val err)
  /\ val = map measured (points cal val err)
  /\ err = map uncertainty (points cal val err).
Proof.
  unfold points. revert val err.
  induction cal as [|p cal IH]; intros [|m val] [|e err] H1 H2;
    simpl in *; try discriminate; [repeat split|].
  injection H1 as H1. injection H2 as H2.
  destruct (IH val err H1 H2) as (Hc & Hv & He).
  repeat split; f_equal; assumption.
Qed.

(** [calculate_scale] on a profile whose uncertainties are all nonzero and
    whose arrays have the length of the predicted curve. *)
Lemma calculate_scale_points (self : CPMGProfile) (pts : list (R * R * R)) :
  val self = map measured pts ->
  err self = map uncertainty pts ->
  Forall (fun t => uncertainty t <> 0) pts ->
  calculate_scale self (map predicted pts)
  = Np.sum_div
      (map (fun t => predicted t * measured t / uncertainty t ^ 2) pts)
      (map (fun t => (predicted t / uncertainty t) ^ 2) pts).
Proof.
  intros Hval Herr Hnz. unfold calculate_scale. rewrite Hval, Herr.
  rewrite mul_same by (rewrite !length_map; reflexivity). simpl.
  rewrite div_same.
  2: { unfold Np.square. rewrite !length_map, length_combine, !length_map. lia. }
  2: { unfold Np.square. rewrite List.Forall_map, List.Forall_map.
       revert Hnz. apply List.Forall_impl. intros t Ht. apply pow_nonzero, Ht. }
  simpl. rewrite div_same.
  2: { rewrite !length_map. reflexivity. }
  2: { rewrite List.Forall_map. exact Hnz. }
  simpl. unfold Np.square.
  rewrite !combine_map_same, !map_map, combine_map_same, !map_map.
  reflexivity.
Qed.

Lemma denominator_nonneg (pts : list (R * R * R)) : 0 <= denominator pts.
Proof.
  unfold denominator. apply Rsum_nonneg. rewrite List.Forall_map.
  apply List.Forall_forall. intros t _. apply pow2_ge_0.
Qed.

Lemma denominator_pos (pts : list (R * R * R)) :
  Forall (fun t => 0 < uncertainty t) pts ->
  Exists (fun t => predicted t <> 0) pts ->
  0 < denominator pts.
Proof.
  intros Hpos Hex. unfold denominator. apply Rsum_pos.
  - rewrite List.Forall_map. apply List.Forall_forall. intros t _. apply pow2_ge_0.
  - rewrite List.Exists_map. rewrite List.Exists_exists in *.
    destruct Hex as (t & Hin & Hp). exists t. split; [assumption|].
    rewrite List.Forall_forall in Hpos. specialize (Hpos t Hin).
    assert (predicted t / uncertainty t <> 0).
    { unfold Rdiv. apply Rmult_integral_contrapositive_currified; [assumption|].
      apply Rinv_neq_0_compat. lra. }
    pose proof (pow2_ge_0 (predicted t / uncertainty t)).
    pose proof (pow_nonzero _ 2 H). lra.
Qed.

Lemma denominator_zero (pts : list (R * R * R)) :
  Forall (fun t => predicted t = 0) pts -> denominator pts = 0.
Proof.
  intros Hz. unfold denominator. apply Rsum_zero. rewrite List.Forall_map.
  revert Hz. apply List.Forall_impl. intros t Ht. rewrite Ht. unfold Rdiv. ring.
Qed.

(** The residual sum of squares is a quadratic in the scale. *)
Lemma rss_quadratic (s : R) (pts : list (R * R * R)) :
  Forall (fun t => uncertainty t <> 0) pts ->
  rss s pts
  = s ^ 2 * denominator pts - 2 * s * numerator pts
    + Rsum (map (fun t => (measured t / uncertainty t) ^ 2) pts).
Proof.
  unfold rss, denominator, numerator.
  induction 1 as [|t pts Ht _ IH]; simpl.
  - ring.
  - simpl in IH. rewrite IH. field. exact Ht.
Qed.

Lemma rss_minimum (pts : list (R * R * R)) (t : R) :
  Forall (fun t => uncertainty t <> 0) pts ->
  0 < denominator pts ->
  rss (numerator pts / denominator pts) pts <= rss t pts.
Proof.
  intros Hnz Hd. rewrite !rss_quadratic by assumption.
  set (D := denominator pts) in *. set (N := numerator pts).
  set (s := N / D).
  assert (HN : N = s * D) by (unfold s; field; lra).
  rewrite HN.
  assert (0 <= D * (t - s) ^ 2) by (apply Rmult_le_pos; [lra|apply pow2_ge_0]).
  nra.
Qed.

Lemma Forall_points_err (P : R -> Prop) (cal val err : list R) :
  Forall P err -> Forall (fun t => P (uncertainty t)) (points cal val err).
Proof.
  intros H. apply List.Forall_forall. intros [[p m] e] Hin.
  unfold points in Hin. apply in_combine_r in Hin.
  rewrite List.Forall_forall in H. apply H, Hin.
Qed.

Lemma Exists_points_cal (P : R -> Prop) (cal val err : list R) :
  length cal = length val -> length val = length err ->
  Exists P cal -> Exists (fun t => P (predicted t)) (points cal val err).
Proof.
  intros H1 H2 Hex.
  destruct (points_split cal val err H1 H2) as (Hc & _ & _).
  rewrite Hc in Hex. rewrite List.Exists_map in Hex. exact Hex.
Qed.

Lemma Forall_points_cal (P : R -> Prop) (cal val err : list R) :
  Forall P cal -> Forall (fun t => P (predicted t)) (points cal val err).
Proof.
  intros H. apply List.Forall_forall. intros [[p m] e] Hin.
  unfold points in Hin. apply in_combine_l, in_combine_l in Hin.
  rewrite List.Forall_forall in H. apply H, Hin.
Qed.

(** The scale factor of a profile with positive uncertainties and a
    predicted curve that is not identically zero. *)
Lemma calculate_scale_defined (self : CPMGProfile) (cal : list R) :
  length cal = length (val self) ->
  length (val self) = length (err self) ->
  Forall (fun e => 0 < e) (err self) ->
  Exists (fun p => p <> 0) cal ->
  let pts := points cal (val self) (err self) in
  0 < denominator pts
  /\ calculate_scale self cal = Ok (numerator pts / denominator pts).
Proof.
  intros H1 H2 Hpos Hex pts.
  assert (Hd : 0 < denominator pts).
  { apply denominator_pos.
    - apply (Forall_points_err (fun e => 0 < e)). assumption.
    - apply (Exists_points_cal (fun p => p <> 0)); assumption. }
  split; [exact Hd|].
  destruct (points_split cal (val self) (err self) H1 H2) as (Hc & Hv & He).
  fold pts in Hc, Hv, He.
  rewrite Hc at 1. rewrite (calculate_scale_points self pts Hv He).
  2: { pose proof (Forall_points_err (fun e => 0 < e) cal (val self) _ Hpos) as Hp.
       revert Hp. apply List.Forall_impl. intros; lra. }
  unfold Np.sum_div. rewrite !sum_Rsum.
  fold (numerator pts). fold (denominator pts).
  destruct (Req_dec_T (denominator pts) 0) as [Hz|_]; [lra|].
  clearbody pts.
  destruct pts as [|t pts']; [unfold denominator in Hd; simpl in Hd; lra|].
  reflexivity.
Qed.

End ScaleFacts.

Lemma In_firstn {A} (n : nat) (l : list A) (x : A) : In x (firstn n l) -> In x l.
Proof.
  revert l. induction n as [|n IH]; intros [|y l]; simpl; try tauto.
  intros [H|H]; [left; exact H|right; apply IH, H].
Qed.

Section LruFacts.

Context {K V : Type} (eqb : K -> K -> bool).
Hypothesis eqb_eq : forall a b, eqb a b = true -> a = b.

Lemma find_In (k : K) (l : list (K * V)) (v : V) :
  Lru.find eqb k l = Some v -> In (k, v) l.
Proof.
  induction l as [|[k' v'] l IH]; simpl; [discriminate|].
  destruct (eqb k k') eqn:E.
  - intros H. injection H as ->. apply eqb_eq in E. subst. left. reflexivity.
  - intros H. right. apply IH, H.
Qed.

Lemma remove_incl (k : K) (l : list (K * V)) : incl (Lru.remove eqb k l) l.
Proof.
  induction l as [|[k' v'] l IH]; simpl; [apply incl_refl|].
  destruct (eqb k k').
  - apply incl_tl, incl_refl.
  - apply incl_cons; [left; reflexivity|]. apply incl_tl, IH.
Qed.

(** On a coherent cache the memoised function returns what the function
    returns. *)
Lemma call_value (f : K -> result V) (k : K) (c : Lru.cache K V) :
  Lru.coherent f c -> fst (Lru.call eqb f k c) = f k.
Proof.
  intros Hc. unfold Lru.call.
  destruct (Lru.find eqb k (Lru.entries c)) as [v|] eqn:E.
  - simpl. symmetry. apply Hc. apply find_In, E.
  - destruct (f k); reflexivity.
Qed.

Lemma call_coherent (f : K -> result V) (k : K) (c : Lru.cache K V) :
  Lru.coherent f c -> Lru.coherent f (snd (Lru.call eqb f k c)).
Proof.
  intros Hc. unfold Lru.call.
  destruct (Lru.find eqb k (Lru.entries c)) as [v|] eqn:E.
  - simpl. intros k' v' [H|H].
    + injection H as <- <-. apply Hc, find_In, E.
    + apply Hc. apply (remove_incl k _ _ H).
  - destruct (f k) as [v|e] eqn:F; [|exact Hc].
    intros k' v' H. unfold Lru.store in H. cbn [snd Lru.entries] in H.
    apply In_firstn in H. destruct H as [H|H].
    + injection H as <- <-. exact F.
    + apply Hc, H.
Qed.

Lemma coherent_empty (f : K -> result V) (n : nat) : Lru.coherent f (Lru.empty n).
Proof. intros k v []. Qed.

(** The memoised call evaluates the function at the key only. *)
Lemma call_ext (f g : K -> result V) (k : K) (c : Lru.cache K V) :
  f k = g k -> Lru.call eqb f k c = Lru.call eqb g k c.
Proof. intros H. unfold Lru.call. rewrite H. reflexivity. Qed.

End LruFacts.

Section KwargsFacts.

Import CpmgProfile.

Lemma float_eqb_eq (x y : R) : float_eqb x y = true -> x = y.
Proof. unfold float_eqb. destruct (Req_dec_T x y); [auto|discriminate]. Qed.

Lemma float_eqb_refl (x : R) : float_eqb x x = true.
Proof. unfold float_eqb. destruct (Req_dec_T x x); [reflexivity|contradiction]. Qed.

Lemma float_eqb_neq (x y : R) : x <> y -> float_eqb x y = false.
Proof. unfold float_eqb. destruct (Req_dec_T x y); [contradiction|reflexivity]. Qed.

Lemma kwargs_eqb_eq (a b : kwargs) : kwargs_eqb a b = true -> a = b.
Proof.
  revert b. induction a as [|[n x] a IH]; intros [|[m y] b]; simpl;
    try discriminate; [reflexivity|].
  intros H. apply andb_prop in H as [H Hab]. apply andb_prop in H as [Hn Hx].
  apply String.eqb_eq in Hn. apply float_eqb_eq in Hx. subst.
  f_equal. apply IH, Hab.
Qed.

End KwargsFacts.

Section ZeroCurve.

Import CpmgProfile ScaleSpec.
Local Open Scope R_scope.

Lemma broadcast_cases {A B} (a : list A) (b : list B) (ps : list (A * B)) :
  Np.broadcast a b = Ok ps ->
  ps = combine a b
  \/ (exists x, a = [x] /\ ps = map (fun y => (x, y)) b)
  \/ (exists y, b = [y] /\ ps = map (fun x => (x, y)) a).
Proof.
  unfold Np.broadcast. intros H.
  destruct (Nat.eqb (length a) (length b)).
  - injection H as <-. left. reflexivity.
  - destruct a as [|x0 [|x1 a]]; destruct b as [|y0 [|y1 b]];
      try discriminate; injection H as <-; right;
      first [ left; eexists; split; reflexivity
            | right; eexists; split; reflexivity ].
Qed.

Lemma broadcast_fst {A B} (a : list A) (b : list B) (ps : list (A * B)) :
  Np.broadcast a b = Ok ps -> Forall (fun xy => In (fst xy) a) ps.
Proof.
  intros H. apply List.Forall_forall. intros [x y] Hin.
  destruct (broadcast_cases a b ps H) as [->|[(x0 & -> & ->)|(y0 & -> & ->)]].
  - apply in_combine_l in Hin. exact Hin.
  - apply in_map_iff in Hin. destruct Hin as (z & Hz & _).
    injection Hz as <- <-. left. reflexivity.
  - apply in_map_iff in Hin. destruct Hin as (z & Hz & Hin).
    injection Hz as <- <-. exact Hin.
Qed.

Lemma mapM_div1_zero (ps : list (R * R)) (q : list R) :
  mapM Np.div1 ps = Ok q ->
  Forall (fun xy => fst xy = 0) ps -> Forall (fun x => x = 0) q.
Proof.
  revert q. induction ps as [|[x y] ps IH]; simpl; intros q H Hz.
  - injection H as <-. constructor.
  - inversion Hz as [|? ? Hx Hps]; subst. simpl in Hx. subst x.
    unfold Np.div1 in H at 1. simpl in H.
    destruct (Req_dec_T y 0); simpl in H; [discriminate|].
    destruct (mapM Np.div1 ps) as [q'|]; simpl in H; [|discriminate].
    injection H as <-. constructor; [unfold Rdiv; ring|]. apply IH; auto.
Qed.

(** A predicted curve that is identically zero never gives a scale. *)
Lemma calculate_scale_zero_curve (self : CPMGProfile) (cal : list R) :
  Forall (fun p => p = 0) cal -> is_ok (calculate_scale self cal) = false.
Proof.
  intros Hz. unfold calculate_scale.
  destruct (Np.mul cal (val self)) as [cv|]; simpl; [|reflexivity].
  destruct (Np.div cv (Np.square (err self))) as [num|]; simpl; [|reflexivity].
  destruct (Np.div cal (err self)) as [q|] eqn:Hq; simpl; [|reflexivity].
  unfold Np.div in Hq.
  destruct (Np.broadcast cal (err self)) as [ps|] eqn:Hps; simpl in Hq;
    [|discriminate].
  assert (Hq0 : Forall (fun x => x = 0) q).
  { apply (mapM_div1_zero ps q Hq). apply broadcast_fst in Hps.
    revert Hps. apply List.Forall_impl. intros xy Hin.
    rewrite List.Forall_forall in Hz. apply Hz, Hin. }
  assert (Hs : Np.sum (Np.square q) = 0).
  { rewrite sum_Rsum. apply Rsum_zero. unfold Np.square. rewrite List.Forall_map.
    revert Hq0. apply List.Forall_impl. intros x ->. ring. }
  unfold Np.sum_div. rewrite Hs.
  destruct (Req_dec_T 0 0) as [_|Hne]; [|contradiction].
  destruct num; [destruct (Np.square q)|]; reflexivity.
Qed.

End ZeroCurve.

Section Rescaling.

Import CpmgProfile ScaleSpec.
Local Open Scope R_scope.

Lemma mul_scal_r (k : R) (a b : list R) :
  Np.mul a (map (Rmult k) b) = fmap (map (Rmult k)) (Np.mul a b).
Proof.
  transitivity (Np.mul (map (fun x => x) a) (map (Rmult k) b));
    [rewrite map_id; reflexivity|].
  unfold Np.mul. rewrite broadcast_map.
  destruct (Np.broadcast a b) as [ps|]; simpl; [|reflexivity].
  f_equal. rewrite !map_map. apply map_ext. intros [x y]. simpl. ring.
Qed.

Lemma div_map (f g : R -> R) (k : R) (a b : list R) :
  (forall y, g y = 0 <-> y = 0) ->
  (forall x y, y <> 0 -> f x / g y = k * (x / y)) ->
  Np.div (map f a) (map g b) = fmap (map (Rmult k)) (Np.div a b).
Proof.
  intros Hg Hf. unfold Np.div. rewrite broadcast_map.
  destruct (Np.broadcast a b) as [ps|]; simpl; [|reflexivity].
  rewrite mapM_map. apply mapM_fmap. intros [x y] _. unfold Np.div1. simpl.
  destruct (Req_dec_T (g y) 0) as [Hz|Hz]; destruct (Req_dec_T y 0) as [Hy|Hy].
  - reflexivity.
  - apply (proj1 (Hg y)) in Hz. contradiction.
  - apply (proj2 (Hg y)) in Hy. contradiction.
  - simpl. f_equal. apply Hf, Hy.
Qed.

Lemma square_scal (k : R) (a : list R) :
  Np.square (map (Rmult k) a) = map (Rmult (k ^ 2)) (Np.square a).
Proof. unfold Np.square. rewrite !map_map. apply map_ext. intros x. ring. Qed.

Lemma sum_div_scal (c : R) (a b : list R) :
  c <> 0 ->
  Np.sum_div (map (Rmult (/ c)) a) (Np.square (map (Rmult (/ c)) b))
  = fmap (Rmult c) (Np.sum_div a (Np.square b)).
Proof.
  intros Hc. rewrite square_scal.
  assert (Hs : Np.sum (map (Rmult ((/ c) ^ 2)) (Np.square b))
               = (/ c) ^ 2 * Np.sum (Np.square b)).
  { rewrite !sum_Rsum. apply Rsum_scal. }
  assert (Ha : Np.sum (map (Rmult (/ c)) a) = / c * Np.sum a).
  { rewrite !sum_Rsum. apply Rsum_scal. }
  assert (Hk : / c <> 0) by (apply Rinv_neq_0_compat; exact Hc).
  assert (Hk2 : (/ c) ^ 2 <> 0) by (apply pow_nonzero; exact Hk).
  assert (Hcase : forall a' b' : list R,
             a' = map (Rmult (/ c)) a -> b' = map (Rmult ((/ c) ^ 2)) (Np.square b) ->
             (if Req_dec_T (Np.sum b') 0 then Raise FloatNotFinite
              else Ok (Np.sum a' / Np.sum b'))
             = fmap (Rmult c)
                 (if Req_dec_T (Np.sum (Np.square b)) 0 then Raise FloatNotFinite
                  else Ok (Np.sum a / Np.sum (Np.square b)))).
  { intros a' b' -> ->. rewrite Hs, Ha.
    destruct (Req_dec_T ((/ c) ^ 2 * Np.sum (Np.square b)) 0) as [Hz|Hz];
      destruct (Req_dec_T (Np.sum (Np.square b)) 0) as [Hy|Hy].
    - reflexivity.
    - apply Rmult_integral in Hz. tauto.
    - rewrite Hy in Hz. exfalso. apply Hz. ring.
    - simpl. f_equal. field. auto. }
  unfold Np.sum_div.
  destruct a as [|x a]; [destruct b as [|y b]; [reflexivity|]|];
    apply Hcase; reflexivity.
Qed.

(** Rescaling the measurements by [c] rescales the fitted scale by [c]. *)
Lemma calculate_scale_rescale (c : R) (self : CPMGProfile) (cal : list R) :
  0 < c ->
  calculate_scale (rescale c self) cal = fmap (Rmult c) (calculate_scale self cal).
Proof.
  intros Hc. unfold calculate_scale, rescale. cbn [val err].
  rewrite mul_scal_r.
  destruct (Np.mul cal (val self)) as [cv|]; simpl; [|reflexivity].
  rewrite square_scal.
  rewrite (div_map (Rmult c) (Rmult (c ^ 2)) (/ c)).
  2: { intros y. split; intros H; [|subst; ring].
       apply Rmult_integral in H. destruct H as [H|H]; [|exact H].
       exfalso. apply (pow_nonzero c 2) in H; [exact H|lra]. }
  2: { intros x y Hy. field. split; [exact Hy|lra]. }
  destruct (Np.div cv (Np.square (err self))) as [num|]; simpl; [|reflexivity].
  assert (Hq : Np.div cal (map (Rmult c) (err self))
               = fmap (map (Rmult (/ c))) (Np.div cal (err self))).
  { transitivity (Np.div (map (fun x => x) cal) (map (Rmult c) (err self)));
      [rewrite map_id; reflexivity|].
    apply div_map.
    - intros y. split; intros H; [|subst; ring].
      apply Rmult_integral in H. destruct H as [H|H]; [lra|exact H].
    - intros x y Hy. field. split; [exact Hy|lra]. }
  rewrite Hq.
  destruct (Np.div cal (err self)) as [q|]; simpl; [|reflexivity].
  apply sum_div_scal. lra.
Qed.

Lemma make_kwargs_rescale (c : R) (self : CPMGProfile) (params : Lmfit.Params) :
  make_kwargs (rescale c self) params = make_kwargs self params.
Proof. reflexivity. Qed.

Lemma set_cache_rescale (c : R) (self : CPMGProfile) cache :
  set_cache (rescale c self) cache = rescale c (set_cache self cache).
Proof. reflexivity. Qed.

Lemma scale_rescale (c s : R) (values : list R) :
  Np.scale values (c * s) = map (Rmult c) (Np.scale values s).
Proof. unfold Np.scale. rewrite map_map. apply map_ext. intros x. ring. Qed.

End Rescaling.

(* ===================================================================== *)
(** * Claims on [cpmg_profile.py]: scale factor                           *)
(* ===================================================================== *)

Section ScaleClaims.

Import CpmgProfile ScaleSpec.
Local Open Scope R_scope.




End ScaleClaims.

Section ScaleClaimsAtExamples.

Import CpmgProfile ScaleSpec.
Local Open Scope R_scope.





End ScaleClaimsAtExamples.

(* ===================================================================== *)
(** * Properties of [cpmg_profile.py]: bootstrap resampling               *)
(* ===================================================================== *)

Section IndexingFacts.

Lemma take_ok {A} (d : A) (l : list A) (idx : list nat) :
  Forall (fun i => (i < length l)%nat) idx ->
  Np.take l idx = Ok (map (fun i => nth i l d) idx).
Proof.
  intros H. unfold Np.take. apply mapM_total. intros i Hi.
  rewrite List.Forall_forall in H. specialize (H i Hi).
  destruct (nth_error l i) as [x|] eqn:E.
  - rewrite (nth_error_nth _ _ d E). reflexivity.
  - apply nth_error_None in E. lia.
Qed.

Lemma compress_same {A} (a : list A) (mask : list bool) :
  length a = length mask ->
  Np.compress a mask = Ok (map fst (List.filter snd (combine a mask))).
Proof. intros H. unfold Np.compress. rewrite H, Nat.eqb_refl. reflexivity. Qed.

Lemma compress_In {A} (a : list A) (mask : list bool) (x : A) :
  In x (map fst (List.filter snd (combine a mask))) ->
  exists i, nth_error a i = Some x /\ nth_error mask i = Some true.
Proof.
  revert mask. induction a as [|y a IH]; intros [|b mask]; simpl;
    try contradiction.
  destruct b; simpl.
  - intros [H|H].
    + subst. exists 0%nat. split; reflexivity.
    + destruct (IH mask H) as (i & Ha & Hm). exists (S i). split; assumption.
  - intros H. destruct (IH mask H) as (i & Ha & Hm). exists (S i).
    split; assumption.
Qed.

Lemma compress_length {A} (a : list A) (mask : list bool) :
  length a = length mask ->
  length (map fst (List.filter snd (combine a mask)))
  = length (List.filter (fun b => b) mask).
Proof.
  revert mask. induction a as [|y a IH]; intros [|b mask]; simpl;
    try discriminate; [reflexivity|].
  intros H. injection H as H. destruct b; simpl; rewrite IH by exact H;
    reflexivity.
Qed.

Lemma filter_map_length {A} (f : A -> bool) (l : list A) :
  length (List.filter (fun b => b) (map f l)) = length (List.filter f l).
Proof.
  induction l as [|x l IH]; simpl; [reflexivity|].
  destruct (f x); simpl; rewrite IH; reflexivity.
Qed.

Lemma filter_length_Permutation {A} (f : A -> bool) (l l' : list A) :
  Permutation l l' -> length (List.filter f l) = length (List.filter f l').
Proof.
  induction 1 as [|x l l' _ IH|x y l|l l' l'' _ IH1 _ IH2]; simpl.
  - reflexivity.
  - destruct (f x); simpl; rewrite IH; reflexivity.
  - destruct (f x), (f y); reflexivity.
  - rewrite IH1. exact IH2.
Qed.

Lemma filter_length_all {A} (f : A -> bool) (l : list A) :
  Forall (fun x => f x = true) l -> length (List.filter f l) = length l.
Proof. induction 1 as [|x l Hx _ IH]; simpl; [reflexivity|]. rewrite Hx. simpl. lia. Qed.

Lemma filter_length_none {A} (f : A -> bool) (l : list A) :
  Forall (fun x => f x = false) l -> length (List.filter f l) = 0%nat.
Proof. induction 1 as [|x l Hx _ IH]; simpl; [reflexivity|]. rewrite Hx. exact IH. Qed.

Lemma seq_nth_error (n i x : nat) :
  nth_error (seq 0 n) i = Some x -> x = i /\ (i < n)%nat.
Proof.
  intros H. assert (Hi : (i < n)%nat).
  { assert (Hn : nth_error (seq 0 n) i <> None) by congruence.
    apply nth_error_Some in Hn. rewrite length_seq in Hn. exact Hn. }
  split; [|exact Hi].
  rewrite (nth_error_nth' _ 0%nat) in H by (rewrite length_seq; exact Hi).
  rewrite seq_nth in H by exact Hi. injection H as <-. reflexivity.
Qed.

End IndexingFacts.

Section SortedFacts.

Import CpmgProfile.

Lemma insert_sorted_Permutation (x : nat) (l : list nat) :
  Permutation (insert_sorted x l) (x :: l).
Proof.
  induction l as [|y l IH]; simpl; [apply Permutation_refl|].
  destruct (Nat.leb x y); [apply Permutation_refl|].
  apply perm_trans with (y :: x :: l); [apply perm_skip, IH|apply perm_swap].
Qed.

Lemma sorted_Permutation (l : list nat) : Permutation (sorted l) l.
Proof.
  induction l as [|x l IH]; simpl; [apply perm_nil|].
  apply perm_trans with (x :: sorted l);
    [apply insert_sorted_Permutation|apply perm_skip, IH].
Qed.

Lemma insert_sorted_StronglySorted (x : nat) (l : list nat) :
  StronglySorted le l -> StronglySorted le (insert_sorted x l).
Proof.
  induction 1 as [|y l Hl IH Hy]; simpl.
  - repeat constructor.
  - destruct (Nat.leb x y) eqn:E.
    + apply Nat.leb_le in E. constructor; [constructor; assumption|].
      constructor; [exact E|].
      revert Hy. apply List.Forall_impl. intros z Hz. lia.
    + apply Nat.leb_gt in E. constructor; [exact IH|].
      apply (Permutation_Forall (Permutation_sym (insert_sorted_Permutation x l))).
      constructor; [lia|exact Hy].
Qed.

Lemma sorted_StronglySorted (l : list nat) : StronglySorted le (sorted l).
Proof.
  induction l as [|x l IH]; simpl; [constructor|].
  apply insert_sorted_StronglySorted, IH.
Qed.

Lemma StronglySorted_nth (d : Z) (l : list Z) (i j : nat) :
  StronglySorted Z.le l -> (i <= j)%nat -> (j < length l)%nat ->
  (nth i l d <= nth j l d)%Z.
Proof.
  intros Hs. revert i j. induction Hs as [|x l Hl IH Hx]; intros i j Hij Hj;
    simpl in Hj; [lia|].
  destruct i as [|i]; destruct j as [|j]; simpl; try lia.
  - rewrite List.Forall_forall in Hx. apply Hx, nth_In. lia.
  - apply IH; lia.
Qed.

Lemma StronglySorted_take (d : Z) (l : list Z) (idx : list nat) :
  StronglySorted Z.le l -> StronglySorted le idx ->
  Forall (fun i => (i < length l)%nat) idx ->
  StronglySorted Z.le (map (fun i => nth i l d) idx).
Proof.
  intros Hl Hidx. induction Hidx as [|i idx Hs IH Hi]; intros Hlt; simpl.
  - constructor.
  - inversion Hlt as [|? ? Hil Hrest]; subst.
    constructor; [apply IH, Hrest|].
    rewrite List.Forall_map.
    rewrite List.Forall_forall in Hi, Hrest |- *.
    intros j Hj. apply StronglySorted_nth; auto.
Qed.

End SortedFacts.

Section ResampleFacts.

Import CpmgProfile ResampleSpec.

Lemma choice_spec (a : list nat) (size : nat) (st : RandomState) :
  a <> [] ->
  exists l,
    choice a size st = (Ok l, {| raw := raw st; pos := (pos st + size)%nat |})
    /\ length l = size
    /\ Forall (fun x => In x a) l.
Proof.
  destruct a as [|x a]; [congruence|]. intros _.
  eexists. split; [reflexivity|]. split.
  - rewrite length_map, length_seq. reflexivity.
  - apply List.Forall_forall. intros y Hy.
    apply in_map_iff in Hy. destruct Hy as (k & <- & _).
    apply nth_In. apply Nat.mod_upper_bound. discriminate.
Qed.

Lemma filter_length_map {A B} (f : B -> bool) (g : A -> B) (l : list A) :
  length (List.filter f (map g l)) = length (List.filter (fun x => f (g x)) l).
Proof.
  induction l as [|x l IH]; simpl; [reflexivity|].
  destruct (f (g x)); simpl; rewrite IH; reflexivity.
Qed.

Variable self : CPMGProfile.
Hypothesis Hwf : well_formed self.

Let n := length (ncycs self).
Let pool1 := map fst (List.filter snd (combine (seq 0 (length (val self))) (reference self))).
Let pool2 :=
  map fst (List.filter snd (combine (seq 0 (length (val self)))
                                    (map negb (reference self)))).

Lemma mask_lookup (b : bool) (i : nat) :
  nth_error (reference self) i = Some b ->
  (i < n)%nat /\ is_reference (nth i (ncycs self) 0%Z) = b.
Proof.
  destruct Hwf as (_ & _ & _ & Hr). rewrite Hr, nth_error_map.
  destruct (nth_error (ncycs self) i) as [z|] eqn:E; simpl; [|discriminate].
  intros H. injection H as <-. split.
  - apply nth_error_Some. congruence.
  - rewrite (nth_error_nth _ _ 0%Z E). reflexivity.
Qed.

Lemma pool1_spec (x : nat) :
  In x pool1 -> (x < n)%nat /\ is_reference (nth x (ncycs self) 0%Z) = true.
Proof.
  intros H. apply compress_In in H. destruct H as (i & Hs & Hm).
  apply seq_nth_error in Hs. destruct Hs as [-> _]. apply mask_lookup, Hm.
Qed.

Lemma pool2_spec (x : nat) :
  In x pool2 -> (x < n)%nat /\ is_reference (nth x (ncycs self) 0%Z) = false.
Proof.
  intros H. apply compress_In in H. destruct H as (i & Hs & Hm).
  apply seq_nth_error in Hs. destruct Hs as [-> _].
  rewrite nth_error_map in Hm.
  destruct (nth_error (reference self) i) as [b|] eqn:E; simpl in Hm;
    [|discriminate].
  injection Hm as Hb. apply mask_lookup. rewrite E. f_equal.
  destruct b; [discriminate|reflexivity].
Qed.

Lemma mask_length : length (seq 0 (length (val self))) = length (reference self).
Proof.
  destruct Hwf as (Hv & _ & _ & Hr). rewrite length_seq, Hr, length_map. exact Hv.
Qed.

Lemma pool1_length : length pool1 = n_reference self.
Proof.
  unfold pool1. rewrite compress_length by exact mask_length.
  destruct Hwf as (_ & _ & _ & ->). apply filter_map_length.
Qed.

Lemma pool2_length : length pool2 = n_non_reference self.
Proof.
  unfold pool2. rewrite compress_length
    by (rewrite length_map; exact mask_length).
  destruct Hwf as (_ & _ & _ & ->). rewrite map_map. apply filter_map_length.
Qed.

Lemma pool2_nonempty : (0 < n_non_reference self)%nat -> pool2 <> [].
Proof.
  intros Hnon H. pose proof pool2_length as L. rewrite H in L. simpl in L. lia.
Qed.

(** The guarded draw from the pool of reference points. *)
Lemma pool1_draw (st : RandomState) :
  exists bs1 st1,
    match pool1 with
    | [] => (Ok [], st)
    | _ :: _ => choice pool1 (length pool1) st
    end = (Ok bs1, st1)
    /\ length bs1 = length pool1 /\ Forall (fun x => In x pool1) bs1.
Proof.
  destruct pool1 as [|x p1] eqn:E.
  - exists [], st. repeat split. constructor.
  - destruct (choice_spec (x :: p1) (length (x :: p1)) st) as (l & Hc & Hl & Hin);
      [discriminate|].
    exists l. eexists. split; [exact Hc|]. split; assumption.
Qed.

End ResampleFacts.

Section ResampleClaims.

Import CpmgProfile ResampleSpec.

Lemma take_triples (self : CPMGProfile) (idx : list nat) :
  well_formed self ->
  Forall (fun i => (i < length (ncycs self))%nat) idx ->
  Np.take (triples self) idx
  = Ok (combine (combine (map (fun i => nth i (ncycs self) 0%Z) idx)
                         (map (fun i => nth i (val self) 0%R) idx))
                (map (fun i => nth i (err self) 0%R) idx)).
Proof.
  intros (Hv & He & _ & _) Hidx. unfold triples.
  rewrite (take_ok (0%Z, 0%R, 0%R)).
  2: { rewrite !length_combine, Hv, He, !Nat.min_id. exact Hidx. }
  f_equal. rewrite !combine_map_same. apply map_ext. intros i.
  rewrite combine_nth by (rewrite length_combine, Hv, He, Nat.min_id; reflexivity).
  rewrite combine_nth by (symmetry; exact Hv).
  reflexivity.
Qed.

(** C4 (as amended).  For a well-formed profile with at least one
    non-reference point, [make_bs_profile] returns a profile with the same
    number of reference points (cycle count 0) and of non-reference points;
    its (ncyc, val, err) triples are the input triples at a list of
    indexes, which is non-decreasing, so that the points keep the order of
    the input; the output cycle counts are non-decreasing whenever the
    input cycle counts are. *)
Theorem make_bs_profile_resamples (self : CPMGProfile) (st : RandomState) :
  well_formed self ->
  (0 < n_non_reference self)%nat ->
  exists profile bs_indexes,
    fst (make_bs_profile self st) = Ok profile
    /\ n_reference profile = n_reference self
    /\ n_non_reference profile = n_non_reference self
    /\ Np.take (triples self) bs_indexes = Ok (triples profile)
    /\ StronglySorted le bs_indexes
    /\ (non_decreasing (ncycs self) -> non_decreasing (ncycs profile)).
Proof.
  intros Hwf Hnon.
  pose proof (mask_length self Hwf) as Hmask.
  unfold make_bs_profile.
  rewrite (compress_same _ _ Hmask).
  rewrite (compress_same _ (map negb (reference self)))
    by (rewrite length_map; exact Hmask).
  destruct (pool1_draw self st) as (bs1 & st1 & Hc1 & Hl1 & Hin1).
  rewrite Hc1.
  destruct (choice_spec _ (length
             (map fst (List.filter snd
                (combine (seq 0 (length (val self)))
                         (map negb (reference self)))))) st1
             (pool2_nonempty self Hwf Hnon)) as (bs2 & Hc2 & Hl2 & Hin2).
  rewrite Hc2. cbn [fst Py.bind].
  set (idx := sorted (bs1 ++ bs2)).
  assert (Hperm : Permutation idx (bs1 ++ bs2)) by apply sorted_Permutation.
  assert (Hlt : Forall (fun i => (i < length (ncycs self))%nat) idx).
  { apply (Permutation_Forall (Permutation_sym Hperm)).
    apply List.Forall_app. split.
    - revert Hin1. apply List.Forall_impl. intros x Hx.
      apply (pool1_spec self Hwf x Hx).
    - revert Hin2. apply List.Forall_impl. intros x Hx.
      apply (pool2_spec self Hwf x Hx). }
  destruct Hwf as (Hv & He & Ht & Hr).
  rewrite (take_ok 0%Z) by exact Hlt. cbn [Py.bind].
  rewrite (take_ok 0%R) by (rewrite Ht; exact Hlt). cbn [Py.bind].
  rewrite (take_ok 0%R) by (rewrite Hv; exact Hlt). cbn [Py.bind].
  rewrite (take_ok 0%R) by (rewrite He; exact Hlt). cbn [Py.bind].
  eexists. exists idx. split; [reflexivity|].
  assert (Hcount : forall f : Z -> bool,
             length (List.filter f (map (fun i => nth i (ncycs self) 0%Z) idx))
             = (length (List.filter (fun i => f (nth i (ncycs self) 0%Z)) bs1)
                + length (List.filter (fun i => f (nth i (ncycs self) 0%Z)) bs2))%nat).
  { intros f. rewrite filter_length_map.
    rewrite (filter_length_Permutation _ _ _ Hperm).
    rewrite List.filter_app, length_app. reflexivity. }
  assert (Hwf' : well_formed self) by (repeat split; assumption).
  assert (H1 : Forall (fun i => is_reference (nth i (ncycs self) 0%Z) = true) bs1).
  { revert Hin1. apply List.Forall_impl. intros x Hx.
    apply (pool1_spec self Hwf' x Hx). }
  assert (H2 : Forall (fun i => is_reference (nth i (ncycs self) 0%Z) = false) bs2).
  { revert Hin2. apply List.Forall_impl. intros x Hx.
    apply (pool2_spec self Hwf' x Hx). }
  split; [|split; [|split; [|split]]].
  - unfold n_reference at 1. cbn [ncycs]. rewrite Hcount.
    rewrite (filter_length_all _ _ H1), (filter_length_none _ _ H2).
    rewrite Hl1, (pool1_length self Hwf'). lia.
  - unfold n_non_reference at 1. cbn [ncycs]. rewrite Hcount.
    rewrite filter_length_none, filter_length_all.
    + rewrite Hl2, (pool2_length self Hwf'). lia.
    + revert H2. apply List.Forall_impl. intros x ->. reflexivity.
    + revert H1. apply List.Forall_impl. intros x ->. reflexivity.
  - rewrite (take_triples self idx Hwf' Hlt). reflexivity.
  - apply sorted_StronglySorted.
  - intros Hs. cbn [ncycs]. unfold non_decreasing in *.
    apply StronglySorted_take; [exact Hs|apply sorted_StronglySorted|exact Hlt].
Qed.

End ResampleClaims.

Section ResampleClaimsAtExamples.

Import CpmgProfile ResampleSpec.

Lemma make_bs_profile_resamples_witness :
  exists profile bs_indexes,
    fst (make_bs_profile Examples.profile_G23N Examples.counting) = Ok profile
    /\ n_reference profile = n_reference Examples.profile_G23N
    /\ n_non_reference profile = n_non_reference Examples.profile_G23N
    /\ Np.take (triples Examples.profile_G23N) bs_indexes = Ok (triples profile)
    /\ StronglySorted le bs_indexes
    /\ (non_decreasing (ncycs Examples.profile_G23N) ->
        non_decreasing (ncycs profile)).
Proof.
  apply (make_bs_profile_resamples Examples.profile_G23N Examples.counting).
  - repeat split; reflexivity.
  - unfold n_non_reference. simpl. lia.
Defined.

(** C4 as stated fails on a profile whose points are not stored in the
    order of their cycle counts: the resampled profile keeps the order of
    the input points, here cycle counts 0, 4, 2. *)
Lemma make_bs_profile_order_counterexample :
  well_formed Examples.profile_unordered
  /\ fmap ncycs (fst (make_bs_profile Examples.profile_unordered Examples.counting))
     = Ok [0; 4; 2]%Z
  /\ ~ non_decreasing [0; 4; 2]%Z.
Proof.
  split; [repeat split; reflexivity|]. split; [reflexivity|].
  unfold non_decreasing. intros H.
  apply StronglySorted_inv in H. destruct H as [H _].
  apply StronglySorted_inv in H. destruct H as [_ H].
  inversion H; subst. lia.
Qed.

End ResampleClaimsAtExamples.

(* ===================================================================== *)
(** * Properties of [back_calculation.py]                                 *)
(* ===================================================================== *)

Section CacheKeys.

Import BackCalculation.

Lemma propagator_args_eqb_eq (a b : propagator_args) :
  propagator_args_eqb a b = true -> a = b.
Proof.
  unfold propagator_args_eqb. destruct a, b. cbn.
  intros H. repeat (apply andb_prop in H; destruct H as [H ?]).
  repeat match goal with
         | E : float_eqb _ _ = true |- _ => apply float_eqb_eq in E
         end.
  subst. reflexivity.
Qed.

Lemma propagator_args_eqb_refl (a : propagator_args) :
  propagator_args_eqb a a = true.
Proof. unfold propagator_args_eqb. rewrite !float_eqb_refl. reflexivity. Qed.

Lemma propagator_args_eqb_neq (a b : propagator_args) :
  a <> b -> propagator_args_eqb a b = false.
Proof.
  intros H. destruct (propagator_args_eqb a b) eqn:E; [|reflexivity].
  apply propagator_args_eqb_eq in E. contradiction.
Qed.

Lemma observable_args_eqb_eq (a b : observable_args) :
  observable_args_eqb a b = true -> a = b.
Proof.
  unfold observable_args_eqb. destruct a, b. cbn.
  intros H. repeat (apply andb_prop in H; destruct H as [H ?]).
  repeat match goal with
         | E : float_eqb _ _ = true |- _ => apply float_eqb_eq in E
         | E : Z.eqb _ _ = true |- _ => apply Z.eqb_eq in E
         end.
  subst. reflexivity.
Qed.

Lemma observable_args_eqb_neq (a b : observable_args) :
  a <> b -> observable_args_eqb a b = false.
Proof.
  intros H. destruct (observable_args_eqb a b) eqn:E; [|reflexivity].
  apply observable_args_eqb_eq in E. contradiction.
Qed.

End CacheKeys.

Section LruEntries.

Context {K V : Type} (eqb : K -> K -> bool).
Hypothesis eqb_eq : forall a b, eqb a b = true -> a = b.

Lemma touch_coherent (f : K -> result V) (k : K) (v : V) (c : Lru.cache K V) :
  Lru.coherent f c -> f k = Ok v -> Lru.coherent f (Lru.touch eqb k v c).
Proof.
  intros Hc Hk k' v' [H|H].
  - injection H as <- <-. exact Hk.
  - apply Hc. apply (remove_incl eqb k _ _ H).
Qed.

Lemma store_coherent (f : K -> result V) (k : K) (v : V) (c : Lru.cache K V) :
  Lru.coherent f c -> f k = Ok v -> Lru.coherent f (Lru.store k v c).
Proof.
  intros Hc Hk k' v' H. unfold Lru.store in H. cbn [Lru.entries] in H.
  apply In_firstn in H. destruct H as [H|H].
  - injection H as <- <-. exact Hk.
  - apply Hc, H.
Qed.

Lemma remove_length (k : K) (l : list (K * V)) (v : V) :
  Lru.find eqb k l = Some v -> S (length (Lru.remove eqb k l)) = length l.
Proof.
  induction l as [|[k' v'] l IH]; simpl; [discriminate|].
  destruct (eqb k k'); [reflexivity|].
  intros H. simpl. f_equal. apply IH, H.
Qed.

Lemma find_firstn_None (k : K) (n : nat) (l : list (K * V)) :
  Lru.find eqb k l = None -> Lru.find eqb k (firstn n l) = None.
Proof.
  revert n. induction l as [|[k' v'] l IH]; intros [|n]; simpl; try reflexivity.
  destruct (eqb k k'); [discriminate|]. apply IH.
Qed.

End LruEntries.

Section BackCalculationFacts.

Import BackCalculation BackCalcSpec.
Local Open Scope R_scope.

Context {L : LinAlg} {LV : Liouvillian L}.
Variable g : geometry.

Lemma make_propagators_body_ok (k : propagator_args) :
  pw g <> 0 -> exists v, make_propagators_body g k = Ok v.
Proof.
  intros Hpw. unfold make_propagators_body, truediv.
  destruct (Req_dec_T (4 * pw g) 0) as [Hz|_]; [exfalso; lra|].
  cbn [Py.bind].
  destruct (compute_liouvillians _ _ _ _ _ _ _ _) as [[l_free l_w1x] l_w1y].
  eexists. reflexivity.
Qed.

Lemma make_propagators_body_raise (k : propagator_args) :
  pw g = 0 -> make_propagators_body g k = Raise ZeroDivisionError.
Proof.
  intros Hpw. unfold make_propagators_body, truediv.
  destruct (Req_dec_T (4 * pw g) 0) as [_|Hz]; [reflexivity|exfalso; lra].
Qed.

(** [make_propagators] changes the cache of [_calc_observable] never. *)
Lemma make_propagators_outer (k : propagator_args) (s : closure) :
  observable_cache (snd (make_propagators g k s)) = observable_cache s.
Proof.
  unfold make_propagators, lru_cache, Lru.call_st.
  destruct (Lru.find _ k _); [reflexivity|].
  destruct (make_propagators_body g k); reflexivity.
Qed.

Lemma make_propagators_spec (k : propagator_args) (s : closure) :
  consistent g s ->
  fst (make_propagators g k s) = make_propagators_body g k
  /\ consistent g (snd (make_propagators g k s)).
Proof.
  intros (Hin & Hout & Hmax & Hlen).
  unfold make_propagators, lru_cache, Lru.call_st.
  destruct (Lru.find propagator_args_eqb k (Lru.entries (propagators_cache s)))
    as [v|] eqn:E.
  - assert (Hv : make_propagators_body g k = Ok v).
    { apply Hin. apply (find_In _ propagator_args_eqb_eq), E. }
    split; [symmetry; exact Hv|]. cbn [snd]. repeat split.
    + apply touch_coherent; assumption.
    + exact Hout.
    + exact Hmax.
    + cbn. rewrite (remove_length _ k _ v E). exact Hlen.
  - destruct (make_propagators_body g k) as [v|e] eqn:B.
    + split; [reflexivity|]. cbn [snd]. repeat split.
      * apply store_coherent; assumption.
      * exact Hout.
      * exact Hmax.
      * cbn [set_propagators_cache propagators_cache Lru.store Lru.entries].
        rewrite length_firstn, Hmax. apply Nat.le_min_l.
    + split; [reflexivity|]. cbn [snd]. repeat split; assumption.
Qed.

(** What the cache of [make_propagators] holds after a call. *)
Lemma make_propagators_entries (k : propagator_args) (s : closure) :
  consistent g s ->
  let c := propagators_cache s in
  let c1 := propagators_cache (snd (make_propagators g k s)) in
  match make_propagators_body g k with
  | Ok v =>
      Lru.entries c1 = [(k, v)]
      /\ Lru.misses c1
         = match Lru.find propagator_args_eqb k (Lru.entries c) with
           | Some _ => Lru.misses c
           | None => S (Lru.misses c)
           end
  | Raise _ =>
      snd (make_propagators g k s) = s
      /\ Lru.find propagator_args_eqb k (Lru.entries c) = None
  end.
Proof.
  intros (Hin & Hout & Hmax & Hlen). cbv zeta.
  unfold make_propagators, lru_cache, Lru.call_st.
  destruct (Lru.find propagator_args_eqb k (Lru.entries (propagators_cache s)))
    as [v|] eqn:E.
  - assert (Hv : make_propagators_body g k = Ok v).
    { apply Hin. apply (find_In _ propagator_args_eqb_eq), E. }
    rewrite Hv. cbn. split; [|reflexivity].
    pose proof (remove_length _ k _ v E) as Hr.
    destruct (Lru.remove propagator_args_eqb k (Lru.entries (propagators_cache s)));
      [reflexivity|]. simpl in Hr. lia.
  - destruct (make_propagators_body g k) as [v|e] eqn:B.
    + cbn. rewrite Hmax. split; reflexivity.
    + split; reflexivity.
Qed.

Lemma _calc_observable_body_spec (a : observable_args) (s : closure) :
  consistent g s ->
  fst (_calc_observable_body g a s) = observable_value g a
  /\ snd (_calc_observable_body g a s)
     = snd (make_propagators g (propagator_args_of g a) s).
Proof.
  intros Hs. unfold _calc_observable_body, observable_value.
  destruct (make_propagators_spec (propagator_args_of g a) s Hs) as [Hv _].
  destruct (make_propagators g (propagator_args_of g a) s) as [r s'].
  cbn [fst snd] in *. subst r. split; [|reflexivity].
  destruct (make_propagators_body g (propagator_args_of g a)) as [[l_free ps]|e];
    [|reflexivity].
  cbn [Py.bind].
  destruct (if find_y (fh_flg g) then _ else _) as [mag|e]; [|reflexivity].
  cbn [Py.bind]. destruct (get_nz mag). reflexivity.
Qed.

Lemma set_observable_cache_consistent (s : closure) (c : Lru.cache observable_args R) :
  consistent g s -> Lru.coherent (observable_value g) c ->
  consistent g (set_observable_cache s c).
Proof. intros (Hin & Hout & Hmax & Hlen) Hc. repeat split; assumption. Qed.

(** The caches are transparent: [_calc_observable] returns what its body
    computes without them. *)
Lemma _calc_observable_spec (a : observable_args) (s : closure) :
  consistent g s ->
  fst (_calc_observable g a s) = observable_value g a
  /\ consistent g (snd (_calc_observable g a s)).
Proof.
  intros Hs. unfold _calc_observable, lru_cache, Lru.call_st.
  destruct (Lru.find observable_args_eqb a (Lru.entries (observable_cache s)))
    as [v|] eqn:E.
  - assert (Hv : observable_value g a = Ok v).
    { destruct Hs as (_ & Hout & _). apply Hout.
      apply (find_In _ observable_args_eqb_eq), E. }
    split; [symmetry; exact Hv|]. cbn [snd].
    apply set_observable_cache_consistent; [exact Hs|].
    apply touch_coherent; [apply Hs|exact Hv].
  - destruct (_calc_observable_body_spec a s Hs) as [Hv Hs'].
    destruct (make_propagators_spec (propagator_args_of g a) s Hs) as [_ Hc].
    destruct (_calc_observable_body g a s) as [r s']. cbn [fst snd] in *.
    subst r s'. destruct (observable_value g a) as [v|e] eqn:B.
    + split; [reflexivity|]. cbn [snd].
      apply set_observable_cache_consistent; [exact Hc|].
      apply store_coherent; [apply Hc|exact B].
    + split; [reflexivity|exact Hc].
Qed.

Lemma calc_observable_state (i0 : option R) (a : observable_args) (s : closure) :
  snd (calc_observable g i0 a s) = snd (_calc_observable g a s).
Proof.
  unfold calc_observable. destruct (_calc_observable g a s). reflexivity.
Qed.

Lemma new_closure_consistent : consistent g new_closure.
Proof.
  repeat split; try apply coherent_empty. cbn. lia.
Qed.

Lemma reachable_consistent (s : closure) : reachable g s -> consistent g s.
Proof.
  induction 1 as [|i0 a s _ IH].
  - apply new_closure_consistent.
  - rewrite calc_observable_state. apply _calc_observable_spec, IH.
Qed.

End BackCalculationFacts.

Section CacheSteps.

Import BackCalculation BackCalcSpec.
Local Open Scope R_scope.

Context {L : LinAlg} {LV : Liouvillian L}.
Variable g : geometry.

Lemma truediv_cycles (x : R) (n : Z) :
  n <> 0%Z -> truediv x (4 * IZR n) = Ok (x / (4 * IZR n)).
Proof.
  intros Hn. unfold truediv.
  destruct (Req_dec_T (4 * IZR n) 0) as [Hz|_]; [|reflexivity].
  exfalso. apply (not_0_IZR n Hn). lra.
Qed.

Lemma truediv_zero (x : R) : truediv x (4 * IZR 0) = Raise ZeroDivisionError.
Proof.
  unfold truediv. destruct (Req_dec_T (4 * IZR 0) 0) as [_|Hz];
    [reflexivity|exfalso; lra].
Qed.

(** With a nonzero pulse width the intensity is always computed. *)
Lemma observable_value_ok (a : observable_args) :
  pw g <> 0 -> exists v, observable_value g a = Ok v.
Proof.
  intros Hpw. unfold observable_value.
  destruct (make_propagators_body_ok g (propagator_args_of g a) Hpw)
    as ((l_free & ps) & ->).
  cbn [Py.bind].
  destruct (find_y (fh_flg g)).
  - unfold mag_fh. destruct (Z.eqb_spec (ncyc a) 0) as [E|E].
    + eexists. reflexivity.
    + unfold mag_fh_train. rewrite (truediv_cycles _ _ E). eexists. reflexivity.
  - unfold mag_cw. destruct (Z.eqb_spec (ncyc a) 0) as [E|E].
    + eexists. reflexivity.
    + unfold mags_cw_train. rewrite (truediv_cycles _ _ E). eexists. reflexivity.
Qed.

Lemma _calc_observable_hit (a : observable_args) (s : closure) (v : R) :
  Lru.find observable_args_eqb a (Lru.entries (observable_cache s)) = Some v ->
  _calc_observable g a s
  = (Ok v, set_observable_cache s (Lru.touch observable_args_eqb a v
                                     (observable_cache s))).
Proof.
  intros E. unfold _calc_observable, lru_cache, Lru.call_st. rewrite E.
  reflexivity.
Qed.

Lemma _calc_observable_miss (a : observable_args) (s : closure) :
  consistent g s ->
  Lru.find observable_args_eqb a (Lru.entries (observable_cache s)) = None ->
  _calc_observable g a s
  = let s' := snd (make_propagators g (propagator_args_of g a) s) in
    match observable_value g a with
    | Ok v => (Ok v, set_observable_cache s' (Lru.store a v (observable_cache s)))
    | Raise e => (Raise e, s')
    end.
Proof.
  intros Hs E. unfold _calc_observable, lru_cache, Lru.call_st. rewrite E.
  destruct (_calc_observable_body_spec g a s Hs) as [Hv Hs'].
  destruct (_calc_observable_body g a s) as [r s']. cbn [fst snd] in *.
  subst r s'. cbv zeta. rewrite make_propagators_outer. reflexivity.
Qed.

(** The cache of [make_propagators] after a call of [_calc_observable]. *)
Lemma _calc_observable_inner (a : observable_args) (s : closure) :
  consistent g s ->
  propagators_cache (snd (_calc_observable g a s))
  = match Lru.find observable_args_eqb a (Lru.entries (observable_cache s)) with
    | Some _ => propagators_cache s
    | None =>
        propagators_cache (snd (make_propagators g (propagator_args_of g a) s))
    end.
Proof.
  intros Hs.
  destruct (Lru.find observable_args_eqb a (Lru.entries (observable_cache s)))
    as [v|] eqn:E.
  - rewrite (_calc_observable_hit a s v E). reflexivity.
  - rewrite (_calc_observable_miss a s Hs E). cbv zeta.
    destruct (observable_value g a); reflexivity.
Qed.

Lemma find_single (k : propagator_args) (v : matrix * propagators) :
  Lru.find propagator_args_eqb k [(k, v)] = Some v.
Proof. simpl. rewrite propagator_args_eqb_refl. reflexivity. Qed.

Lemma make_propagators_hit_misses (k : propagator_args) (s : closure) v :
  Lru.find propagator_args_eqb k (Lru.entries (propagators_cache s)) = Some v ->
  Lru.misses (propagators_cache (snd (make_propagators g k s)))
  = Lru.misses (propagators_cache s).
Proof.
  intros E. unfold make_propagators, lru_cache, Lru.call_st. rewrite E.
  reflexivity.
Qed.

(** An evaluation that is not served from the cache of [_calc_observable],
    followed by one that differs in the cycle count only: the propagators
    are not computed again. *)
Lemma propagators_reused (a : observable_args) (n : Z) (s : closure) :
  consistent g s ->
  Lru.find observable_args_eqb a (Lru.entries (observable_cache s)) = None ->
  let s1 := snd (_calc_observable g a s) in
  let s2 := snd (_calc_observable g (with_ncyc a n) s1) in
  Lru.misses (propagators_cache s2) = Lru.misses (propagators_cache s1).
Proof.
  intros Hs E s1 s2.
  assert (Hs1 : consistent g s1) by (apply _calc_observable_spec, Hs).
  assert (H1 : propagators_cache s1
               = propagators_cache
                   (snd (make_propagators g (propagator_args_of g a) s))).
  { unfold s1. rewrite (_calc_observable_inner a s Hs), E. reflexivity. }
  unfold s2. rewrite (_calc_observable_inner _ s1 Hs1).
  destruct (Lru.find observable_args_eqb (with_ncyc a n)
              (Lru.entries (observable_cache s1))); [reflexivity|].
  change (propagator_args_of g (with_ncyc a n)) with (propagator_args_of g a).
  pose proof (make_propagators_entries g (propagator_args_of g a) s Hs) as Hent.
  cbv zeta in Hent. rewrite <- H1 in Hent.
  destruct (make_propagators_body g (propagator_args_of g a)) as [v|e] eqn:B.
  - destruct Hent as [Hent _].
    apply (make_propagators_hit_misses _ s1 v). rewrite Hent. apply find_single.
  - destruct Hent as [_ Hnone].
    pose proof (make_propagators_entries g (propagator_args_of g a) s1 Hs1) as H2.
    cbv zeta in H2. rewrite B in H2. destruct H2 as [-> _]. reflexivity.
Qed.

(** The same, followed by an evaluation at another resonance offset: the
    propagators are computed again. *)
Lemma propagators_recomputed (a : observable_args) (x : R) (s : closure) :
  consistent g s ->
  pw g <> 0 ->
  (x - carrier g) * ppm_to_rads g <> (cs a - carrier g) * ppm_to_rads g ->
  Lru.find observable_args_eqb a (Lru.entries (observable_cache s)) = None ->
  Lru.find observable_args_eqb (with_cs a x) (Lru.entries (observable_cache s))
  = None ->
  let s1 := snd (_calc_observable g a s) in
  let s2 := snd (_calc_observable g (with_cs a x) s1) in
  Lru.misses (propagators_cache s2) = S (Lru.misses (propagators_cache s1)).
Proof.
  intros Hs Hpw Hoff E Ex s1 s2.
  assert (Hs1 : consistent g s1) by (apply _calc_observable_spec, Hs).
  destruct (observable_value_ok a Hpw) as (v & Hv).
  destruct (make_propagators_body_ok g (propagator_args_of g a) Hpw) as (b & Hb).
  assert (Hs1eq : s1 = set_observable_cache
                         (snd (make_propagators g (propagator_args_of g a) s))
                         (Lru.store a v (observable_cache s))).
  { unfold s1. rewrite (_calc_observable_miss a s Hs E). cbv zeta. rewrite Hv.
    reflexivity. }
  assert (Hne : with_cs a x <> a).
  { intros H. apply Hoff. apply (f_equal cs) in H. cbn in H. rewrite H.
    reflexivity. }
  assert (Hout : Lru.find observable_args_eqb (with_cs a x)
                   (Lru.entries (observable_cache s1)) = None).
  { rewrite Hs1eq. cbn [set_observable_cache observable_cache Lru.store Lru.entries].
    apply find_firstn_None. simpl.
    rewrite (observable_args_eqb_neq _ _ Hne). exact Ex. }
  pose proof (make_propagators_entries g (propagator_args_of g a) s Hs) as Hent.
  cbv zeta in Hent. rewrite Hb in Hent. destruct Hent as [Hent _].
  assert (Hin1 : Lru.entries (propagators_cache s1) = [(propagator_args_of g a, b)]).
  { rewrite Hs1eq. exact Hent. }
  unfold s2. rewrite (_calc_observable_inner _ s1 Hs1), Hout.
  pose proof (make_propagators_entries g (propagator_args_of g (with_cs a x)) s1 Hs1)
    as H2.
  cbv zeta in H2.
  destruct (make_propagators_body_ok g (propagator_args_of g (with_cs a x)) Hpw)
    as (b' & Hb').
  rewrite Hb' in H2. destruct H2 as [_ H2]. rewrite H2, Hin1. simpl.
  rewrite propagator_args_eqb_neq; [reflexivity|].
  intros H. apply Hoff. apply (f_equal mp_cs_offset) in H. exact H.
Qed.

(** The first evaluation that a cache of [make_propagators] sees. *)
Lemma propagators_first_computed (a : observable_args) (s : closure) :
  consistent g s ->
  pw g <> 0 ->
  Lru.find observable_args_eqb a (Lru.entries (observable_cache s)) = None ->
  Lru.find propagator_args_eqb (propagator_args_of g a)
    (Lru.entries (propagators_cache s)) = None ->
  Lru.misses (propagators_cache (snd (_calc_observable g a s)))
  = S (Lru.misses (propagators_cache s)).
Proof.
  intros Hs Hpw E Ein.
  rewrite (_calc_observable_inner a s Hs), E.
  pose proof (make_propagators_entries g (propagator_args_of g a) s Hs) as Hent.
  cbv zeta in Hent.
  destruct (make_propagators_body_ok g (propagator_args_of g a) Hpw) as (b & Hb).
  rewrite Hb, Ein in Hent. apply Hent.
Qed.

End CacheSteps.

Section ObservableFacts.

Import BackCalculation BackCalcSpec.
Local Open Scope R_scope.

Context {L : LinAlg} {LV : Liouvillian L}.
Variable g : geometry.

Lemma calc_observable_eq (i0 : option R) (a : observable_args) (s : closure) :
  calc_observable g i0 a s
  = (fmap (Rmult (match i0 with Some x => x | None => 0 end))
       (fst (_calc_observable g a s)),
     snd (_calc_observable g a s)).
Proof.
  unfold calc_observable. destruct (_calc_observable g a s) as [r s'].
  destruct r; reflexivity.
Qed.

Lemma observable_value_reference (a : observable_args) :
  ncyc a = 0%Z -> observable_value g a = reference_value g a.
Proof.
  intros E. unfold observable_value, reference_value, mag_fh, mag_cw.
  rewrite E. reflexivity.
Qed.

Lemma observable_value_train (a : observable_args) :
  ncyc a <> 0%Z -> observable_value g a = train_value g a.
Proof.
  intros E. unfold observable_value, train_value, mag_fh, mag_cw.
  apply Z.eqb_neq in E. rewrite E. reflexivity.
Qed.

Lemma reference_value_time_t2 (a : observable_args) (t : R) :
  reference_value (with_time_t2 g t) a = reference_value g a.
Proof. reflexivity. Qed.

Lemma train_value_zero (a : observable_args) :
  pw g <> 0 -> ncyc a = 0%Z -> train_value g a = Raise ZeroDivisionError.
Proof.
  intros Hpw E. unfold train_value.
  destruct (make_propagators_body_ok g (propagator_args_of g a) Hpw)
    as ((l_free & ps) & ->).
  cbn [Py.bind]. unfold mag_fh_train, mags_cw_train. rewrite E, truediv_zero.
  destruct (find_y (fh_flg g)); reflexivity.
Qed.

End ObservableFacts.

(* ===================================================================== *)
(** * Claims on [back_calculation.py]                                     *)
(* ===================================================================== *)

Section BackCalculationClaims.

Import BackCalculation BackCalcSpec.
Local Open Scope R_scope.

Context {L : LinAlg} {LV : Liouvillian L}.




End BackCalculationClaims.

Section CacheScenarios.

Import BackCalculation BackCalcSpec.
Local Open Scope R_scope.

Context {L : LinAlg} {LV : Liouvillian L}.
Variable g : geometry.
Hypothesis Hpw : pw g <> 0.

Lemma observable_args_eqb_refl (a : observable_args) :
  observable_args_eqb a a = true.
Proof.
  unfold observable_args_eqb. rewrite !float_eqb_refl, Z.eqb_refl. reflexivity.
Qed.

(** The two caches after an evaluation that was computed. *)
Lemma caches_after_miss (a : observable_args) (s : closure) :
  consistent g s ->
  Lru.find observable_args_eqb a (Lru.entries (observable_cache s)) = None ->
  exists v b,
    _calc_observable g a s
    = (Ok v,
       set_observable_cache
         (snd (make_propagators g (propagator_args_of g a) s))
         (Lru.store a v (observable_cache s)))
    /\ Lru.entries (propagators_cache (snd (_calc_observable g a s)))
       = [(propagator_args_of g a, b)].
Proof.
  intros Hs E.
  destruct (observable_value_ok g a Hpw) as (v & Hv).
  destruct (make_propagators_body_ok g (propagator_args_of g a) Hpw) as (b & Hb).
  exists v, b.
  assert (Heq : _calc_observable g a s
                = (Ok v,
                   set_observable_cache
                     (snd (make_propagators g (propagator_args_of g a) s))
                     (Lru.store a v (observable_cache s)))).
  { rewrite (_calc_observable_miss g a s Hs E). cbv zeta. rewrite Hv.
    reflexivity. }
  split; [exact Heq|]. rewrite Heq. cbn [snd set_observable_cache propagators_cache].
  pose proof (make_propagators_entries g (propagator_args_of g a) s Hs) as Hent.
  cbv zeta in Hent. rewrite Hb in Hent. apply Hent.
Qed.

(** Two evaluations that differ in the cycle count only, the first of which
    is served from the cache of [_calc_observable] while the cache of
    [make_propagators] holds the propagators of another offset: the second
    computes the propagators again. *)
Lemma propagators_recomputed_after_hit (a : observable_args) (x : R) (n : Z) :
  (x - carrier g) * ppm_to_rads g <> (cs a - carrier g) * ppm_to_rads g ->
  n <> ncyc a ->
  let s1 := snd (_calc_observable g a new_closure) in
  let s2 := snd (_calc_observable g (with_cs a x) s1) in
  let s3 := snd (_calc_observable g a s2) in
  let s4 := snd (_calc_observable g (with_ncyc a n) s3) in
  Lru.misses (propagators_cache s3) = Lru.misses (propagators_cache s2)
  /\ Lru.misses (propagators_cache s4) = S (Lru.misses (propagators_cache s3)).
Proof.
  intros Hoff Hn s1 s2 s3 s4.
  assert (Hab : with_cs a x <> a).
  { intros H. apply Hoff. apply (f_equal cs) in H. cbn in H. rewrite H.
    reflexivity. }
  assert (Hna : with_ncyc a n <> a).
  { intros H. apply Hn. apply (f_equal ncyc) in H. exact H. }
  assert (Hnb : with_ncyc a n <> with_cs a x).
  { intros H. apply Hoff. apply (f_equal cs) in H. cbn in H. rewrite <- H.
    reflexivity. }
  assert (Hk : propagator_args_of g a <> propagator_args_of g (with_cs a x)).
  { intros H. apply Hoff. apply (f_equal mp_cs_offset) in H. symmetry. exact H. }
  pose proof (new_closure_consistent g) as Hs0.
  assert (Hs1 : consistent g s1) by (apply _calc_observable_spec, Hs0).
  assert (Hs2 : consistent g s2) by (apply _calc_observable_spec, Hs1).
  assert (Hs3 : consistent g s3) by (apply _calc_observable_spec, Hs2).
  destruct (caches_after_miss a new_closure Hs0 eq_refl) as (va & ba & E1 & _).
  assert (O1 : Lru.entries (observable_cache s1) = [(a, va)]).
  { unfold s1. rewrite E1. reflexivity. }
  assert (F2 : Lru.find observable_args_eqb (with_cs a x)
                 (Lru.entries (observable_cache s1)) = None).
  { rewrite O1. simpl. rewrite (observable_args_eqb_neq _ _ Hab). reflexivity. }
  destruct (caches_after_miss (with_cs a x) s1 Hs1 F2) as (vb & bb & E2 & I2).
  fold s2 in I2.
  assert (M1 : Lru.maxsize (observable_cache s1) = 100%nat).
  { unfold s1. rewrite E1. reflexivity. }
  assert (O2 : Lru.entries (observable_cache s2) = [(with_cs a x, vb); (a, va)]).
  { unfold s2. rewrite E2.
    cbn [snd set_observable_cache observable_cache Lru.store Lru.entries].
    rewrite M1, O1. reflexivity. }
  assert (F3 : Lru.find observable_args_eqb a (Lru.entries (observable_cache s2))
               = Some va).
  { rewrite O2. simpl.
    rewrite (observable_args_eqb_neq a (with_cs a x)) by (intros H; apply Hab; auto).
    rewrite observable_args_eqb_refl. reflexivity. }
  assert (E3 : s3 = set_observable_cache s2
                      (Lru.touch observable_args_eqb a va (observable_cache s2))).
  { unfold s3. rewrite (_calc_observable_hit g a s2 va F3). reflexivity. }
  assert (O3 : Lru.entries (observable_cache s3) = [(a, va); (with_cs a x, vb)]).
  { rewrite E3. cbn [set_observable_cache observable_cache Lru.touch Lru.entries].
    rewrite O2. simpl.
    rewrite (observable_args_eqb_neq a (with_cs a x)) by (intros H; apply Hab; auto).
    rewrite observable_args_eqb_refl. reflexivity. }
  assert (I3 : propagators_cache s3 = propagators_cache s2).
  { rewrite E3. reflexivity. }
  split; [rewrite I3; reflexivity|].
  assert (F4 : Lru.find observable_args_eqb (with_ncyc a n)
                 (Lru.entries (observable_cache s3)) = None).
  { rewrite O3. simpl.
    rewrite (observable_args_eqb_neq _ _ Hna), (observable_args_eqb_neq _ _ Hnb).
    reflexivity. }
  unfold s4. rewrite (_calc_observable_inner g _ s3 Hs3), F4.
  change (propagator_args_of g (with_ncyc a n)) with (propagator_args_of g a).
  pose proof (make_propagators_entries g (propagator_args_of g a) s3 Hs3) as Hent.
  cbv zeta in Hent.
  destruct (make_propagators_body_ok g (propagator_args_of g a) Hpw) as (b & Hb).
  rewrite Hb in Hent. destruct Hent as [_ Hm]. rewrite Hm, I3, I2. simpl.
  rewrite (propagator_args_eqb_neq _ _ Hk). reflexivity.
Qed.

End CacheScenarios.

Section BackCalculationClaimsAtExamples.

Import BackCalculation BackCalcSpec.
Local Open Scope R_scope.

#[local] Existing Instance scalar.
#[local] Existing Instance relaxing.

Lemma geometry_fh_pw : pw geometry_fh <> 0.
Proof. simpl. lra. Qed.



Lemma reference_intensity_positive :
  exists x,
    observable_value geometry_fh default_args = Ok x /\ 0 < x.
Proof.
  unfold observable_value, make_propagators_body, truediv.
  destruct (Req_dec_T (4 * pw geometry_fh) 0) as [Hz|_];
    [exfalso; simpl in Hz; lra|].
  cbn -[exp powerRZ PI Rmult Rplus Rminus Rdiv Ropp].
  eexists. split; [reflexivity|].
  repeat apply Rmult_lt_0_compat; try apply exp_pos; try lra.
  all: try (apply Rinv_0_lt_compat; lra).
  all: apply Rplus_lt_0_compat; apply powerRZ_lt, exp_pos.
Qed.



End BackCalculationClaimsAtExamples.

(* ===================================================================== *)
(** * Properties of [fitting.py]: the partition into clusters             *)
(* ===================================================================== *)

Section VaryingNames.

Import Lmfit Fitting PartitionSpec.

Lemma getitem_error (all_params : Params) (name : string) (e : exception) :
  getitem all_params name = Raise e -> e = KeyError.
Proof.
  unfold getitem. destruct (all_params !! name); [discriminate|].
  intros H. injection H as <-. reflexivity.
Qed.

Lemma getitem_Ok (all_params : Params) (name : string) (p : Param) :
  getitem all_params name = Ok p <-> all_params !! name = Some p.
Proof.
  unfold getitem. destruct (all_params !! name); split; intros H;
    try discriminate; congruence.
Qed.

Lemma pnames_vary_of_error (all_params : Params) (pnames : list string) e :
  pnames_vary_of all_params pnames = Raise e -> e = KeyError.
Proof.
  induction pnames as [|n pnames IH]; simpl; [discriminate|].
  destruct (getitem all_params n) as [p|e'] eqn:G; simpl.
  - destruct (pnames_vary_of all_params pnames) as [s|e'']; simpl;
      [discriminate|].
    intros H. injection H as <-. apply IH. reflexivity.
  - intros H. injection H as <-. apply (getitem_error _ _ _ G).
Qed.

(** The set that the comprehension builds is the set of the free names. *)
Lemma pnames_vary_of_free (all_params : Params) (p : Profile) (s : gset string) :
  pnames_vary_of all_params (params p) = Ok s -> s = free_names all_params p.
Proof.
  unfold free_names. generalize (params p). intros pnames. revert s.
  induction pnames as [|n pnames IH]; simpl; intros s H.
  - injection H as <-. reflexivity.
  - destruct (getitem all_params n) as [prm|] eqn:G; simpl in H; [|discriminate].
    destruct (pnames_vary_of all_params pnames) as [s'|]; simpl in H;
      [|discriminate].
    injection H as <-. apply getitem_Ok in G. unfold is_free at 1. rewrite G.
    rewrite (IH s' eq_refl).
    destruct (vary prm && negb (expr_truthy prm)); reflexivity.
Qed.

Lemma pnames_vary_of_resolved (all_params : Params) (pnames : list string) s :
  pnames_vary_of all_params pnames = Ok s ->
  Forall (fun n => is_Some (all_params !! n)) pnames.
Proof.
  revert s. induction pnames as [|n pnames IH]; simpl; intros s H.
  - constructor.
  - destruct (getitem all_params n) as [prm|] eqn:G; simpl in H; [|discriminate].
    destruct (pnames_vary_of all_params pnames) as [s'|]; simpl in H;
      [|discriminate].
    constructor; [apply getitem_Ok in G; eauto|]. apply (IH s' eq_refl).
Qed.

End VaryingNames.

Section ScanFacts.

Import Lmfit Fitting PartitionSpec.

Variable all_params : Params.
Variable data : list Profile.

Lemma linked_refl (p : Profile) : linked all_params data p p.
Proof. apply Relation_Operators.rst_refl. Qed.

Lemma linked_sym (p q : Profile) :
  linked all_params data p q -> linked all_params data q p.
Proof. apply Relation_Operators.rst_sym. Qed.

Lemma linked_trans (p q r : Profile) :
  linked all_params data p q -> linked all_params data q r ->
  linked all_params data p r.
Proof. apply Relation_Operators.rst_trans. Qed.

Lemma linked_shares (p q : Profile) :
  In p data -> In q data -> shares all_params p q -> linked all_params data p q.
Proof. intros. apply Relation_Operators.rst_step. auto. Qed.

Lemma join_first_ok (q : Profile) (clusters cs' : list cluster) :
  In q data ->
  Forall (cluster_ok all_params data) clusters ->
  join_first q (free_names all_params q) clusters = Some cs' ->
  Forall (cluster_ok all_params data) cs'.
Proof.
  intros Hq. revert cs'.
  induction clusters as [|[[d pn] pv] rest IH]; simpl; intros cs' Hok H;
    [discriminate|].
  inversion Hok as [|? ? Hc Hrest]; subst.
  destruct (bool_decide (free_names all_params q ∩ pv ≠ ∅)) eqn:B.
  - injection H as <-. constructor; [|exact Hrest].
    apply bool_decide_eq_true in B.
    apply set_choose_L in B. destruct B as (v & Hv).
    apply elem_of_intersection in Hv. destruct Hv as [Hvq Hvc].
    destruct Hc as (Hd & Hpv & Hl). simpl in *.
    destruct (Hpv v Hvc) as (p0 & Hp0 & Hvp0).
    assert (Hp0q : linked all_params data p0 q).
    { apply linked_shares; [apply Hd, Hp0|exact Hq|].
      unfold shares. intros E.
      assert (v ∈ free_names all_params p0 ∩ free_names all_params q)
        by (apply elem_of_intersection; auto).
      rewrite E in H. apply not_elem_of_empty in H. exact H. }
    repeat split; simpl.
    + intros p Hp. apply in_app_or in Hp. destruct Hp as [Hp|[<-|[]]]; auto.
    + intros w Hw. apply elem_of_union in Hw. destruct Hw as [Hw|Hw].
      * destruct (Hpv w Hw) as (p & Hp & Hwp). exists p. split;
          [apply in_or_app; left; exact Hp|exact Hwp].
      * exists q. split; [apply in_or_app; right; left; reflexivity|exact Hw].
    + intros p r Hp Hr.
      apply in_app_or in Hp. apply in_app_or in Hr.
      destruct Hp as [Hp|[<-|[]]]; destruct Hr as [Hr|[<-|[]]].
      * apply Hl; assumption.
      * apply linked_trans with p0; [apply Hl; assumption|exact Hp0q].
      * apply linked_sym. apply linked_trans with p0;
          [apply Hl; assumption|exact Hp0q].
      * apply linked_refl.
  - destruct (join_first q (free_names all_params q) rest) as [rest'|];
      [|discriminate].
    injection H as <-. constructor; [exact Hc|]. apply IH; auto.
Qed.

Lemma add_profile_ok (q : Profile) (clusters cs' : list cluster) :
  In q data ->
  Forall (cluster_ok all_params data) clusters ->
  add_profile all_params clusters q = Ok cs' ->
  Forall (cluster_ok all_params data) cs'.
Proof.
  intros Hq Hok. unfold add_profile.
  destruct (pnames_vary_of all_params (params q)) as [s|] eqn:E; simpl;
    [|discriminate].
  apply pnames_vary_of_free in E. subst s.
  destruct (join_first q (free_names all_params q) clusters) as [cs''|] eqn:J.
  - intros H. injection H as <-. apply (join_first_ok q clusters); assumption.
  - intros H. injection H as <-. apply List.Forall_app. split; [exact Hok|].
    constructor; [|constructor]. repeat split; simpl.
    + intros p [<-|[]]. exact Hq.
    + intros v Hv. exists q. split; [left; reflexivity|exact Hv].
    + intros p r [<-|[]] [<-|[]]. apply linked_refl.
Qed.

Lemma scan_ok (todo : list Profile) (clusters cs' : list cluster) :
  (forall q, In q todo -> In q data) ->
  Forall (cluster_ok all_params data) clusters ->
  scan all_params todo clusters = Ok cs' ->
  Forall (cluster_ok all_params data) cs'.
Proof.
  revert clusters. induction todo as [|q todo IH]; simpl; intros clusters Hin Hok H.
  - injection H as <-. exact Hok.
  - destruct (add_profile all_params clusters q) as [cs1|] eqn:A; simpl in H;
      [|discriminate].
    apply (IH cs1); auto.
    apply (add_profile_ok q clusters); auto.
Qed.

Lemma scan_error (todo : list Profile) (clusters : list cluster) (e : exception) :
  scan all_params todo clusters = Raise e -> e = KeyError.
Proof.
  revert clusters. induction todo as [|q todo IH]; simpl; intros clusters H;
    [discriminate|].
  destruct (add_profile all_params clusters q) as [cs1|e1] eqn:A; simpl in H.
  - apply (IH cs1 H).
  - injection H as <-. unfold add_profile in A.
    destruct (pnames_vary_of all_params (params q)) as [s|e2] eqn:E; simpl in A.
    + destruct (join_first q s clusters); discriminate.
    + injection A as <-. apply (pnames_vary_of_error _ _ _ E).
Qed.

End ScanFacts.

Section LabelFacts.

Import Lmfit Fitting PartitionSpec.

Context {PN : ParameterNames}.

Lemma pop_empty : pop ∅ = Raise KeyError.
Proof. unfold pop. rewrite elements_empty. reflexivity. Qed.

Lemma pop_nonempty (s : gset string) : s ≠ ∅ -> exists x s', pop s = Ok (x, s').
Proof.
  intros Hs. unfold pop. destruct (elements s) as [|x l] eqn:E.
  - exfalso. apply Hs. apply leibniz_equiv. apply elements_empty_inv. exact E.
  - eauto.
Qed.

Lemma name_of_cluster_empty : name_of_cluster ∅ = Raise KeyError.
Proof. unfold name_of_cluster. rewrite pop_empty. reflexivity. Qed.

Lemma name_of_cluster_nonempty (s : gset string) :
  s ≠ ∅ -> exists name, name_of_cluster s = Ok name.
Proof.
  intros Hs. unfold name_of_cluster.
  destruct (pop_nonempty s Hs) as (x & s' & ->). simpl. eauto.
Qed.

Lemma name_of_cluster_error (s : gset string) (e : exception) :
  name_of_cluster s = Raise e -> e = KeyError.
Proof.
  unfold name_of_cluster, pop. destruct (elements s); simpl; [|discriminate].
  intros H. injection H as <-. reflexivity.
Qed.

Lemma collect_error (all_params : Params) (pnames : list string)
    (acc : Params) (e : exception) :
  collect all_params pnames acc = Raise e -> e = KeyError.
Proof.
  revert all_params acc. induction pnames as [|n pnames IH]; simpl;
    intros all_params acc H; [discriminate|].
  destruct (getitem all_params n) as [p|e'] eqn:G; simpl in H.
  - apply (IH _ _ H).
  - injection H as <-. apply (getitem_error _ _ _ G).
Qed.

Lemma collect_resolved (all_params : Params) (pnames : list string) (acc : Params) :
  Forall (fun n => is_Some (all_params !! n)) pnames ->
  exists all_params' params_cluster,
    collect all_params pnames acc = Ok (all_params', params_cluster)
    /\ (forall n, is_Some (all_params !! n) -> is_Some (all_params' !! n)).
Proof.
  revert all_params acc. induction pnames as [|n pnames IH]; simpl;
    intros all_params acc Hres.
  - exists all_params, acc. split; [reflexivity|auto].
  - inversion Hres as [|? ? [p Hp] Hrest]; subst.
    unfold getitem. rewrite Hp. simpl.
    set (p' := {| value := value p; vary := vary p; expr := expr p;
                  _delay_asteval := true |}).
    destruct (IH (<[n := p']> all_params) (<[n := p']> acc)) as (a' & pc & Hc & Hk).
    + revert Hrest. apply List.Forall_impl. intros m Hm.
      apply lookup_insert_is_Some'. right. exact Hm.
    + exists a', pc. split; [exact Hc|]. intros m Hm. apply Hk.
      apply lookup_insert_is_Some'. right. exact Hm.
Qed.

Lemma lower_all_resolved (params_cluster all_params : Params) (n : string) :
  is_Some (all_params !! n) -> is_Some (lower_all params_cluster all_params !! n).
Proof.
  intros H. unfold lower_all. apply lookup_union_is_Some. right. exact H.
Qed.

(** The second loop keeps the profiles of the clusters, in their order. *)
Lemma label_profiles (all_params all_params' : Params) (clusters : list cluster)
    (cs : list (ParameterName * DataSet * Params)) :
  label all_params clusters = (Ok cs, all_params') ->
  map profiles_of cs = map (fun c : cluster => fst (fst c)) clusters.
Proof.
  revert all_params all_params' cs.
  induction clusters as [|[[d pn] pv] rest IH]; simpl; intros ap ap' cs H.
  - injection H as <- _. reflexivity.
  - destruct (name_of_cluster pv) as [name|]; [|discriminate].
    destruct (collect ap pn ∅) as [[ap1 pc]|]; [|discriminate].
    destruct (label (lower_all pc ap1) rest) as [r ap2] eqn:E.
    destruct r as [rest'|]; simpl in H; [|discriminate].
    injection H as <- _. simpl. f_equal. apply (IH _ _ _ E).
Qed.

Lemma label_error (all_params : Params) (clusters : list cluster) (e : exception) :
  fst (label all_params clusters) = Raise e -> e = KeyError.
Proof.
  revert all_params. induction clusters as [|[[d pn] pv] rest IH]; simpl;
    intros ap H; [discriminate|].
  destruct (name_of_cluster pv) as [name|e1] eqn:N.
  - destruct (collect ap pn ∅) as [[ap1 pc]|e2] eqn:C.
    + specialize (IH (lower_all pc ap1)).
      destruct (label (lower_all pc ap1) rest) as [r ap2].
      destruct r as [rest'|e3]; simpl in *; [discriminate|].
      injection H as <-. apply IH. reflexivity.
    + simpl in H. injection H as <-. apply (collect_error _ _ _ _ C).
  - simpl in H. injection H as <-. apply (name_of_cluster_error _ _ N).
Qed.

(** A cluster without varying names stops the second loop. *)
Lemma label_empty (all_params : Params) (clusters : list cluster) :
  Exists (fun c : cluster => snd c = ∅) clusters ->
  is_ok (fst (label all_params clusters)) = false.
Proof.
  intros Hex. revert all_params.
  induction Hex as [[[d pn] pv] rest Hpv|[[d pn] pv] rest _ IH]; simpl; intros ap.
  - simpl in Hpv. subst pv. rewrite name_of_cluster_empty. reflexivity.
  - destruct (name_of_cluster pv) as [name|]; [|reflexivity].
    destruct (collect ap pn ∅) as [[ap1 pc]|]; [|reflexivity].
    specialize (IH (lower_all pc ap1)).
    destruct (label (lower_all pc ap1) rest) as [r ap2].
    destruct r; simpl in *; [discriminate|reflexivity].
Qed.

(** Clusters with varying names and resolved parameter names are all
    labelled. *)
Lemma label_ok (all_params : Params) (clusters : list cluster) :
  Forall (cluster_labelled all_params) clusters ->
  is_ok (fst (label all_params clusters)) = true.
Proof.
  revert all_params. induction clusters as [|[[d pn] pv] rest IH]; simpl;
    intros ap Hall; [reflexivity|].
  inversion Hall as [|? ? [Hpv Hres] Hrest]; subst. simpl in Hpv, Hres.
  destruct (name_of_cluster_nonempty pv Hpv) as (name & ->).
  destruct (collect_resolved ap pn ∅ Hres) as (ap1 & pc & -> & Hk).
  assert (Hrest' : Forall (cluster_labelled (lower_all pc ap1)) rest).
  { revert Hrest. apply List.Forall_impl. intros c [Hc1 Hc2]. split; [exact Hc1|].
    revert Hc2. apply List.Forall_impl. intros n Hn.
    apply lower_all_resolved, Hk, Hn. }
  specialize (IH _ Hrest').
  destruct (label (lower_all pc ap1) rest) as [r ap2].
  destruct r; simpl in *; [reflexivity|discriminate].
Qed.

Lemma insert_by_Permutation {A} (lt : A -> A -> bool) (x : A) (l : list A) :
  Permutation (insert_by lt x l) (x :: l).
Proof.
  induction l as [|y l IH]; simpl; [apply Permutation_refl|].
  destruct (lt x y); [apply Permutation_refl|].
  apply perm_trans with (y :: x :: l); [apply perm_skip, IH|apply perm_swap].
Qed.

Lemma sorted_by_Permutation {A} (lt : A -> A -> bool) (l : list A) :
  Permutation (sorted_by lt l) l.
Proof.
  unfold sorted_by.
  assert (H : forall acc, Permutation
                            (fold_left (fun acc x => insert_by lt x acc) l acc)
                            (acc ++ l)).
  { induction l as [|x l IH]; simpl; intros acc.
    - rewrite app_nil_r. apply Permutation_refl.
    - apply perm_trans with (insert_by lt x acc ++ l); [apply IH|].
      apply perm_trans with ((x :: acc) ++ l).
      + apply Permutation_app_tail, insert_by_Permutation.
      + simpl. apply Permutation_middle. }
  apply (H []).
Qed.

End LabelFacts.

Section PartitionFacts.

Import Lmfit Fitting PartitionSpec.

Context {PN : ParameterNames}.

Lemma find_independent_clusters_Ok (data : list Profile) (all_params : Params)
    (cs : list (ParameterName * DataSet * Params)) :
  fst (find_independent_clusters data all_params) = Ok cs ->
  exists clusters cs_ all_params',
    scan all_params data [] = Ok clusters
    /\ label all_params clusters = (Ok cs_, all_params')
    /\ cs = sorted_by tuple_lt cs_.
Proof.
  unfold find_independent_clusters.
  destruct (scan all_params data []) as [clusters|]; [|discriminate].
  destruct (label all_params clusters) as [r ap'] eqn:E.
  destruct r as [cs_|]; simpl; [|discriminate].
  intros H. injection H as <-. exists clusters, cs_, ap'. auto.
Qed.

Lemma find_independent_clusters_error (data : list Profile) (all_params : Params)
    (e : exception) :
  fst (find_independent_clusters data all_params) = Raise e -> e = KeyError.
Proof.
  unfold find_independent_clusters.
  destruct (scan all_params data []) as [clusters|e1] eqn:S.
  - pose proof (label_error all_params clusters) as L.
    destruct (label all_params clusters) as [r ap'].
    destruct r as [cs_|e2]; simpl in *; [discriminate|].
    intros H. injection H as <-. apply L. reflexivity.
  - simpl. intros H. injection H as <-. apply (scan_error _ _ _ _ S).
Qed.

(** Profiles that end in one cluster are linked. *)
Lemma same_cluster_linked (data : list Profile) (all_params : Params)
    (cs : list (ParameterName * DataSet * Params)) c p q :
  fst (find_independent_clusters data all_params) = Ok cs ->
  In c cs -> In p (profiles_of c) -> In q (profiles_of c) ->
  linked all_params data p q.
Proof.
  intros H Hc Hp Hq.
  destruct (find_independent_clusters_Ok _ _ _ H) as (clusters & cs_ & ap' & S & Lb & ->).
  apply (Permutation_in _ (sorted_by_Permutation tuple_lt cs_)) in Hc.
  apply (in_map profiles_of) in Hc. rewrite (label_profiles _ _ _ _ Lb) in Hc.
  apply in_map_iff in Hc. destruct Hc as (cl & Hcl & Hin).
  pose proof (scan_ok all_params data data [] clusters (fun _ h => h)
                (List.Forall_nil _) S) as Hok.
  rewrite List.Forall_forall in Hok. destruct (Hok cl Hin) as (_ & _ & Hl).
  apply Hl; rewrite Hcl; assumption.
Qed.

(** A dataset of two profiles. *)
Lemma two_profiles (p q : Profile) (all_params : Params)
    (cs : list (ParameterName * DataSet * Params)) :
  fst (find_independent_clusters [p; q] all_params) = Ok cs ->
  (shares all_params p q -> exists c, cs = [c] /\ profiles_of c = [p; q])
  /\ (~ shares all_params p q ->
      exists c1 c2, (cs = [c1; c2] \/ cs = [c2; c1])
                    /\ profiles_of c1 = [p] /\ profiles_of c2 = [q]).
Proof.
  intros H.
  destruct (find_independent_clusters_Ok _ _ _ H) as (clusters & cs_ & ap' & S & Lb & ->).
  apply label_profiles in Lb. cbn [scan] in S.
  unfold add_profile at 1 in S.
  destruct (pnames_vary_of all_params (params p)) as [fp|] eqn:Ep;
    cbn [Py.bind join_first app] in S; [|discriminate].
  unfold add_profile in S.
  destruct (pnames_vary_of all_params (params q)) as [fq|] eqn:Eq;
    cbn [Py.bind join_first app] in S; [|discriminate].
  apply pnames_vary_of_free in Ep, Eq. subst fp fq.
  destruct (bool_decide (free_names all_params q ∩ free_names all_params p ≠ ∅))
    eqn:B; cbn [Py.bind app] in S; injection S as <-; simpl in Lb.
  - apply bool_decide_eq_true in B. split.
    + intros _. destruct cs_ as [|c [|c' cs_]]; simpl in Lb; try discriminate.
      injection Lb as Lb. exists c. split; [reflexivity|exact Lb].
    + intros Hn. exfalso. apply Hn. unfold shares.
      rewrite (comm_L (∩)). exact B.
  - apply bool_decide_eq_false in B. split.
    + intros Hs. exfalso. apply B. unfold shares in Hs.
      rewrite (comm_L (∩)). exact Hs.
    + intros _. destruct cs_ as [|c1 [|c2 [|c3 cs_]]]; simpl in Lb;
        try discriminate.
      injection Lb as L1 L2. exists c1, c2. split; [|split; assumption].
      unfold sorted_by. simpl. destruct (tuple_lt c2 c1); auto.
Qed.

Lemma join_first_keeps_empty (q : Profile) (fq : gset string)
    (clusters cs' : list cluster) :
  Exists (fun c : cluster => snd c = ∅) clusters ->
  join_first q fq clusters = Some cs' ->
  Exists (fun c : cluster => snd c = ∅) cs'.
Proof.
  intros Hex. revert cs'.
  induction Hex as [[[d pn] pv] rest Hpv|[[d pn] pv] rest Hex IH]; simpl;
    intros cs' H.
  - simpl in Hpv. subst pv.
    rewrite bool_decide_eq_false_2 in H
      by (intros E; apply E; apply right_absorb_L; apply _).
    destruct (join_first q fq rest); [|discriminate].
    injection H as <-. apply Exists_cons_hd. reflexivity.
  - destruct (bool_decide (fq ∩ pv ≠ ∅)).
    + injection H as <-. apply Exists_cons_tl. exact Hex.
    + destruct (join_first q fq rest) as [rest'|]; [|discriminate].
      injection H as <-. apply Exists_cons_tl. apply IH. reflexivity.
Qed.

Lemma join_first_empty (q : Profile) (clusters : list cluster) :
  join_first q ∅ clusters = None.
Proof.
  induction clusters as [|[[d pn] pv] rest IH]; simpl; [reflexivity|].
  rewrite bool_decide_eq_false_2
    by (intros E; apply E; apply left_absorb_L; apply _).
  rewrite IH. reflexivity.
Qed.

(** A profile without free names leaves a cluster without varying names. *)
Lemma scan_keeps_empty (all_params : Params) (todo : list Profile)
    (clusters cs' : list cluster) :
  Exists (fun c : cluster => snd c = ∅) clusters
  \/ (exists p, In p todo /\ pnames_vary_of all_params (params p) = Ok ∅) ->
  scan all_params todo clusters = Ok cs' ->
  Exists (fun c : cluster => snd c = ∅) cs'.
Proof.
  revert clusters. induction todo as [|q todo IH]; simpl; intros clusters Hor H.
  - injection H as <-. destruct Hor as [Hex|(p & [] & _)]. exact Hex.
  - destruct (add_profile all_params clusters q) as [cs1|] eqn:A; simpl in H;
      [|discriminate].
    apply (IH cs1); [|exact H].
    unfold add_profile in A.
    destruct (pnames_vary_of all_params (params q)) as [fq|] eqn:E; simpl in A;
      [|discriminate].
    destruct Hor as [Hex|(p & [<-|Hp] & Hempty)].
    + left. destruct (join_first q fq clusters) as [cs''|] eqn:J;
        injection A as <-.
      * apply (join_first_keeps_empty q fq clusters); assumption.
      * apply List.Exists_app. left. exact Hex.
    + left. rewrite E in Hempty. injection Hempty as ->.
      rewrite join_first_empty in A. injection A as <-.
      apply List.Exists_app. right. apply Exists_cons_hd. reflexivity.
    + right. exists p. auto.
Qed.

Lemma join_first_labelled (all_params : Params) (q : Profile) (fq : gset string)
    (clusters cs' : list cluster) :
  Forall (fun n => is_Some (all_params !! n)) (params q) ->
  Forall (cluster_labelled all_params) clusters ->
  join_first q fq clusters = Some cs' ->
  Forall (cluster_labelled all_params) cs'.
Proof.
  intros Hq Hall. revert cs'.
  induction Hall as [|[[d pn] pv] rest [Hpv Hres] Hrest IH]; simpl; intros cs' H;
    [discriminate|].
  simpl in Hpv, Hres.
  destruct (bool_decide (fq ∩ pv ≠ ∅)).
  - injection H as <-. constructor; [|exact Hrest]. split; simpl.
    + intros E. apply Hpv. set_solver.
    + apply List.Forall_app. split; assumption.
  - destruct (join_first q fq rest) as [rest'|]; [|discriminate].
    injection H as <-. constructor; [split; assumption|]. apply IH. reflexivity.
Qed.

(** When every profile has a free name the scan succeeds and leaves only
    clusters that the second loop can label. *)
Lemma scan_labelled (all_params : Params) (todo : list Profile)
    (clusters : list cluster) :
  (forall p, In p todo ->
             exists s, pnames_vary_of all_params (params p) = Ok s /\ s ≠ ∅) ->
  Forall (cluster_labelled all_params) clusters ->
  exists cs', scan all_params todo clusters = Ok cs'
              /\ Forall (cluster_labelled all_params) cs'.
Proof.
  revert clusters. induction todo as [|q todo IH]; simpl; intros clusters Hall Hcl.
  - exists clusters. auto.
  - destruct (Hall q (or_introl eq_refl)) as (fq & Efq & Hne).
    pose proof (pnames_vary_of_resolved _ _ _ Efq) as Hres.
    unfold add_profile. rewrite Efq. simpl.
    destruct (join_first q fq clusters) as [cs1|] eqn:J; simpl.
    + apply IH; [intros; apply Hall; right; assumption|].
      apply (join_first_labelled all_params q fq clusters); assumption.
    + apply IH; [intros; apply Hall; right; assumption|].
      apply List.Forall_app. split; [exact Hcl|].
      constructor; [|constructor]. split; assumption.
Qed.

Lemma scan_resolves (all_params : Params) (todo : list Profile)
    (clusters cs' : list cluster) (p : Profile) :
  scan all_params todo clusters = Ok cs' -> In p todo ->
  exists s, pnames_vary_of all_params (params p) = Ok s.
Proof.
  revert clusters. induction todo as [|q todo IH]; simpl; intros clusters H Hin;
    [contradiction|].
  destruct (add_profile all_params clusters q) as [cs1|] eqn:A; simpl in H;
    [|discriminate].
  destruct Hin as [<-|Hin]; [|apply (IH cs1 H Hin)].
  unfold add_profile in A.
  destruct (pnames_vary_of all_params (params q)) as [fq|]; [eauto|discriminate].
Qed.

Lemma join_first_keeps_member (q : Profile) (fq : gset string)
    (clusters cs' : list cluster) (c : cluster) :
  In c clusters -> snd c = ∅ ->
  join_first q fq clusters = Some cs' -> In c cs'.
Proof.
  intros Hin Hc. revert cs'.
  induction clusters as [|[[d pn] pv] rest IH]; simpl; intros cs' H;
    [discriminate|].
  destruct Hin as [<-|Hin].
  - simpl in Hc. subst pv.
    rewrite bool_decide_eq_false_2 in H
      by (intros E; apply E; apply right_absorb_L; apply _).
    destruct (join_first q fq rest); [|discriminate].
    injection H as <-. left. reflexivity.
  - destruct (bool_decide (fq ∩ pv ≠ ∅)).
    + injection H as <-. right. exact Hin.
    + destruct (join_first q fq rest) as [rest'|]; [|discriminate].
      injection H as <-. right. apply IH; auto.
Qed.

(** The cluster that a profile without free names starts is still there,
    unchanged, when the scan ends. *)
Lemma scan_keeps_member (all_params : Params) (todo : list Profile)
    (clusters cs' : list cluster) (p : Profile) :
  In ([p], params p, ∅) clusters
  \/ (In p todo /\ pnames_vary_of all_params (params p) = Ok ∅) ->
  scan all_params todo clusters = Ok cs' ->
  In ([p], params p, ∅) cs'.
Proof.
  revert clusters. induction todo as [|q todo IH]; simpl; intros clusters Hor H.
  - injection H as <-. destruct Hor as [Hin|[[] _]]. exact Hin.
  - destruct (add_profile all_params clusters q) as [cs1|] eqn:A; simpl in H;
      [|discriminate].
    apply (IH cs1); [|exact H].
    unfold add_profile in A.
    destruct (pnames_vary_of all_params (params q)) as [fq|] eqn:E; simpl in A;
      [|discriminate].
    destruct Hor as [Hin|[[<-|Hp] Hempty]].
    + left. destruct (join_first q fq clusters) as [cs''|] eqn:J;
        injection A as <-.
      * apply (join_first_keeps_member q fq clusters); auto.
      * apply in_or_app. left. exact Hin.
    + left. rewrite E in Hempty. injection Hempty as ->.
      rewrite join_first_empty in A. injection A as <-.
      apply in_or_app. right. left. reflexivity.
    + right. auto.
Qed.

(** A profile without free names makes the partitioner raise [KeyError]. *)
Lemma no_free_name_KeyError (data : list Profile) (all_params : Params) (p : Profile) :
  In p data -> pnames_vary_of all_params (params p) = Ok ∅ ->
  fst (find_independent_clusters data all_params) = Raise KeyError.
Proof.
  intros Hin Hp.
  destruct (fst (find_independent_clusters data all_params)) as [cs|e] eqn:F.
  - exfalso.
    destruct (find_independent_clusters_Ok _ _ _ F) as (clusters & cs_ & ap' & S & Lb & _).
    assert (Hex : Exists (fun c : cluster => snd c = ∅) clusters).
    { apply (scan_keeps_empty all_params data [] clusters); [|exact S].
      right. exists p. auto. }
    pose proof (label_empty all_params clusters Hex) as L.
    rewrite Lb in L. discriminate.
  - f_equal. apply (find_independent_clusters_error _ _ _ F).
Qed.

End PartitionFacts.

(* ===================================================================== *)
(** * Claims on [fitting.py]: the partition into clusters                 *)
(* ===================================================================== *)

Section PartitionClaims.

Import Lmfit Fitting PartitionSpec.

Context {PN : ParameterNames}.

(** C7 (as amended).  The partitioner groups profiles by shared free
    parameters only: two profiles of one cluster are linked by a chain of
    profiles of the dataset in which neighbours share a parameter that
    varies and is not bound to an expression; and in a dataset of two
    profiles, the two are in one cluster when they share such a parameter
    and in two distinct clusters when they do not. *)
Theorem clusters_by_free_parameters (data : list Profile) (all_params : Params)
    (clusters : list (ParameterName * DataSet * Params)) :
  fst (find_independent_clusters data all_params) = Ok clusters ->
  (forall c p q,
      In c clusters -> In p (profiles_of c) -> In q (profiles_of c) ->
      linked all_params data p q)
  /\ (forall p q,
        data = [p; q] -> shares all_params p q ->
        exists c, clusters = [c] /\ profiles_of c = [p; q])
  /\ (forall p q,
        data = [p; q] -> ~ shares all_params p q ->
        exists c1 c2,
          (clusters = [c1; c2] \/ clusters = [c2; c1])
          /\ profiles_of c1 = [p] /\ profiles_of c2 = [q]).
Proof.
  intros H. split; [|split].
  - intros c p q. apply same_cluster_linked. exact H.
  - intros p q -> Hs. apply (proj1 (two_profiles p q all_params clusters H) Hs).
  - intros p q -> Hs. apply (proj2 (two_profiles p q all_params clusters H) Hs).
Qed.


End PartitionClaims.

Section PartitionClaimsAtExamples.

Import Lmfit Fitting PartitionSpec Examples.

#[local] Existing Instance plain_names.

Lemma free_names_A : free_names params_abf profile_A = {["a"]}.
Proof. vm_compute. reflexivity. Qed.

Lemma free_names_B : free_names params_abf profile_B = {["b"]}.
Proof. vm_compute. reflexivity. Qed.

Lemma free_names_C : free_names params_abf profile_C = {["a"; "b"]}.
Proof. vm_compute. reflexivity. Qed.

Lemma shares_A_C : shares params_abf profile_A profile_C.
Proof. unfold shares. rewrite free_names_A, free_names_C. set_solver. Qed.

Lemma shares_B_C : shares params_abf profile_B profile_C.
Proof. unfold shares. rewrite free_names_B, free_names_C. set_solver. Qed.

Lemma not_shares_A_B : ~ shares params_abf profile_A profile_B.
Proof.
  unfold shares. rewrite free_names_A, free_names_B. intros H. apply H.
  set_solver.
Qed.

Lemma clusters_by_free_parameters_witness :
  (exists clusters,
      fst (find_independent_clusters [profile_A; profile_C] params_abf) = Ok clusters
      /\ (forall c p q,
            In c clusters -> In p (profiles_of c) -> In q (profiles_of c) ->
            linked params_abf [profile_A; profile_C] p q)
      /\ exists c, clusters = [c] /\ profiles_of c = [profile_A; profile_C])
  /\ (exists clusters,
        fst (find_independent_clusters [profile_A; profile_B] params_abf)
        = Ok clusters
        /\ exists c1 c2,
             (clusters = [c1; c2] \/ clusters = [c2; c1])
             /\ profiles_of c1 = [profile_A] /\ profiles_of c2 = [profile_B]).
Proof.
  split.
  - destruct (fst (find_independent_clusters [profile_A; profile_C] params_abf))
      as [clusters|] eqn:E; [|vm_compute in E; discriminate].
    exists clusters. split; [reflexivity|].
    destruct (clusters_by_free_parameters _ _ _ E) as (H1 & H2 & _).
    split; [exact H1|]. apply H2; [reflexivity|exact shares_A_C].
  - destruct (fst (find_independent_clusters [profile_A; profile_B] params_abf))
      as [clusters|] eqn:E; [|vm_compute in E; discriminate].
    exists clusters. split; [reflexivity|].
    destruct (clusters_by_free_parameters _ _ _ E) as (_ & _ & H3).
    apply H3; [reflexivity|exact not_shares_A_B].
Defined.

(** C7 as stated fails in both directions.  In the dataset A, B, C the
    profiles B and C share the free parameter b, yet C joins the cluster of
    A, the first it meets, and B stays in a cluster of its own.  In the
    dataset A, C, B the profiles A and B have the fixed parameter f as
    their only common parameter, yet they are in one cluster, linked by
    C. *)
Lemma clusters_counterexample :
  (fmap (map profiles_of)
     (fst (find_independent_clusters [profile_A; profile_B; profile_C] params_abf))
   = Ok [[profile_A; profile_C]; [profile_B]]
   /\ shares params_abf profile_B profile_C)
  /\ (fmap (map profiles_of)
        (fst (find_independent_clusters [profile_A; profile_C; profile_B]
                params_abf))
      = Ok [[profile_A; profile_C; profile_B]]
      /\ ~ shares params_abf profile_A profile_B).
Proof.
  split; split.
  - vm_compute. reflexivity.
  - exact shares_B_C.
  - vm_compute. reflexivity.
  - exact not_shares_A_B.
Qed.


End PartitionClaimsAtExamples.

(* ===================================================================== *)
(** * Claims on [fitting.py]: the fit driver                              *)
(* ===================================================================== *)

Section DriverClaims.

Import Lmfit Fitting.

Context {PN : ParameterNames}.
Variable minimize : minimize_call -> outcome.


End DriverClaims.

Section DriverClaimsAtExamples.

Import Lmfit Fitting Examples.

#[local] Existing Instance plain_names.



End DriverClaimsAtExamples.

(* ===================================================================== *)
(** * Further properties of [cpmg_profile.py]                             *)
(* ===================================================================== *)

Section ProfileInit.

Import CpmgProfile ResampleSpec ExtraSpec.
Local Open Scope R_scope.

Lemma tau_cp_delay (time_t2 pw : R) (n : Z) :
  delay_of time_t2 pw n (tau_cp time_t2 pw n).
Proof.
  unfold delay_of, tau_cp. destruct (Z.ltb_spec 0 n) as [Hn|Hn].
  - split; [|split]; intros H; try (exfalso; lia).
    assert (IZR n <> 0) by (apply not_0_IZR; lia). field. assumption.
  - destruct (Z.eqb_spec n 0) as [E|E]; simpl; (split; [|split]);
      intros H; try (exfalso; lia); reflexivity.
Qed.



End ProfileInit.

Section Frequencies.

Import CpmgProfile ResampleSpec ExtraSpec.
Local Open Scope R_scope.

Lemma div_scalar_Ok (a : list R) (s : R) :
  s <> 0 -> Np.div_scalar a s = Ok (map (fun x => x / s) a).
Proof.
  intros Hs. unfold Np.div_scalar. apply mapM_total. intros x _.
  destruct (Req_dec_T s 0); [contradiction|reflexivity].
Qed.

Lemma div_scalar_zero (a : list R) :
  a <> [] -> Np.div_scalar a 0 = Raise FloatNotFinite.
Proof.
  destruct a as [|x a]; [congruence|]. intros _. unfold Np.div_scalar. simpl.
  destruct (Req_dec_T 0 0); [reflexivity|contradiction].
Qed.

(** X2.  With a positive [time_t2], [ncycs_to_nu_cpmgs()] returns one
    frequency per point: [ncyc / time_t2] for a cycle count that is not
    negative, [0.5 / time_t2] for a negative one, never negative, and zero
    exactly at the reference points.  With [time_t2 = 0] a profile that has
    points gets no finite frequency. *)
Theorem ncycs_to_nu_cpmgs_frequencies (self : CPMGProfile) :
  (0 < time_t2 self ->
   exists nu,
     ncycs_to_nu_cpmgs self None = Ok nu
     /\ Forall2 (frequency_of (time_t2 self)) (ncycs self) nu)
  /\ (time_t2 self = 0 -> ncycs self <> [] ->
      ncycs_to_nu_cpmgs self None = Raise FloatNotFinite).
Proof.
  split.
  - intros HT. unfold ncycs_to_nu_cpmgs.
    rewrite div_scalar_Ok by lra. eexists. split; [reflexivity|].
    rewrite map_map. induction (ncycs self) as [|n l IH]; simpl; constructor;
      [|exact IH].
    unfold frequency_of. destruct (Z.leb_spec 0 n) as [Hn|Hn].
    + assert (0 <= IZR n) by (apply IZR_le in Hn; exact Hn).
      split; [intros _; field; lra|]. split; [intros; exfalso; lia|]. split.
      * apply Rmult_le_pos; [assumption|]. apply Rlt_le, Rinv_0_lt_compat, HT.
      * split.
        -- intros E. apply Rmult_integral in E. destruct E as [E|E].
           ++ apply eq_IZR. exact E.
           ++ exfalso. apply (Rinv_neq_0_compat (time_t2 self)); [lra|exact E].
        -- intros ->. unfold Rdiv. ring.
    + split; [intros; exfalso; lia|]. split; [intros _; field; lra|]. split.
      * apply Rmult_le_pos; [lra|]. apply Rlt_le, Rinv_0_lt_compat, HT.
      * split.
        -- intros E. exfalso.
           assert (0 < 5 / 10 / time_t2 self).
           { apply Rdiv_lt_0_compat; lra. }
           lra.
        -- intros ->. lia.
  - intros HT Hne. unfold ncycs_to_nu_cpmgs. rewrite HT.
    apply div_scalar_zero. intros E. apply map_eq_nil in E. contradiction.
Qed.

Lemma ncycs_to_nu_cpmgs_frequencies_witness :
  (exists nu,
      ncycs_to_nu_cpmgs profile_two_points None = Ok nu
      /\ Forall2 (frequency_of (time_t2 profile_two_points))
           (ncycs profile_two_points) nu)
  /\ ncycs_to_nu_cpmgs (init "A1N-HN" [0; 2]%Z [10; 8] [1; 2] 0 0) None
     = Raise FloatNotFinite.
Proof.
  split.
  - apply (proj1 (ncycs_to_nu_cpmgs_frequencies profile_two_points)).
    simpl. lra.
  - apply (proj2 (ncycs_to_nu_cpmgs_frequencies
                    (init "A1N-HN" [0; 2]%Z [10; 8] [1; 2] 0 0))).
    + reflexivity.
    + discriminate.
Defined.

End Frequencies.

Section ScaleOutcomes.

Import CpmgProfile ScaleSpec ExtraSpec.
Local Open Scope R_scope.

Lemma denominator_pos_nz (pts : list (R * R * R)) :
  Forall (fun t => uncertainty t <> 0) pts ->
  Exists (fun t => predicted t <> 0) pts ->
  0 < denominator pts.
Proof.
  intros Hnz Hex. unfold denominator. apply Rsum_pos.
  - rewrite List.Forall_map. apply List.Forall_forall. intros t _. apply pow2_ge_0.
  - rewrite List.Exists_map. rewrite List.Exists_exists in *.
    destruct Hex as (t & Hin & Hp). exists t. split; [assumption|].
    rewrite List.Forall_forall in Hnz. specialize (Hnz t Hin).
    assert (predicted t / uncertainty t <> 0).
    { unfold Rdiv. apply Rmult_integral_contrapositive_currified; [assumption|].
      apply Rinv_neq_0_compat. assumption. }
    pose proof (pow2_ge_0 (predicted t / uncertainty t)).
    pose proof (pow_nonzero _ 2 H). lra.
Qed.

(** The scale of a profile with nonzero uncertainties. *)
Lemma calculate_scale_quotient (self : CPMGProfile) (cal : list R) :
  length cal = length (val self) ->
  length (val self) = length (err self) ->
  Forall (fun e => e <> 0) (err self) ->
  cal <> [] ->
  let pts := points cal (val self) (err self) in
  calculate_scale self cal
  = if Req_dec_T (denominator pts) 0 then Raise FloatNotFinite
    else Ok (numerator pts / denominator pts).
Proof.
  intros H1 H2 Hnz Hne pts.
  destruct (points_split cal (val self) (err self) H1 H2) as (Hc & Hv & He).
  fold pts in Hc, Hv, He.
  rewrite Hc at 1. rewrite (calculate_scale_points self pts Hv He).
  2: { apply (Forall_points_err (fun e => e <> 0)). exact Hnz. }
  unfold Np.sum_div. rewrite !sum_Rsum.
  fold (numerator pts). fold (denominator pts).
  assert (Hp : pts <> []).
  { intros E. apply Hne. rewrite Hc, E. reflexivity. }
  clearbody pts. destruct pts as [|t pts']; [congruence|]. reflexivity.
Qed.

Lemma mapM_div1_fail (ps : list (R * R)) :
  Exists (fun xy => snd xy = 0) ps -> mapM Np.div1 ps = Raise FloatNotFinite.
Proof.
  induction 1 as [[x y] ps Hy|[x y] ps _ IH]; simpl.
  - simpl in Hy. unfold Np.div1. simpl.
    destruct (Req_dec_T y 0); [reflexivity|contradiction].
  - unfold Np.div1 at 1. simpl. destruct (Req_dec_T y 0); [reflexivity|].
    simpl. rewrite IH. reflexivity.
Qed.

Lemma Exists_combine_r {A} (P : R -> Prop) (a : list A) (b : list R) :
  length a = length b -> Exists P b ->
  Exists (fun xy => P (snd xy)) (combine a b).
Proof.
  revert b. induction a as [|x a IH]; intros [|y b] H Hex; simpl in *;
    try discriminate; inversion Hex; subst.
  - apply Exists_cons_hd. assumption.
  - apply Exists_cons_tl. apply IH; [lia|assumption].
Qed.

Lemma broadcast_mismatch {A B} (a : list A) (b : list B) :
  length a <> length b -> length a <> 1%nat -> length b <> 1%nat ->
  Np.broadcast a b = Raise ValueError.
Proof.
  intros Hab Ha Hb. unfold Np.broadcast.
  apply Nat.eqb_neq in Hab. rewrite Hab.
  destruct a as [|x [|x' a]]; destruct b as [|y [|y' b]]; simpl in *;
    try reflexivity; congruence.
Qed.

(** X3.  How [calculate_scale] fails.  Arrays whose lengths differ, none of
    them 1, are a [ValueError].  On arrays of one length: the empty profile
    is a [ZeroDivisionError]; a profile with points has no finite scale
    when one of its uncertainties is zero or when the predicted curve is
    identically zero. *)
Theorem calculate_scale_failures (self : CPMGProfile) (cal : list R) :
  (length cal <> length (val self) -> length cal <> 1%nat ->
   length (val self) <> 1%nat ->
   calculate_scale self cal = Raise ValueError)
  /\ (length cal = length (val self) -> length (val self) = length (err self) ->
      (cal = [] -> calculate_scale self cal = Raise ZeroDivisionError)
      /\ (Exists (fun e => e = 0) (err self) ->
          calculate_scale self cal = Raise FloatNotFinite)
      /\ (cal <> [] -> Forall (fun p => p = 0) cal ->
          calculate_scale self cal = Raise FloatNotFinite)).
Proof.
  split.
  - intros H1 H2 H3. unfold calculate_scale, Np.mul.
    rewrite broadcast_mismatch by assumption. reflexivity.
  - intros H1 H2. split; [|split].
    + intros ->. unfold calculate_scale.
      destruct (val self) as [|v vs]; [|discriminate].
      destruct (err self) as [|e es]; [|discriminate]. reflexivity.
    + intros Hex. unfold calculate_scale.
      rewrite mul_same by exact H1. cbn [Py.bind].
      unfold Np.div at 1. rewrite broadcast_same.
      2: { unfold Np.square. rewrite !length_map, length_combine. lia. }
      cbn [Py.bind]. rewrite mapM_div1_fail; [reflexivity|].
      apply (Exists_combine_r (fun y => y = 0)).
      * unfold Np.square. rewrite !length_map, length_combine. lia.
      * unfold Np.square. rewrite List.Exists_map.
        revert Hex. apply List.Exists_impl. intros e ->. ring.
    + intros Hne Hz.
      destruct (List.Forall_Exists_dec (fun e => e <> 0)
                  (fun e => match Req_dec_T e 0 with
                            | left E => right (fun H => H E)
                            | right N => left N
                            end) (err self)) as [Hnz|Hex].
      * rewrite (calculate_scale_quotient self cal H1 H2 Hnz Hne). cbv zeta.
        rewrite (denominator_zero _ (Forall_points_cal (fun p => p = 0) _ _ _ Hz)).
        destruct (Req_dec_T 0 0); [reflexivity|contradiction].
      * unfold calculate_scale.
        rewrite mul_same by exact H1. cbn [Py.bind].
        unfold Np.div at 1. rewrite broadcast_same.
        2: { unfold Np.square. rewrite !length_map, length_combine. lia. }
        cbn [Py.bind]. rewrite mapM_div1_fail; [reflexivity|].
        apply (Exists_combine_r (fun y => y = 0)).
        -- unfold Np.square. rewrite !length_map, length_combine. lia.
        -- unfold Np.square. rewrite List.Exists_map.
           revert Hex. apply List.Exists_impl. intros e He.
           destruct (Req_dec_T e 0) as [->|N]; [ring|contradiction].
Qed.

Lemma calculate_scale_failures_witness :
  calculate_scale profile_two_points [1; 2; 3] = Raise ValueError
  /\ calculate_scale (init "empty" [] [] [] 1 0) [] = Raise ZeroDivisionError
  /\ calculate_scale (init "A1N-HN" [0; 2]%Z [10; 8] [1; 0] 1 0) [1; 1]
     = Raise FloatNotFinite
  /\ calculate_scale profile_two_points [0; 0] = Raise FloatNotFinite.
Proof.
  split; [|split; [|split]].
  - apply (proj1 (calculate_scale_failures profile_two_points [1; 2; 3]));
      simpl; lia.
  - destruct (proj2 (calculate_scale_failures (init "empty" [] [] [] 1 0) [])
                eq_refl eq_refl) as (H & _ & _).
    apply H. reflexivity.
  - destruct (proj2 (calculate_scale_failures
                       (init "A1N-HN" [0; 2]%Z [10; 8] [1; 0] 1 0) [1; 1])
                eq_refl eq_refl) as (_ & H & _).
    apply H. simpl. apply Exists_cons_tl, Exists_cons_hd. reflexivity.
  - destruct (proj2 (calculate_scale_failures profile_two_points [0; 0])
                eq_refl eq_refl) as (_ & _ & H).
    apply H; [discriminate|repeat constructor].
Defined.

End ScaleOutcomes.

Section LeastSquaresFacts.

Import CpmgProfile ScaleSpec ExtraSpec.
Local Open Scope R_scope.

Lemma normal_sum (s : R) (pts : list (R * R * R)) :
  Forall (fun t => uncertainty t <> 0) pts ->
  Rsum (map (fun t => predicted t * (s * predicted t - measured t)
                      / uncertainty t ^ 2) pts)
  = s * denominator pts - numerator pts.
Proof.
  unfold denominator, numerator.
  induction 1 as [|t pts Ht _ IH]; simpl.
  - ring.
  - simpl in IH. rewrite IH. field. exact Ht.
Qed.



Lemma numerator_exact (s0 : R) (pts : list (R * R * R)) :
  Forall (fun t => uncertainty t <> 0) pts ->
  Forall (fun t => measured t = s0 * predicted t) pts ->
  numerator pts = s0 * denominator pts.
Proof.
  unfold numerator, denominator.
  induction 1 as [|t pts Ht _ IH]; intros Hm; simpl.
  - ring.
  - inversion Hm as [|? ? Hmt Hrest]; subst. simpl in IH. rewrite (IH Hrest).
    rewrite Hmt. field. exact Ht.
Qed.

Lemma points_exact (s0 : R) (cal err : list R) :
  Forall (fun t => measured t = s0 * predicted t)
         (points cal (map (Rmult s0) cal) err).
Proof.
  unfold points. revert err. induction cal as [|p cal IH]; intros [|e err];
    simpl; constructor.
  - reflexivity.
  - apply IH.
Qed.



End LeastSquaresFacts.

Section IntensityFree.

Import CpmgProfile ScaleSpec ExtraSpec.
Local Open Scope R_scope.

Lemma mul_scal_l (k : R) (a b : list R) :
  Np.mul (map (Rmult k) a) b = fmap (map (Rmult k)) (Np.mul a b).
Proof.
  transitivity (Np.mul (map (Rmult k) a) (map (fun x => x) b));
    [rewrite map_id; reflexivity|].
  unfold Np.mul. rewrite broadcast_map.
  destruct (Np.broadcast a b) as [ps|]; simpl; [|reflexivity].
  f_equal. rewrite !map_map. apply map_ext. intros [x y]. simpl. ring.
Qed.

Lemma div_scal_l (k : R) (a b : list R) :
  Np.div (map (Rmult k) a) b = fmap (map (Rmult k)) (Np.div a b).
Proof.
  transitivity (Np.div (map (Rmult k) a) (map (fun x => x) b));
    [rewrite map_id; reflexivity|].
  apply div_map.
  - intros y. tauto.
  - intros x y Hy. field. exact Hy.
Qed.

(** Multiplying the predicted curve by [k] divides the scale by [k]. *)
Lemma calculate_scale_predicted (k : R) (self : CPMGProfile) (cal : list R) :
  k <> 0 ->
  calculate_scale self (map (Rmult k) cal)
  = fmap (Rmult (/ k)) (calculate_scale self cal).
Proof.
  intros Hk. unfold calculate_scale. rewrite mul_scal_l.
  destruct (Np.mul cal (val self)) as [cv|]; simpl; [|reflexivity].
  rewrite div_scal_l.
  destruct (Np.div cv (Np.square (err self))) as [num|]; simpl; [|reflexivity].
  rewrite div_scal_l.
  destruct (Np.div cal (err self)) as [q|]; simpl; [|reflexivity].
  pose proof (sum_div_scal (/ k) num q (Rinv_neq_0_compat k Hk)) as H.
  rewrite Rinv_inv in H. exact H.
Qed.



End IntensityFree.

Section ProfileCache.

Import CpmgProfile ExtraSpec.
Local Open Scope R_scope.

Lemma kwargs_eqb_refl (a : kwargs) : kwargs_eqb a a = true.
Proof.
  induction a as [|[n x] a IH]; simpl; [reflexivity|].
  rewrite String.eqb_refl, float_eqb_refl, IH. reflexivity.
Qed.

Lemma call_Ok {K V} (eqb : K -> K -> bool) (f : K -> result V) (k : K)
    (c : Lru.cache K V) (x : V) :
  f k = Ok x -> exists v, fst (Lru.call eqb f k c) = Ok v.
Proof.
  intros H. unfold Lru.call. destruct (Lru.find eqb k (Lru.entries c)) as [v|].
  - exists v. reflexivity.
  - rewrite H. exists x. reflexivity.
Qed.

Lemma call_find {K V} (eqb : K -> K -> bool) (f : K -> result V) (k : K)
    (c : Lru.cache K V) (v : V) :
  (forall k, eqb k k = true) ->
  (0 < Lru.maxsize c)%nat ->
  fst (Lru.call eqb f k c) = Ok v ->
  Lru.find eqb k (Lru.entries (snd (Lru.call eqb f k c))) = Some v.
Proof.
  intros Hrefl Hm. unfold Lru.call.
  destruct (Lru.find eqb k (Lru.entries c)) as [v'|].
  - simpl. intros H. injection H as ->. rewrite Hrefl. reflexivity.
  - destruct (f k) as [v'|e]; simpl; [|discriminate].
    intros H. injection H as ->.
    destruct (Lru.maxsize c) as [|m]; [lia|]. simpl. rewrite Hrefl. reflexivity.
Qed.

(** X7.  Once [calculate_profile] has run with parameters for which the
    unscaled curve can be computed, a further call with parameters that
    give the same keyword arguments is served from the cache: the result
    is the same, the cache counts one more hit and no more miss, and the
    unscaled calculation is not run, so that what it would return now does
    not matter. *)
Theorem calculate_profile_served_from_cache
    (calculate_unscaled_profile calculate_unscaled_profile' :
       CPMGProfile -> kwargs -> result Np.ndarray)
    (self : CPMGProfile) (params params' : Lmfit.Params) (kw : kwargs)
    (cal : Np.ndarray) :
  (0 < Lru.maxsize (calculate_unscaled_profile_cached self))%nat ->
  make_kwargs self params = Ok kw ->
  make_kwargs self params' = Ok kw ->
  calculate_unscaled_profile self kw = Ok cal ->
  let first := calculate_profile calculate_unscaled_profile self params in
  exists self2,
    calculate_profile calculate_unscaled_profile' (snd first) params'
    = (fst first, self2)
    /\ Lru.hits (calculate_unscaled_profile_cached self2)
       = S (Lru.hits (calculate_unscaled_profile_cached (snd first)))
    /\ Lru.misses (calculate_unscaled_profile_cached self2)
       = Lru.misses (calculate_unscaled_profile_cached (snd first)).
Proof.
  intros Hm Hkw Hkw' Hcal first. subst first. unfold calculate_profile at 2 3 4 5.
  rewrite Hkw.
  destruct (call_Ok kwargs_eqb (calculate_unscaled_profile self) kw
              (calculate_unscaled_profile_cached self) cal Hcal) as [v Hv].
  pose proof (call_find kwargs_eqb (calculate_unscaled_profile self) kw
                (calculate_unscaled_profile_cached self) v kwargs_eqb_refl Hm Hv)
    as Hfind.
  destruct (Lru.call kwargs_eqb (calculate_unscaled_profile self) kw
              (calculate_unscaled_profile_cached self)) as [r c].
  cbn [fst snd] in *. subst r.
  unfold calculate_profile.
  change (make_kwargs (set_cache self c) params') with (make_kwargs self params').
  rewrite Hkw'. unfold Lru.call.
  cbn [calculate_unscaled_profile_cached set_cache]. rewrite Hfind.
  eexists. split; [reflexivity|]. split; reflexivity.
Qed.

Lemma calculate_profile_served_from_cache_witness :
  let first := calculate_profile Examples.unscaled_decay Examples.profile_G23N
                 Examples.params_kex in
  exists self2,
    calculate_profile Examples.unscaled_zero (snd first) Examples.params_kex
    = (fst first, self2)
    /\ Lru.hits (calculate_unscaled_profile_cached self2)
       = S (Lru.hits (calculate_unscaled_profile_cached (snd first)))
    /\ Lru.misses (calculate_unscaled_profile_cached self2)
       = Lru.misses (calculate_unscaled_profile_cached (snd first)).
Proof.
  apply (calculate_profile_served_from_cache Examples.unscaled_decay
           Examples.unscaled_zero Examples.profile_G23N Examples.params_kex
           Examples.params_kex [("kex", 500)]
           (map (fun n => 1 / (1 + IZR n)) (ncycs Examples.profile_G23N))).
  - simpl. lia.
  - reflexivity.
  - reflexivity.
  - reflexivity.
Defined.

Lemma make_kwargs_missing (self : CPMGProfile) (params : Lmfit.Params)
    (short_name long_name : string) :
  In (short_name, long_name) (map_names self) ->
  params !! long_name = None ->
  make_kwargs self params = Raise KeyError.
Proof.
  unfold make_kwargs. intros Hin Hnone.
  induction (map_names self) as [|[s l] names IH]; [contradiction|].
  simpl. unfold Lmfit.getitem at 1.
  destruct (params !! l) as [p|] eqn:E; [|reflexivity].
  destruct Hin as [Heq|Hin]; [injection Heq as -> ->; congruence|].
  cbn [Py.bind]. rewrite (IH Hin). reflexivity.
Qed.

(** X8.  When a parameter that the profile maps is missing from [params],
    [calculate_profile] raises [KeyError] before anything is computed: the
    profile and its cache are as they were. *)
Theorem calculate_profile_missing_parameter
    (calculate_unscaled_profile : CPMGProfile -> kwargs -> result Np.ndarray)
    (self : CPMGProfile) (params : Lmfit.Params) (short_name long_name : string) :
  In (short_name, long_name) (map_names self) ->
  params !! long_name = None ->
  calculate_profile calculate_unscaled_profile self params
  = (Raise KeyError, self).
Proof.
  intros Hin Hnone. unfold calculate_profile.
  rewrite (make_kwargs_missing self params short_name long_name Hin Hnone).
  reflexivity.
Qed.

Lemma calculate_profile_missing_parameter_witness :
  calculate_profile Examples.unscaled_decay Examples.profile_G23N ∅
  = (Raise KeyError, Examples.profile_G23N).
Proof.
  apply (calculate_profile_missing_parameter Examples.unscaled_decay
           Examples.profile_G23N ∅ "kex" "KEX,TEMPERATURE->25.0C").
  - left. reflexivity.
  - reflexivity.
Defined.

End ProfileCache.

Section CacheTransparency.

Import CpmgProfile ExtraSpec.
Local Open Scope R_scope.

Lemma call_maxsize {K V} (eqb : K -> K -> bool) (f : K -> result V) (k : K)
    (c : Lru.cache K V) :
  Lru.maxsize (snd (Lru.call eqb f k c)) = Lru.maxsize c.
Proof.
  unfold Lru.call. destruct (Lru.find eqb k (Lru.entries c)); [reflexivity|].
  destruct (f k); reflexivity.
Qed.

Lemma call_length {K V} (eqb : K -> K -> bool) (f : K -> result V) (k : K)
    (c : Lru.cache K V) :
  (length (Lru.entries c) <= Lru.maxsize c)%nat ->
  (length (Lru.entries (snd (Lru.call eqb f k c))) <= Lru.maxsize c)%nat.
Proof.
  intros Hc. unfold Lru.call.
  destruct (Lru.find eqb k (Lru.entries c)) as [v|] eqn:E.
  - cbn [snd Lru.touch Lru.entries length].
    rewrite (remove_length eqb k _ v E). exact Hc.
  - destruct (f k) as [v|e]; cbn [snd]; [|exact Hc].
    cbn [Lru.store Lru.entries]. rewrite length_firstn. lia.
Qed.

Variable calculate_unscaled_profile : CPMGProfile -> kwargs -> result Np.ndarray.
Hypothesis Hignores : ignores_cache calculate_unscaled_profile.

Lemma evaluated_cache (self0 self : CPMGProfile) :
  calculate_unscaled_profile_cached self0 = Lru.empty 5 ->
  evaluated calculate_unscaled_profile self0 self ->
  Lru.maxsize (calculate_unscaled_profile_cached self) = 5%nat
  /\ (length (Lru.entries (calculate_unscaled_profile_cached self)) <= 5)%nat
  /\ Lru.coherent (calculate_unscaled_profile self)
       (calculate_unscaled_profile_cached self).
Proof.
  intros Hfresh. induction 1 as [|self params _ (Hm & Hl & Hc)].
  - rewrite Hfresh. split; [reflexivity|]. split; [simpl; lia|].
    apply coherent_empty.
  - unfold calculate_profile.
    destruct (make_kwargs self params) as [kw|e]; [|auto].
    pose proof (call_maxsize kwargs_eqb (calculate_unscaled_profile self) kw
                  (calculate_unscaled_profile_cached self)) as Hm'.
    pose proof (call_length kwargs_eqb (calculate_unscaled_profile self) kw
                  (calculate_unscaled_profile_cached self)) as Hl'.
    pose proof (call_coherent kwargs_eqb kwargs_eqb_eq
                  (calculate_unscaled_profile self) kw _ Hc) as Hc'.
    destruct (Lru.call kwargs_eqb (calculate_unscaled_profile self) kw
                (calculate_unscaled_profile_cached self)) as [r c].
    cbn [snd fst calculate_unscaled_profile_cached set_cache] in *.
    rewrite Hm in Hm', Hl'. split; [exact Hm'|]. split; [apply Hl', Hl|].
    intros k v Hin. rewrite Hignores. apply Hc', Hin.
Qed.

(** X23.  The cache of [calculate_profile] is transparent and bounded.  In
    every state that calls of [calculate_profile] lead to from a profile
    with a fresh cache, the cache holds at most five unscaled curves, and
    [calculate_profile] returns what it would compute without the cache,
    for an unscaled calculation that does not read the cache. *)
Theorem calculate_profile_transparent (self0 self : CPMGProfile)
    (params : Lmfit.Params) :
  calculate_unscaled_profile_cached self0 = Lru.empty 5 ->
  evaluated calculate_unscaled_profile self0 self ->
  (length (Lru.entries (calculate_unscaled_profile_cached self)) <= 5)%nat
  /\ fst (calculate_profile calculate_unscaled_profile self params)
     = calculate_profile_uncached calculate_unscaled_profile self params.
Proof.
  intros Hfresh Hev.
  destruct (evaluated_cache self0 self Hfresh Hev) as (_ & Hl & Hc).
  split; [exact Hl|].
  unfold calculate_profile, calculate_profile_uncached.
  destruct (make_kwargs self params) as [kw|e]; [|reflexivity].
  pose proof (call_value kwargs_eqb kwargs_eqb_eq
                (calculate_unscaled_profile self) kw _ Hc) as Hv.
  destruct (Lru.call kwargs_eqb (calculate_unscaled_profile self) kw
              (calculate_unscaled_profile_cached self)) as [r c].
  cbn [fst] in *. subst r. reflexivity.
Qed.

End CacheTransparency.

Section CacheTransparencyAtExamples.

Import CpmgProfile ExtraSpec.
Local Open Scope R_scope.

Lemma calculate_profile_transparent_witness :
  let self := snd (calculate_profile Examples.unscaled_decay
                     Examples.profile_G23N Examples.params_kex) in
  (length (Lru.entries (calculate_unscaled_profile_cached self)) <= 5)%nat
  /\ fst (calculate_profile Examples.unscaled_decay self Examples.params_kex)
     = calculate_profile_uncached Examples.unscaled_decay self
         Examples.params_kex.
Proof.
  apply (calculate_profile_transparent Examples.unscaled_decay
           (fun self c kw => eq_refl) Examples.profile_G23N).
  - reflexivity.
  - apply evaluated_step, evaluated_start.
Defined.

End CacheTransparencyAtExamples.

(* ===================================================================== *)
(** * Further properties of [cpmg_profile.py]: bootstrap resampling       *)
(* ===================================================================== *)

Section BootstrapFacts.

Import CpmgProfile ResampleSpec ExtraSpec.

Lemma filter_length_split {A} (f : A -> bool) (l : list A) :
  (length (List.filter f l) + length (List.filter (fun x => negb (f x)) l)
   = length l)%nat.
Proof.
  induction l as [|x l IH]; simpl; [reflexivity|].
  destruct (f x); simpl; lia.
Qed.

(** What [make_bs_profile] returns: the profile at a sorted list of as
    many indexes as there are points, with as many reference points. *)
Lemma make_bs_profile_at_indexes (self : CPMGProfile) (st : RandomState) :
  well_formed self ->
  (0 < n_non_reference self)%nat ->
  exists idx,
    fst (make_bs_profile self st) = Ok (at_indexes self idx)
    /\ StronglySorted le idx
    /\ Forall (fun i => (i < length (ncycs self))%nat) idx
    /\ length idx = length (ncycs self)
    /\ n_reference (at_indexes self idx) = n_reference self.
Proof.
  intros Hwf Hnon.
  pose proof (mask_length self Hwf) as Hmask.
  unfold make_bs_profile.
  rewrite (compress_same _ _ Hmask).
  rewrite (compress_same _ (map negb (reference self)))
    by (rewrite length_map; exact Hmask).
  destruct (pool1_draw self st) as (bs1 & st1 & Hc1 & Hl1 & Hin1).
  rewrite Hc1.
  destruct (choice_spec _ (length
             (map fst (List.filter snd
                (combine (seq 0 (length (val self)))
                         (map negb (reference self)))))) st1
             (pool2_nonempty self Hwf Hnon)) as (bs2 & Hc2 & Hl2 & Hin2).
  rewrite Hc2. cbn [fst Py.bind].
  set (idx := sorted (bs1 ++ bs2)).
  assert (Hperm : Permutation idx (bs1 ++ bs2)) by apply sorted_Permutation.
  assert (H1 : Forall (fun i => (i < length (ncycs self))%nat
                                /\ is_reference (nth i (ncycs self) 0%Z) = true) bs1).
  { revert Hin1. apply List.Forall_impl. intros x Hx.
    apply (pool1_spec self Hwf x Hx). }
  assert (H2 : Forall (fun i => (i < length (ncycs self))%nat
                                /\ is_reference (nth i (ncycs self) 0%Z) = false) bs2).
  { revert Hin2. apply List.Forall_impl. intros x Hx.
    apply (pool2_spec self Hwf x Hx). }
  assert (Hlt : Forall (fun i => (i < length (ncycs self))%nat) idx).
  { apply (Permutation_Forall (Permutation_sym Hperm)).
    apply List.Forall_app. split.
    - revert H1. apply List.Forall_impl. tauto.
    - revert H2. apply List.Forall_impl. tauto. }
  pose proof Hwf as (Hv & He & Ht & Hr).
  rewrite (take_ok 0%Z) by exact Hlt. cbn [Py.bind].
  rewrite (take_ok 0%R) by (rewrite Ht; exact Hlt). cbn [Py.bind].
  rewrite (take_ok 0%R) by (rewrite Hv; exact Hlt). cbn [Py.bind].
  rewrite (take_ok 0%R) by (rewrite He; exact Hlt). cbn [Py.bind].
  exists idx. split; [reflexivity|]. split; [apply sorted_StronglySorted|].
  split; [exact Hlt|]. split.
  - rewrite (Permutation_length Hperm), length_app, Hl1, Hl2.
    rewrite (pool1_length self Hwf), (pool2_length self Hwf).
    apply filter_length_split.
  - unfold n_reference at 1. cbn [ncycs at_indexes].
    rewrite filter_length_map.
    rewrite (filter_length_Permutation _ _ _ Hperm).
    rewrite List.filter_app, length_app.
    rewrite filter_length_all by (revert H1; apply List.Forall_impl; tauto).
    rewrite filter_length_none by (revert H2; apply List.Forall_impl; tauto).
    rewrite Hl1, (pool1_length self Hwf). lia.
Qed.

Lemma tau_cp_reference (time_t2 pw : R) : tau_cp time_t2 pw 0 = 0%R.
Proof. reflexivity. Qed.

(** X9.  Bootstrap resampling keeps the number of points, draws the
    delays together with the cycle counts, so that delays that were those
    of the cycle counts remain so, and gives the new profile an empty
    cache whatever the cache of the original holds: no curve computed for
    the original points is served for the resampled ones. *)
Theorem make_bs_profile_delays_and_cache (self : CPMGProfile) (st : RandomState) :
  well_formed self ->
  (0 < n_non_reference self)%nat ->
  exists profile,
    fst (make_bs_profile self st) = Ok profile
    /\ length (ncycs profile) = length (ncycs self)
    /\ length (val profile) = length (ncycs profile)
    /\ length (err profile) = length (ncycs profile)
    /\ length (tau_cp_list profile) = length (ncycs profile)
    /\ (delays_consistent self -> delays_consistent profile)
    /\ Lru.entries (calculate_unscaled_profile_cached profile) = []
    /\ Lru.hits (calculate_unscaled_profile_cached profile) = 0%nat
    /\ Lru.misses (calculate_unscaled_profile_cached profile) = 0%nat.
Proof.
  intros Hwf Hnon.
  destruct (make_bs_profile_at_indexes self st Hwf Hnon)
    as (idx & Hp & _ & _ & Hlen & _).
  exists (at_indexes self idx). split; [exact Hp|].
  cbn [at_indexes ncycs val err tau_cp_list time_t2 pw
       calculate_unscaled_profile_cached].
  rewrite !length_map.
  repeat split; try reflexivity; try exact Hlen.
  unfold delays_consistent.
  cbn [at_indexes ncycs tau_cp_list time_t2 pw].
  intros ->. rewrite map_map. apply map_ext. intros i.
  rewrite <- (tau_cp_reference (time_t2 self) (pw self)) at 1.
  apply map_nth.
Qed.

Lemma make_bs_profile_delays_and_cache_witness :
  exists profile,
    fst (make_bs_profile Examples.profile_G23N Examples.counting) = Ok profile
    /\ length (ncycs profile) = length (ncycs Examples.profile_G23N)
    /\ length (val profile) = length (ncycs profile)
    /\ length (err profile) = length (ncycs profile)
    /\ length (tau_cp_list profile) = length (ncycs profile)
    /\ (delays_consistent Examples.profile_G23N -> delays_consistent profile)
    /\ Lru.entries (calculate_unscaled_profile_cached profile) = []
    /\ Lru.hits (calculate_unscaled_profile_cached profile) = 0%nat
    /\ Lru.misses (calculate_unscaled_profile_cached profile) = 0%nat.
Proof.
  apply (make_bs_profile_delays_and_cache Examples.profile_G23N Examples.counting).
  - repeat split; reflexivity.
  - unfold n_non_reference. simpl. lia.
Defined.

Lemma is_reference_positive (x : Z) (l : list Z) :
  (0 < x)%Z -> Forall (Z.le x) l ->
  map is_reference l = repeat false (length l)
  /\ List.filter is_reference l = [].
Proof.
  intros Hx. induction 1 as [|y l Hy _ IH]; simpl; [split; reflexivity|].
  destruct IH as [IH1 IH2].
  destruct (is_reference y) eqn:E.
  - unfold is_reference in E. apply Z.eqb_eq in E. lia.
  - rewrite IH1, IH2. split; reflexivity.
Qed.

(** In a profile whose cycle counts are non-negative and non-decreasing the
    reference points come first. *)
Lemma reference_prefix (l : list Z) :
  StronglySorted Z.le l -> Forall (Z.le 0) l ->
  map is_reference l
  = repeat true (length (List.filter is_reference l))
    ++ repeat false (length l - length (List.filter is_reference l)).
Proof.
  induction 1 as [|x l Hs IH Hx]; intros Hpos; [reflexivity|].
  inversion Hpos as [|? ? H0 Hrest]; subst.
  destruct (Z.eqb_spec x 0) as [->|Hne].
  - simpl. rewrite (IH Hrest). reflexivity.
  - destruct (is_reference_positive x l ltac:(lia) Hx) as [Hm Hf].
    simpl. destruct (is_reference x) eqn:E.
    + unfold is_reference in E. apply Z.eqb_eq in E. contradiction.
    + rewrite Hm, Hf. simpl. reflexivity.
Qed.

(** X10.  The resampled profile keeps the [reference] mask of the
    original.  When the cycle counts of a well-formed profile are
    non-negative and non-decreasing, that mask is the one of the resampled
    cycle counts and the resampled profile is well formed; when the
    reference points do not come first it need not be: the mask can mark
    a point that is no reference point. *)
Theorem make_bs_profile_reference_mask :
  (forall (self : CPMGProfile) (st : RandomState),
      well_formed self ->
      (0 < n_non_reference self)%nat ->
      non_decreasing (ncycs self) ->
      Forall (Z.le 0) (ncycs self) ->
      exists profile,
        fst (make_bs_profile self st) = Ok profile
        /\ reference profile = reference self
        /\ well_formed profile)
  /\ (exists (self : CPMGProfile) (st : RandomState) (profile : CPMGProfile),
        well_formed self
        /\ (0 < n_non_reference self)%nat
        /\ fst (make_bs_profile self st) = Ok profile
        /\ reference profile <> map is_reference (ncycs profile)).
Proof.
  split.
  - intros self st Hwf Hnon Hs Hpos.
    destruct (make_bs_profile_at_indexes self st Hwf Hnon)
      as (idx & Hp & Hsorted & Hlt & Hlen & Hcount).
    exists (at_indexes self idx). split; [exact Hp|]. split; [reflexivity|].
    unfold well_formed. cbn [at_indexes ncycs val err tau_cp_list reference].
    rewrite !length_map. repeat split.
    destruct Hwf as (_ & _ & _ & Hr). rewrite Hr.
    rewrite (reference_prefix (ncycs self) Hs Hpos).
    rewrite (reference_prefix (map (fun i => nth i (ncycs self) 0%Z) idx)).
    + unfold n_reference in Hcount. cbn [at_indexes ncycs] in Hcount.
      rewrite Hcount, length_map, Hlen. reflexivity.
    + apply StronglySorted_take; assumption.
    + rewrite List.Forall_map. rewrite List.Forall_forall in Hlt, Hpos |- *.
      intros i Hi. apply Hpos, nth_In, Hlt, Hi.
  - exists profile_reference_second, constant_draws. eexists.
    split; [repeat split; reflexivity|].
    split; [unfold n_non_reference; simpl; lia|].
    split; [reflexivity|]. simpl. discriminate.
Qed.

Lemma make_bs_profile_reference_mask_witness :
  exists profile,
    fst (make_bs_profile Examples.profile_G23N Examples.counting) = Ok profile
    /\ reference profile = reference Examples.profile_G23N
    /\ well_formed profile.
Proof.
  apply (proj1 make_bs_profile_reference_mask Examples.profile_G23N
           Examples.counting).
  - repeat split; reflexivity.
  - unfold n_non_reference. simpl. lia.
  - unfold non_decreasing. simpl. repeat constructor; lia.
  - simpl. repeat constructor; lia.
Defined.

End BootstrapFacts.

(* ===================================================================== *)
(** * Further properties of [n_cw_0013/back_calculation.py]               *)
(* ===================================================================== *)

Section PulseWidth.

Import BackCalculation BackCalcSpec.
Local Open Scope R_scope.

Context {L : LinAlg} {LV : Liouvillian L}.
Variable g : geometry.

Lemma _calc_observable_no_pulse (a : observable_args) :
  pw g = 0 ->
  _calc_observable g a new_closure = (Raise ZeroDivisionError, new_closure).
Proof.
  intros Hpw.
  unfold _calc_observable, lru_cache, Lru.call_st, new_closure.
  cbn [observable_cache Lru.entries Lru.empty Lru.find].
  unfold _calc_observable_body, make_propagators, lru_cache, Lru.call_st.
  cbn [propagators_cache Lru.entries Lru.empty Lru.find].
  rewrite (make_propagators_body_raise g _ Hpw). reflexivity.
Qed.

Lemma reachable_no_pulse (s : closure) :
  pw g = 0 -> reachable g s -> s = new_closure.
Proof.
  intros Hpw. induction 1 as [|i0 a s _ IH]; [reflexivity|].
  rewrite IH, calc_observable_state, (_calc_observable_no_pulse a Hpw).
  reflexivity.
Qed.


End PulseWidth.

Section RepeatedEvaluation.

Import BackCalculation BackCalcSpec.
Local Open Scope R_scope.

Context {L : LinAlg} {LV : Liouvillian L}.
Variable g : geometry.

Lemma observable_maxsize_step (a : observable_args) (s : closure) :
  consistent g s ->
  Lru.maxsize (observable_cache (snd (_calc_observable g a s)))
  = Lru.maxsize (observable_cache s).
Proof.
  intros Hs.
  destruct (Lru.find observable_args_eqb a (Lru.entries (observable_cache s)))
    as [v|] eqn:E.
  - rewrite (_calc_observable_hit g a s v E). reflexivity.
  - rewrite (_calc_observable_miss g a s Hs E). cbv zeta.
    destruct (observable_value g a); cbn [snd]; [reflexivity|].
    rewrite make_propagators_outer. reflexivity.
Qed.

Lemma reachable_maxsize (s : closure) :
  reachable g s -> Lru.maxsize (observable_cache s) = 100%nat.
Proof.
  induction 1 as [|i0 a s Hr IH]; [reflexivity|].
  rewrite calc_observable_state.
  rewrite (observable_maxsize_step a s (reachable_consistent g s Hr)). exact IH.
Qed.

(** After an evaluation that returned, the value is in the cache of
    [_calc_observable]. *)
Lemma _calc_observable_stored (a : observable_args) (s : closure) (v : R) :
  reachable g s ->
  observable_value g a = Ok v ->
  Lru.find observable_args_eqb a
    (Lru.entries (observable_cache (snd (_calc_observable g a s)))) = Some v.
Proof.
  intros Hr Hv.
  pose proof (reachable_consistent g s Hr) as Hs.
  destruct (Lru.find observable_args_eqb a (Lru.entries (observable_cache s)))
    as [v'|] eqn:E.
  - assert (v' = v) as ->.
    { destruct Hs as (_ & Hc & _).
      pose proof (Hc a v' (find_In observable_args_eqb observable_args_eqb_eq
                             a _ v' E)) as H.
      congruence. }
    rewrite (_calc_observable_hit g a s v E).
    cbn [snd set_observable_cache observable_cache Lru.touch Lru.entries Lru.find].
    rewrite observable_args_eqb_refl. reflexivity.
  - rewrite (_calc_observable_miss g a s Hs E). cbv zeta. rewrite Hv.
    cbn [snd set_observable_cache observable_cache Lru.store Lru.entries].
    rewrite (reachable_maxsize s Hr).
    cbn [firstn Lru.find]. rewrite observable_args_eqb_refl. reflexivity.
Qed.


End RepeatedEvaluation.

Section BackCalculationAtExamples.

Import BackCalculation BackCalcSpec.
Local Open Scope R_scope.

#[local] Existing Instance scalar.
#[local] Existing Instance relaxing.



End BackCalculationAtExamples.

(* ===================================================================== *)
(** * Further properties of [fitting.py]: the partition into clusters     *)
(* ===================================================================== *)

Section PartitionShape.

Import Lmfit Fitting PartitionSpec PartitionExtraSpec.

Context {PN : ParameterNames}.

Lemma join_first_data (q : Profile) (fq : gset string)
    (clusters cs' : list cluster) :
  join_first q fq clusters = Some cs' ->
  Permutation (concat (map data_of cs')) (concat (map data_of clusters) ++ [q])
  /\ (Forall (fun c => data_of c <> []) clusters ->
      Forall (fun c => data_of c <> []) cs').
Proof.
  revert cs'. induction clusters as [|[[d pn] pv] rest IH]; simpl; intros cs' H;
    [discriminate|].
  destruct (bool_decide (fq ∩ pv ≠ ∅)).
  - injection H as <-. simpl. split.
    + unfold data_of at 1 3. cbn [fst]. rewrite <- !app_assoc.
      apply Permutation_app_head, Permutation_app_comm.
    + intros Hne. inversion Hne as [|? ? Hd Hrest]; subst.
      constructor; [|exact Hrest]. unfold data_of. cbn [fst].
      intros E. apply app_eq_nil in E. destruct E as [_ E]. discriminate.
  - destruct (join_first q fq rest) as [rest'|]; [|discriminate].
    injection H as <-. destruct (IH rest' eq_refl) as [IH1 IH2]. simpl. split.
    + rewrite <- app_assoc. apply Permutation_app_head, IH1.
    + intros Hne. inversion Hne as [|? ? Hd Hrest]; subst.
      constructor; [exact Hd|apply IH2, Hrest].
Qed.

Lemma add_profile_data (all_params : Params) (q : Profile)
    (clusters cs' : list cluster) :
  add_profile all_params clusters q = Ok cs' ->
  Permutation (concat (map data_of cs')) (concat (map data_of clusters) ++ [q])
  /\ (Forall (fun c => data_of c <> []) clusters ->
      Forall (fun c => data_of c <> []) cs').
Proof.
  unfold add_profile.
  destruct (pnames_vary_of all_params (params q)) as [fq|]; simpl;
    [|discriminate].
  destruct (join_first q fq clusters) as [cs1|] eqn:J; intros H;
    injection H as <-.
  - apply (join_first_data q fq clusters cs1 J).
  - split.
    + rewrite map_app, concat_app. simpl. reflexivity.
    + intros Hne. apply List.Forall_app. split; [exact Hne|].
      constructor; [discriminate|constructor].
Qed.

Lemma scan_data (all_params : Params) (todo : list Profile)
    (clusters cs' : list cluster) :
  scan all_params todo clusters = Ok cs' ->
  Permutation (concat (map data_of cs')) (concat (map data_of clusters) ++ todo)
  /\ (Forall (fun c => data_of c <> []) clusters ->
      Forall (fun c => data_of c <> []) cs').
Proof.
  revert clusters. induction todo as [|q todo IH]; simpl; intros clusters H.
  - injection H as <-. rewrite app_nil_r. split; [reflexivity|auto].
  - destruct (add_profile all_params clusters q) as [cs1|] eqn:A; simpl in H;
      [|discriminate].
    destruct (add_profile_data _ _ _ _ A) as [A1 A2].
    destruct (IH cs1 H) as [IH1 IH2]. split; [|auto].
    etransitivity; [exact IH1|].
    change (q :: todo) with ([q] ++ todo). rewrite app_assoc.
    apply Permutation_app_tail, A1.
Qed.

(** X13.  The clusters that [find_independent_clusters] returns are a
    partition of the dataset: together their profiles are the profiles of
    the dataset, each as often as it occurs there, and no cluster is
    empty. *)
Theorem clusters_partition (data : list Profile) (all_params : Params)
    (clusters : list (ParameterName * DataSet * Params)) :
  fst (find_independent_clusters data all_params) = Ok clusters ->
  Permutation (concat (map profiles_of clusters)) data
  /\ Forall (fun c => profiles_of c <> []) clusters.
Proof.
  intros H.
  destruct (find_independent_clusters_Ok _ _ _ H)
    as (cs & cs_ & ap' & S & Lb & ->).
  apply label_profiles in Lb.
  destruct (scan_data _ _ _ _ S) as [S1 S2].
  pose proof (sorted_by_Permutation tuple_lt cs_) as Hp.
  split.
  - cbn [map concat app] in S1.
    apply (Permutation_trans (l' := flat_map profiles_of cs_)).
    + rewrite <- flat_map_concat_map. apply Permutation_flat_map, Hp.
    + rewrite flat_map_concat_map.
      exact (eq_ind_r (fun l => Permutation (concat l) data) S1 Lb).
  - apply (Permutation_Forall (Permutation_sym Hp)).
    specialize (S2 (List.Forall_nil _)).
    apply List.Forall_forall. intros c Hc.
    pose proof (in_map profiles_of _ _ Hc) as Hi. rewrite Lb in Hi.
    apply in_map_iff in Hi. destruct Hi as (c0 & E & Hc0).
    rewrite List.Forall_forall in S2. intros Hnil. apply (S2 c0 Hc0).
    unfold data_of. rewrite E. exact Hnil.
Qed.

Lemma pnames_vary_of_unknown (all_params : Params) (pnames : list string)
    (n : string) :
  In n pnames -> all_params !! n = None ->
  pnames_vary_of all_params pnames = Raise KeyError.
Proof.
  intros Hin Hn. induction pnames as [|m pnames IH]; [contradiction|].
  simpl. unfold getitem at 1. destruct (all_params !! m) as [p|] eqn:E;
    [|reflexivity].
  destruct Hin as [->|Hin]; [congruence|].
  cbn [Py.bind]. rewrite (IH Hin). reflexivity.
Qed.

(** X14.  A profile that refers to a parameter that the parameter set does
    not hold makes [find_independent_clusters] raise [KeyError] while it
    scans the dataset, wherever the profile is in it: no cluster is built
    and the parameter set is not touched. *)
Theorem unknown_parameter_KeyError (data : list Profile) (all_params : Params)
    (p : Profile) (n : string) :
  In p data -> In n (params p) -> all_params !! n = None ->
  find_independent_clusters data all_params = (Raise KeyError, all_params).
Proof.
  intros Hp Hn Hnone. unfold find_independent_clusters.
  destruct (scan all_params data []) as [cs|e] eqn:S.
  - destruct (scan_resolves _ _ _ _ p S Hp) as [s Hs].
    rewrite (pnames_vary_of_unknown _ _ n Hn Hnone) in Hs. discriminate.
  - rewrite (scan_error _ _ _ _ S). reflexivity.
Qed.

Lemma scan_shared (all_params : Params) (v : string) (todo : list Profile)
    (d : DataSet) (ns : list string) (vs : gset string) (cs' : list cluster) :
  v ∈ vs ->
  (forall p, In p todo -> v ∈ free_names all_params p) ->
  scan all_params todo [(d, ns, vs)] = Ok cs' ->
  exists ns' vs', cs' = [(d ++ todo, ns', vs')].
Proof.
  revert d ns vs. induction todo as [|q todo IH]; intros d ns vs Hv Hall H.
  - simpl in H. injection H as <-. rewrite app_nil_r. eauto.
  - cbn [scan] in H. unfold add_profile in H.
    destruct (pnames_vary_of all_params (params q)) as [fq|] eqn:E;
      cbn [Py.bind] in H; [|discriminate].
    apply pnames_vary_of_free in E. subst fq.
    cbn [join_first] in H.
    rewrite bool_decide_eq_true_2 in H.
    2: { assert (Hq : v ∈ free_names all_params q) by (apply Hall; left; reflexivity).
         set_solver. }
    cbn [Py.bind] in H.
    destruct (IH (d ++ [q]) (ns ++ params q) (vs ∪ free_names all_params q))
      with (3 := H) as (ns' & vs' & ->).
    + set_solver.
    + intros p Hp. apply Hall. right. exact Hp.
    + rewrite <- app_assoc. simpl. eauto.
Qed.

(** X15.  When one free parameter is common to all the profiles, as a
    global exchange rate that is fitted, [find_independent_clusters]
    returns a single cluster, which holds the profiles of the dataset in
    their order. *)
Theorem shared_parameter_single_cluster (data : list Profile)
    (all_params : Params) (clusters : list (ParameterName * DataSet * Params))
    (v : string) :
  fst (find_independent_clusters data all_params) = Ok clusters ->
  data <> [] ->
  (forall p, In p data -> v ∈ free_names all_params p) ->
  exists c, clusters = [c] /\ profiles_of c = data.
Proof.
  intros H Hne Hall.
  destruct (find_independent_clusters_Ok _ _ _ H)
    as (cs & cs_ & ap' & S & Lb & ->).
  apply label_profiles in Lb.
  destruct data as [|p data]; [contradiction|].
  cbn [scan] in S. unfold add_profile in S.
  destruct (pnames_vary_of all_params (params p)) as [fp|] eqn:E;
    cbn [Py.bind join_first app] in S; [|discriminate].
  apply pnames_vary_of_free in E. subst fp.
  destruct (scan_shared all_params v data [p] (params p)
              (free_names all_params p) cs) as (ns' & vs' & ->).
  - apply Hall. left. reflexivity.
  - intros q Hq. apply Hall. right. exact Hq.
  - exact S.
  - simpl in Lb. destruct cs_ as [|c [|c' cs_]]; simpl in Lb; try discriminate.
    injection Lb as Lb. exists c. split; [reflexivity|exact Lb].
Qed.

Lemma join_first_None (q : Profile) (fq : gset string) (clusters : list cluster) :
  Forall (fun c : cluster => snd c ∩ fq = ∅) clusters ->
  join_first q fq clusters = None.
Proof.
  induction 1 as [|[[d pn] pv] rest Hc _ IH]; simpl; [reflexivity|].
  simpl in Hc.
  rewrite bool_decide_eq_false_2
    by (intros E; apply E; rewrite (comm_L (∩)); exact Hc).
  rewrite IH. reflexivity.
Qed.

Lemma not_shares_disjoint (all_params : Params) (p q : Profile) :
  ~ shares all_params p q ->
  free_names all_params p ∩ free_names all_params q = ∅.
Proof.
  unfold shares. intros H.
  destruct (decide (free_names all_params p ∩ free_names all_params q = ∅))
    as [E|E]; [exact E|contradiction].
Qed.

Lemma scan_independent (all_params : Params) (todo : list Profile)
    (clusters cs' : list cluster) :
  independent all_params todo ->
  Forall (fun c : cluster =>
            forall q, In q todo -> snd c ∩ free_names all_params q = ∅)
         clusters ->
  scan all_params todo clusters = Ok cs' ->
  map data_of cs' = map data_of clusters ++ one_by_one todo.
Proof.
  unfold independent. intros Hind. revert clusters.
  induction Hind as [|q todo Hq Hrest IH]; intros clusters Hcl H.
  - simpl in H. injection H as <-. simpl. rewrite app_nil_r. reflexivity.
  - cbn [scan] in H. unfold add_profile in H.
    destruct (pnames_vary_of all_params (params q)) as [fq|] eqn:E;
      cbn [Py.bind] in H; [|discriminate].
    apply pnames_vary_of_free in E. subst fq.
    rewrite join_first_None in H.
    2: { revert Hcl. apply List.Forall_impl. intros c Hc. apply Hc.
         left. reflexivity. }
    cbn [Py.bind] in H.
    assert (Hcl' : Forall (fun c : cluster =>
                             forall q', In q' todo ->
                                        snd c ∩ free_names all_params q' = ∅)
                          (clusters ++ [([q], params q, free_names all_params q)])).
    2: { rewrite (IH _ Hcl' H). rewrite map_app, <- app_assoc. reflexivity. }
    apply List.Forall_app. split.
    + revert Hcl. apply List.Forall_impl. intros c Hc q' Hq'.
      apply Hc. right. exact Hq'.
    + constructor; [|constructor]. intros q' Hq'. cbn [snd].
      apply not_shares_disjoint.
      rewrite List.Forall_forall in Hq. apply Hq, Hq'.
Qed.

(** X16.  When no two profiles of the dataset share a free parameter, as
    when the global parameters are fixed and every residue keeps free
    parameters of its own, [find_independent_clusters] puts every profile
    in a cluster of its own. *)
Theorem independent_profiles_own_clusters (data : list Profile)
    (all_params : Params) (clusters : list (ParameterName * DataSet * Params)) :
  fst (find_independent_clusters data all_params) = Ok clusters ->
  independent all_params data ->
  Permutation (map profiles_of clusters) (one_by_one data)
  /\ length clusters = length data.
Proof.
  intros H Hind.
  destruct (find_independent_clusters_Ok _ _ _ H)
    as (cs & cs_ & ap' & S & Lb & ->).
  apply label_profiles in Lb.
  pose proof (scan_independent all_params data [] cs Hind (List.Forall_nil _) S) as Hd.
  simpl in Hd. fold data_of in Lb. rewrite Hd in Lb.
  pose proof (sorted_by_Permutation tuple_lt cs_) as Hp.
  assert (Hm : Permutation (map profiles_of (sorted_by tuple_lt cs_))
                           (one_by_one data)).
  { rewrite <- Lb. apply Permutation_map, Hp. }
  split; [exact Hm|].
  apply Permutation_length in Hm. unfold one_by_one in Hm.
  rewrite !length_map in Hm. exact Hm.
Qed.

End PartitionShape.

Section PartitionShapeAtExamples.

Import Lmfit Fitting PartitionSpec PartitionExtraSpec Examples.

#[local] Existing Instance plain_names.

Lemma clusters_partition_witness :
  exists clusters,
    fst (find_independent_clusters [profile_A; profile_B; profile_C] params_abf)
    = Ok clusters
    /\ Permutation (concat (map profiles_of clusters))
                   [profile_A; profile_B; profile_C]
    /\ Forall (fun c => profiles_of c <> []) clusters.
Proof.
  destruct (fst (find_independent_clusters [profile_A; profile_B; profile_C]
                   params_abf)) as [clusters|] eqn:E;
    [|vm_compute in E; discriminate].
  exists clusters. split; [reflexivity|].
  apply (clusters_partition [profile_A; profile_B; profile_C] params_abf
           clusters E).
Defined.

Lemma unknown_parameter_KeyError_witness :
  find_independent_clusters [profile_A; profile_B]
    {[ "a" := free_param; "f" := fixed_param ]}
  = (Raise KeyError, {[ "a" := free_param; "f" := fixed_param ]}).
Proof.
  apply (unknown_parameter_KeyError [profile_A; profile_B]
           {[ "a" := free_param; "f" := fixed_param ]} profile_B "b").
  - right. left. reflexivity.
  - left. reflexivity.
  - vm_compute. reflexivity.
Defined.

Lemma shared_parameter_single_cluster_witness :
  exists clusters c,
    fst (find_independent_clusters [profile_A; profile_C] params_abf) = Ok clusters
    /\ clusters = [c] /\ profiles_of c = [profile_A; profile_C].
Proof.
  destruct (fst (find_independent_clusters [profile_A; profile_C] params_abf))
    as [clusters|] eqn:E; [|vm_compute in E; discriminate].
  destruct (shared_parameter_single_cluster [profile_A; profile_C] params_abf
              clusters "a" E) as (c & Hc & Hd).
  - discriminate.
  - intros p [<-|[<-|[]]]; vm_compute; reflexivity.
  - exists clusters, c. auto.
Defined.

Lemma independent_profiles_own_clusters_witness :
  exists clusters,
    fst (find_independent_clusters [profile_A; profile_B] params_abf) = Ok clusters
    /\ Permutation (map profiles_of clusters) (one_by_one [profile_A; profile_B])
    /\ length clusters = length [profile_A; profile_B].
Proof.
  destruct (fst (find_independent_clusters [profile_A; profile_B] params_abf))
    as [clusters|] eqn:E; [|vm_compute in E; discriminate].
  exists clusters. split; [reflexivity|].
  apply (independent_profiles_own_clusters [profile_A; profile_B] params_abf
           clusters E).
  constructor; [|constructor; constructor].
  constructor; [|constructor]. exact not_shares_A_B.
Defined.

End PartitionShapeAtExamples.

(* ===================================================================== *)
(** * Further properties of [fitting.py]: the parameters of the clusters  *)
(* ===================================================================== *)

Section ClusterParameters.

Import Lmfit Fitting PartitionSpec PartitionExtraSpec.

Context {PN : ParameterNames}.

Lemma same_settings_lookup (P Q : Params) (m : string) (p : Param) :
  same_settings P Q -> P !! m = Some p ->
  exists q, Q !! m = Some q /\ lower q = lower p.
Proof.
  unfold same_settings. intros H E.
  assert (Hm : (lower <$> P) !! m = (lower <$> Q) !! m) by (rewrite H; reflexivity).
  rewrite !lookup_fmap, E in Hm. simpl in Hm.
  destruct (Q !! m) as [q|]; simpl in Hm; [|discriminate].
  exists q. split; [reflexivity|]. congruence.
Qed.

(** What the loop [for pname in pnames_cluster] leaves. *)
Lemma collect_spec (P : Params) (ns : list string) (acc P' pc : Params) :
  collect P ns acc = Ok (P', pc) ->
  same_settings P' P
  /\ (forall m q, pc !! m = Some q ->
                  acc !! m = Some q
                  \/ (In m ns /\ exists p0, P !! m = Some p0 /\ lower q = lower p0))
  /\ (forall m, In m ns \/ is_Some (acc !! m) -> is_Some (pc !! m))
  /\ (forall m, ~ In m ns -> P' !! m = P !! m).
Proof.
  revert P acc. induction ns as [|n ns IH]; simpl; intros P acc H.
  - injection H as <- <-. split; [reflexivity|].
    split; [intros m q Hq; left; exact Hq|].
    split; [intros m [[]|Hs]; exact Hs|]. intros; reflexivity.
  - destruct (getitem P n) as [p|] eqn:G; simpl in H; [|discriminate].
    apply getitem_Ok in G.
    destruct (IH _ _ H) as (A & B & C & D). clear IH.
    split; [|split; [|split]].
    + unfold same_settings in *. rewrite A, fmap_insert. apply insert_id.
      rewrite lookup_fmap, G. reflexivity.
    + intros m q Hq. destruct (B m q Hq) as [Hacc|(Hin & p0 & Hp0 & Hl)].
      * apply lookup_insert_Some in Hacc.
        destruct Hacc as [[<- <-]|[Hne Hacc]]; [|left; exact Hacc].
        right. split; [left; reflexivity|]. exists p. split; [exact G|reflexivity].
      * right. split; [right; exact Hin|].
        apply lookup_insert_Some in Hp0.
        destruct Hp0 as [[<- <-]|[Hne Hp0]]; [|eauto].
        exists p. split; [exact G|exact Hl].
    + intros m [[<-|Hin]|Hs].
      * apply C. right. rewrite lookup_insert_eq. eauto.
      * apply C. left. exact Hin.
      * apply C. right. apply lookup_insert_is_Some.
        destruct (decide (n = m)); [left; assumption|right; split; assumption].
    + intros m Hn. rewrite (D m) by (intros Hin; apply Hn; right; exact Hin).
      apply lookup_insert_ne. intros ->. apply Hn. left. reflexivity.
Qed.

(** The parameter set after the two inner loops of one cluster. *)
Lemma lower_all_lookup (P P1 pc : Params) (ns : list string) (m : string) :
  collect P ns ∅ = Ok (P1, pc) ->
  (In m ns -> lower_all pc P1 !! m = lower <$> (P !! m))
  /\ (~ In m ns -> lower_all pc P1 !! m = P !! m).
Proof.
  intros H. destruct (collect_spec _ _ _ _ _ H) as (A & B & C & D).
  unfold lower_all. rewrite lookup_union, lookup_fmap. split.
  - intros Hin. destruct (C m (or_introl Hin)) as [q Hq]. rewrite Hq.
    destruct (B m q Hq) as [Hacc|(_ & p0 & Hp0 & Hl)].
    + rewrite lookup_empty in Hacc. discriminate.
    + rewrite Hp0. simpl. rewrite Hl. destruct (P1 !! m); reflexivity.
  - intros Hn. rewrite (D m Hn).
    destruct (pc !! m) as [q|] eqn:Hq.
    + destruct (B m q Hq) as [Hacc|(Hin & _)]; [|contradiction].
      rewrite lookup_empty in Hacc. discriminate.
    + simpl. destruct (P !! m); reflexivity.
Qed.

Lemma lower_all_settings (P P1 pc : Params) (ns : list string) :
  collect P ns ∅ = Ok (P1, pc) -> same_settings (lower_all pc P1) P.
Proof.
  intros H. unfold same_settings. apply map_eq. intros m.
  rewrite !lookup_fmap.
  destruct (lower_all_lookup P P1 pc ns m H) as [Hin Hout].
  destruct (in_dec string_dec m ns) as [Hm|Hm].
  - rewrite (Hin Hm). destruct (P !! m); reflexivity.
  - rewrite (Hout Hm). reflexivity.
Qed.

Lemma label_settings (P : Params) (clusters : list cluster) :
  same_settings (snd (label P clusters)) P.
Proof.
  revert P. induction clusters as [|[[d pn] pv] rest IH]; simpl; intros P;
    [reflexivity|].
  destruct (name_of_cluster pv) as [name|]; [|reflexivity].
  destruct (collect P pn ∅) as [[P1 pc]|] eqn:C; [|reflexivity].
  specialize (IH (lower_all pc P1)).
  destruct (label (lower_all pc P1) rest) as [r P2]. cbn [snd] in *.
  unfold same_settings in *. rewrite IH.
  apply (lower_all_settings P P1 pc pn C).
Qed.

(** The parameter set after the second loop. *)
Lemma label_flags (P P'' : Params) (clusters : list cluster)
    (out : list (ParameterName * DataSet * Params)) (m : string) :
  label P clusters = (Ok out, P'') ->
  (Exists (fun c => In m (names_of c)) clusters -> P'' !! m = lower <$> (P !! m))
  /\ (~ Exists (fun c => In m (names_of c)) clusters -> P'' !! m = P !! m).
Proof.
  revert P out. induction clusters as [|[[d pn] pv] rest IH]; simpl;
    intros P out H.
  - injection H as <- <-. split; [intros Hex; inversion Hex|reflexivity].
  - destruct (name_of_cluster pv) as [name|]; [|discriminate].
    destruct (collect P pn ∅) as [[P1 pc]|] eqn:C; [|discriminate].
    destruct (label (lower_all pc P1) rest) as [r P2] eqn:E.
    destruct r as [rest'|]; simpl in H; [|discriminate].
    injection H as <- <-.
    destruct (IH _ _ E) as [IH1 IH2].
    destruct (lower_all_lookup P P1 pc pn m C) as [Hin Hout].
    destruct (in_dec string_dec m pn) as [Hm|Hm].
    + split; [|intros Hn; exfalso; apply Hn; apply Exists_cons_hd; exact Hm].
      intros _.
      destruct (List.Exists_dec (fun c : cluster => In m (names_of c)) rest
                  (fun c => in_dec string_dec m (names_of c))) as [Hr|Hr].
      * rewrite (IH1 Hr), (Hin Hm). destruct (P !! m); reflexivity.
      * rewrite (IH2 Hr), (Hin Hm). reflexivity.
    + split.
      * intros Hex. inversion Hex as [? ? Hh|? ? Hr]; subst;
          [contradiction|].
        rewrite (IH1 Hr), (Hout Hm). reflexivity.
      * intros Hn. rewrite IH2, (Hout Hm); [reflexivity|].
        intros Hr. apply Hn. apply Exists_cons_tl. exact Hr.
Qed.

(** Every labelled cluster has the profiles of a scanned cluster, the
    parameters that this cluster names and, for each, the settings of the
    parameter set. *)
Lemma label_clusters (P P'' : Params) (clusters : list cluster)
    (out : list (ParameterName * DataSet * Params)) :
  label P clusters = (Ok out, P'') ->
  Forall2 (fun (c : cluster) (o : ParameterName * DataSet * Params) =>
             profiles_of o = data_of c
             /\ (forall m, is_Some (snd o !! m) <-> In m (names_of c))
             /\ (forall m q, snd o !! m = Some q ->
                             exists p0, P !! m = Some p0 /\ q = lower p0))
          clusters out.
Proof.
  revert P out. induction clusters as [|[[d pn] pv] rest IH]; simpl;
    intros P out H.
  - injection H as <- _. constructor.
  - destruct (name_of_cluster pv) as [name|]; [|discriminate].
    destruct (collect P pn ∅) as [[P1 pc]|] eqn:C; [|discriminate].
    destruct (label (lower_all pc P1) rest) as [r P2] eqn:E.
    destruct r as [rest'|]; simpl in H; [|discriminate].
    injection H as <- <-.
    destruct (collect_spec _ _ _ _ _ C) as (A & B & Ck & D).
    constructor.
    + split; [reflexivity|]. cbn [snd]. split.
      * intros m. rewrite lookup_fmap. split.
        -- intros [q Hq]. destruct (pc !! m) as [q0|] eqn:Hq0; [|discriminate].
           destruct (B m q0 Hq0) as [Hacc|(Hin & _)]; [|exact Hin].
           rewrite lookup_empty in Hacc. discriminate.
        -- intros Hin. destruct (Ck m (or_introl Hin)) as [q Hq].
           rewrite Hq. simpl. eauto.
      * intros m q. rewrite lookup_fmap.
        destruct (pc !! m) as [q0|] eqn:Hq0; simpl; [|discriminate].
        intros Hq. injection Hq as <-.
        destruct (B m q0 Hq0) as [Hacc|(_ & p0 & Hp0 & Hl)].
        -- rewrite lookup_empty in Hacc. discriminate.
        -- exists p0. split; [exact Hp0|exact Hl].
    + pose proof (lower_all_settings P P1 pc pn C) as Hs.
      specialize (IH _ _ E). eapply Forall2_impl; [exact IH|]. cbv beta.
      intros c o (H1 & H2 & H3). split; [exact H1|]. split; [exact H2|].
      intros m q Hq. destruct (H3 m q Hq) as (p1 & Hp1 & ->).
      destruct (same_settings_lookup _ _ m p1 Hs Hp1) as (p0 & Hp0 & Hl).
      exists p0. split; [exact Hp0|]. symmetry. exact Hl.
Qed.

Lemma join_first_names (q : Profile) (fq : gset string)
    (clusters cs' : list cluster) :
  Forall (fun c => names_of c = concat (map params (data_of c))) clusters ->
  join_first q fq clusters = Some cs' ->
  Forall (fun c => names_of c = concat (map params (data_of c))) cs'.
Proof.
  intros Hall. revert cs'.
  induction Hall as [|[[d pn] pv] rest Hc Hrest IH]; simpl; intros cs' H;
    [discriminate|].
  unfold names_of, data_of in Hc. cbn [fst snd] in Hc.
  destruct (bool_decide (fq ∩ pv ≠ ∅)).
  - injection H as <-. constructor; [|exact Hrest].
    unfold names_of, data_of. cbn [fst snd].
    rewrite map_app, concat_app, Hc. simpl. rewrite app_nil_r. reflexivity.
  - destruct (join_first q fq rest) as [rest'|]; [|discriminate].
    injection H as <-. constructor; [exact Hc|]. apply IH. reflexivity.
Qed.

Lemma scan_names (all_params : Params) (todo : list Profile)
    (clusters cs' : list cluster) :
  Forall (fun c => names_of c = concat (map params (data_of c))) clusters ->
  scan all_params todo clusters = Ok cs' ->
  Forall (fun c => names_of c = concat (map params (data_of c))) cs'.
Proof.
  revert clusters. induction todo as [|q todo IH]; simpl; intros clusters Hall H.
  - injection H as <-. exact Hall.
  - unfold add_profile in H.
    destruct (pnames_vary_of all_params (params q)) as [fq|];
      cbn [Py.bind] in H; [|discriminate].
    destruct (join_first q fq clusters) as [cs1|] eqn:J; cbn [Py.bind] in H.
    + apply (IH cs1); [|exact H]. apply (join_first_names q fq clusters cs1 Hall J).
    + apply (IH (clusters ++ [([q], params q, fq)])); [|exact H].
      apply List.Forall_app. split; [exact Hall|].
      constructor; [|constructor].
      unfold names_of, data_of. simpl. rewrite app_nil_r. reflexivity.
Qed.

Lemma Forall2_In_r {A B} (R : A -> B -> Prop) (l : list A) (k : list B) (y : B) :
  Forall2 R l k -> In y k -> exists x, In x l /\ R x y.
Proof.
  induction 1 as [|x y' l k Hxy _ IH]; intros Hin; [contradiction|].
  destruct Hin as [->|Hin].
  - exists x. split; [left; reflexivity|exact Hxy].
  - destruct (IH Hin) as (x' & Hx' & Hr). exists x'. split; [right|]; assumption.
Qed.

Lemma referenced_concat (d : DataSet) (m : string) :
  In m (concat (map params d)) <-> referenced d m.
Proof.
  unfold referenced. rewrite in_concat. split.
  - intros (ns & Hns & Hm). apply in_map_iff in Hns.
    destruct Hns as (p & <- & Hp). eauto.
  - intros (p & Hp & Hm). exists (params p). split; [|exact Hm].
    apply in_map. exact Hp.
Qed.

Lemma scan_referenced (all_params : Params) (data : list Profile)
    (cs : list cluster) (m : string) :
  scan all_params data [] = Ok cs ->
  Exists (fun c => In m (names_of c)) cs <-> referenced data m.
Proof.
  intros S.
  pose proof (scan_names all_params data [] cs (List.Forall_nil _) S) as Hn.
  destruct (scan_data all_params data [] cs S) as [Hp _].
  cbn [map concat app] in Hp.
  rewrite List.Forall_forall in Hn. rewrite List.Exists_exists. split.
  - intros (c & Hc & Hm). rewrite (Hn c Hc) in Hm.
    apply referenced_concat in Hm. destruct Hm as (p & Hp' & Hm).
    exists p. split; [|exact Hm].
    apply (Permutation_in _ Hp). apply in_concat. exists (data_of c).
    split; [apply in_map; exact Hc|exact Hp'].
  - intros (p & Hp' & Hm).
    apply (Permutation_in _ (Permutation_sym Hp)) in Hp'.
    apply in_concat in Hp'. destruct Hp' as (d & Hd & Hpd).
    apply in_map_iff in Hd. destruct Hd as (c & <- & Hc).
    exists c. split; [exact Hc|]. rewrite (Hn c Hc).
    apply referenced_concat. exists p. split; assumption.
Qed.

(** X17.  Every cluster that [find_independent_clusters] returns comes
    with the parameters that its profiles refer to and no other, each with
    the value, the [vary] flag and the expression that it has in the
    global parameter set, and with [_delay_asteval] lowered. *)
Theorem cluster_parameters (data : list Profile) (all_params : Params)
    (clusters : list (ParameterName * DataSet * Params)) :
  fst (find_independent_clusters data all_params) = Ok clusters ->
  forall c, In c clusters ->
    (forall m, is_Some (snd c !! m) <-> referenced (profiles_of c) m)
    /\ (forall m q, snd c !! m = Some q ->
                    exists p0, all_params !! m = Some p0 /\ q = lower p0).
Proof.
  intros H c Hc.
  destruct (find_independent_clusters_Ok _ _ _ H)
    as (cs & cs_ & ap' & S & Lb & ->).
  apply (Permutation_in _ (sorted_by_Permutation tuple_lt cs_)) in Hc.
  destruct (Forall2_In_r _ _ _ c (label_clusters _ _ _ _ Lb) Hc)
    as (c0 & Hc0 & Hd & Hk & Hv).
  pose proof (scan_names all_params data [] cs (List.Forall_nil _) S) as Hn.
  rewrite List.Forall_forall in Hn. specialize (Hn c0 Hc0).
  split; [|exact Hv].
  intros m. rewrite (Hk m), Hn, Hd. apply referenced_concat.
Qed.

(** X18.  [find_independent_clusters] leaves the global parameter set with
    the names, values, [vary] flags and expressions that it had, whether
    it returns or raises.  When it returns, [_delay_asteval] is lowered on
    every parameter that a profile of the dataset refers to, and the other
    parameters are as they were. *)
Theorem parameters_kept (data : list Profile) (all_params : Params) :
  same_settings (snd (find_independent_clusters data all_params)) all_params
  /\ (forall clusters m,
        fst (find_independent_clusters data all_params) = Ok clusters ->
        (referenced data m ->
         snd (find_independent_clusters data all_params) !! m
         = lower <$> (all_params !! m))
        /\ (~ referenced data m ->
            snd (find_independent_clusters data all_params) !! m
            = all_params !! m)).
Proof.
  unfold find_independent_clusters.
  destruct (scan all_params data []) as [cs|] eqn:S.
  - pose proof (label_settings all_params cs) as Hs.
    destruct (label all_params cs) as [r P''] eqn:Lb. cbn [snd] in *.
    split; [exact Hs|].
    intros clusters m H. destruct r as [out|]; [|discriminate].
    destruct (label_flags _ _ _ _ m Lb) as [H1 H2].
    pose proof (scan_referenced all_params data cs m S) as Hr.
    split; intros Hm.
    + apply H1, Hr, Hm.
    + apply H2. intros Hex. apply Hm, Hr, Hex.
  - split; [reflexivity|]. intros clusters m H. discriminate.
Qed.

End ClusterParameters.

Section ClusterParametersAtExamples.

Import Lmfit Fitting PartitionSpec PartitionExtraSpec Examples.

#[local] Existing Instance plain_names.

Lemma cluster_parameters_witness :
  exists clusters,
    fst (find_independent_clusters [profile_A; profile_B] params_abf) = Ok clusters
    /\ forall c, In c clusters ->
         (forall m, is_Some (snd c !! m) <-> referenced (profiles_of c) m)
         /\ (forall m q, snd c !! m = Some q ->
                         exists p0, params_abf !! m = Some p0 /\ q = lower p0).
Proof.
  destruct (fst (find_independent_clusters [profile_A; profile_B] params_abf))
    as [clusters|] eqn:E; [|vm_compute in E; discriminate].
  exists clusters. split; [reflexivity|].
  apply (cluster_parameters [profile_A; profile_B] params_abf clusters E).
Defined.

Lemma parameters_kept_witness :
  same_settings (snd (find_independent_clusters [profile_A] params_abf)) params_abf
  /\ forall m,
       (referenced [profile_A] m ->
        snd (find_independent_clusters [profile_A] params_abf) !! m
        = lower <$> (params_abf !! m))
       /\ (~ referenced [profile_A] m ->
           snd (find_independent_clusters [profile_A] params_abf) !! m
           = params_abf !! m).
Proof.
  destruct (parameters_kept [profile_A] params_abf) as [H1 H2].
  split; [exact H1|]. intros m.
  destruct (fst (find_independent_clusters [profile_A] params_abf))
    as [clusters|] eqn:E; [|vm_compute in E; discriminate].
  apply (H2 clusters m). reflexivity.
Defined.

End ClusterParametersAtExamples.

(* ===================================================================== *)
(** * Further properties of [fitting.py]: the fit driver                  *)
(* ===================================================================== *)

Section DriverFacts.

Import Lmfit Fitting PartitionSpec PartitionExtraSpec.

Context {PN : ParameterNames}.

Variable set_param_status : Params -> list (string * string) -> Params.
Variable allowed_fitmethod : string -> bool.

Lemma find_independent_clusters_nil (all_params : Params) :
  find_independent_clusters [] all_params = (Ok [], all_params).
Proof. reflexivity. Qed.

Lemma clusters_nonempty (data : list Profile) (all_params : Params)
    (clusters : list (ParameterName * DataSet * Params)) :
  fst (find_independent_clusters data all_params) = Ok clusters ->
  data <> [] -> clusters <> [].
Proof.
  intros H Hne ->.
  destruct (find_independent_clusters_Ok _ _ _ H)
    as (cs & cs_ & ap' & S & Lb & Hs).
  pose proof (sorted_by_Permutation tuple_lt cs_) as Hp.
  rewrite <- Hs in Hp. apply Permutation_nil in Hp. subst cs_.
  apply label_profiles in Lb. simpl in Lb.
  destruct cs as [|c cs]; [|discriminate].
  destruct (scan_data _ _ _ _ S) as [S1 _]. simpl in S1.
  apply Permutation_nil in S1. contradiction.
Qed.

(** X19.  On an empty dataset [run_fit] never returns: there is no cluster
    to fit, the variable [c_result] is never bound and reading it raises
    [UnboundLocalError], unless the fitting method of the first section is
    not allowed, which exits before.  The minimizer is not called. *)
Theorem run_fit_empty_dataset (minimize : minimize_call -> outcome)
    (fit_config : list config_section) (all_params : Params)
    (cl_fitmethod : string) :
  let first :=
    match fit_config with
    | [] => {| section_name := "Standard Calculation"; items := [] |}
    | section :: _ => section
    end in
  run_fit minimize set_param_status allowed_fitmethod fit_config all_params []
    cl_fitmethod
  = Raise (if allowed_fitmethod (get_fitmethod (items first) cl_fitmethod)
           then UnboundLocalError else SystemExit).
Proof.
  unfold run_fit.
  destruct fit_config as [|section rest]; cbn [fit_sections];
    unfold fit_section; cbn [Fitting.all_params];
    rewrite find_independent_clusters_nil; cbn [Py.bind];
    destruct (allowed_fitmethod _); reflexivity.
Qed.


Section Uninterrupted.

(** A minimizer that always returns. *)
Variable res : minimize_call -> MinimizerResult.

Let minimize : minimize_call -> outcome := fun call => Returns (res call).

Lemma fit_clusters_returns (fitmethod : string)
    (clusters : list (ParameterName * DataSet * Params)) (st : fit_state) :
  fit_clusters minimize fitmethod clusters st
  = Ok (fold_left (fun st c => merge_result (res (first_call fitmethod c))
                                 [first_call fitmethod c] st)
                  clusters st).
Proof.
  revert st. induction clusters as [|c rest IH]; intros st; [reflexivity|].
  cbn [fit_clusters fold_left]. unfold fit_cluster, minimize at 1.
  cbn [Py.bind]. apply IH.
Qed.

Lemma fold_merge_calls (fitmethod : string)
    (clusters : list (ParameterName * DataSet * Params)) (st : fit_state) :
  let st' := fold_left (fun st c => merge_result (res (first_call fitmethod c))
                                      [first_call fitmethod c] st)
                       clusters st in
  calls st' = calls st ++ map (first_call fitmethod) clusters
  /\ result_ st' = result_ st
  /\ (forall l c, clusters = l ++ [c] ->
                  c_result st' = Some (res (first_call fitmethod c))).
Proof.
  revert st. induction clusters as [|c rest IH] using rev_ind; intros st.
  - simpl. rewrite app_nil_r. repeat split.
    intros l c E. destruct l; discriminate.
  - cbv zeta. rewrite fold_left_app. cbn [fold_left].
    destruct (IH st) as (I1 & I2 & _). cbv zeta in I1, I2.
    set (st1 := fold_left _ rest st) in *.
    unfold merge_result. cbn [calls result_ c_result].
    rewrite I1, map_app, <- app_assoc. repeat split; [exact I2|].
    intros l c' E. apply app_inj_tail in E. destruct E as [_ <-]. reflexivity.
Qed.

(** X21.  With a minimizer that is not interrupted, a section whose
    method is allowed runs one minimisation per cluster, in the order of
    the clusters and with the method of the section, and, when there are
    several clusters, one more evaluation of the whole dataset with
    [maxfev=1] and the merged parameters.  The result of the section is
    the result of the only cluster, or else a result that carries the
    merged parameters. *)
Theorem fit_section_calls (data : list Profile) (cl_fitmethod : string)
    (section : config_section) (st : fit_state)
    (clusters : list (ParameterName * DataSet * Params)) :
  fst (find_independent_clusters data
         (set_param_status (all_params st) (items section))) = Ok clusters ->
  data <> [] ->
  allowed_fitmethod (get_fitmethod (items section) cl_fitmethod) = true ->
  let fitmethod := get_fitmethod (items section) cl_fitmethod in
  exists st',
    fit_section minimize set_param_status allowed_fitmethod data cl_fitmethod
      section st = Ok st'
    /\ calls st'
       = calls st ++ map (first_call fitmethod) clusters
         ++ (if Nat.ltb 1 (length clusters)
             then [whole_call data (all_params st')] else [])
    /\ (forall c, clusters = [c] ->
                  result_ st' = Some (res (first_call fitmethod c)))
    /\ ((1 < length clusters)%nat ->
        exists r, result_ st' = Some r
                  /\ result_params r = all_params st'
                  /\ chisqr r = chisqr (res (whole_call data (all_params st')))
                  /\ method r = method (res (whole_call data (all_params st')))).
Proof.
  intros H Hne Hm fitmethod.
  pose proof (clusters_nonempty _ _ _ H Hne) as Hcl.
  unfold fit_section.
  destruct (find_independent_clusters data
              (set_param_status (all_params st) (items section))) as [r P2].
  cbn [fst] in H. subst r. cbn [Py.bind]. rewrite Hm. fold fitmethod.
  cbn [negb]. rewrite fit_clusters_returns. cbn [Py.bind].
  set (st0 := {| all_params := P2; c_result := c_result st;
                 result_ := result_ st; calls := calls st |}).
  destruct (fold_merge_calls fitmethod clusters st0) as (F1 & F2 & F3).
  cbv zeta in F1, F2, F3.
  set (st1 := fold_left _ clusters st0) in *.
  unfold reconcile.
  destruct (Nat.ltb 1 (length clusters)) eqn:L.
  - unfold minimize at 1. eexists. split; [reflexivity|].
    cbn [calls result_ all_params]. rewrite F1, <- app_assoc.
    split; [reflexivity|]. split.
    + intros c ->. simpl in L. discriminate.
    + intros _. eexists. split; [reflexivity|]. repeat split.
  - destruct clusters as [|c [|c' rest]]; [contradiction| |].
    + rewrite (F3 [] c eq_refl). eexists. split; [reflexivity|].
      cbn [calls result_ all_params]. rewrite F1, app_nil_r.
      split; [reflexivity|]. split.
      * intros c0 E. injection E as <-. reflexivity.
      * simpl. lia.
    + simpl in L. discriminate.
Qed.

End Uninterrupted.

End DriverFacts.

Section DriverAtExamples.

Import Lmfit Fitting PartitionSpec PartitionExtraSpec Examples.

#[local] Existing Instance plain_names.


Lemma fit_section_calls_witness :
  let section := {| section_name := "first"; items := [] |} in
  exists clusters st',
    fst (find_independent_clusters [profile_A; profile_B] params_abf) = Ok clusters
    /\ fit_section (fun call => Returns (reached_of call)) keep_status
         only_leastsq [profile_A; profile_B] "leastsq" section fresh_state
       = Ok st'
    /\ calls st'
       = calls fresh_state ++ map (first_call "leastsq") clusters
         ++ (if Nat.ltb 1 (length clusters)
             then [whole_call [profile_A; profile_B] (all_params st')] else []).
Proof.
  intros section.
  destruct (fst (find_independent_clusters [profile_A; profile_B] params_abf))
    as [clusters|] eqn:E; [|vm_compute in E; discriminate].
  destruct (fit_section_calls keep_status only_leastsq reached_of
              [profile_A; profile_B] "leastsq" section fresh_state clusters E)
    as (st' & H1 & H2 & _).
  - discriminate.
  - reflexivity.
  - exists clusters, st'. split; [reflexivity|]. split; [exact H1|exact H2].
Defined.

End DriverAtExamples.

(* ===================================================================== *)
(** * Further properties of [fitting.py]: the names of the clusters       *)
(* ===================================================================== *)

Section FoldAnyOrder.

Context {A : Type} (op : A -> A -> A).
Hypothesis op_comm : forall a b, op a b = op b a.
Hypothesis op_assoc : forall a b c, op (op a b) c = op a (op b c).

Lemma fold_left_any_order (l k : list A) (a : A) :
  Permutation l k -> fold_left op l a = fold_left op k a.
Proof.
  intros H. revert a. induction H as [|x l k _ IH|x y l|l k m _ IH1 _ IH2];
    intros a; simpl.
  - reflexivity.
  - apply IH.
  - f_equal. rewrite !op_assoc. f_equal. apply op_comm.
  - rewrite IH1. apply IH2.
Qed.

Lemma fold_left_any_head (l k : list A) :
  Permutation l k ->
  match l, k with
  | a :: l', b :: k' => fold_left op l' a = fold_left op k' b
  | [], [] => True
  | _, _ => False
  end.
Proof.
  induction 1 as [|x l k H _|x y l|l k m H1 IH1 H2 IH2].
  - exact I.
  - apply fold_left_any_order, H.
  - simpl. f_equal. apply op_comm.
  - destruct l as [|a l], k as [|b k], m as [|c m]; try contradiction;
      try exact I.
    rewrite IH1. exact IH2.
Qed.

End FoldAnyOrder.

Section ClusterNames.

Import Lmfit Fitting PartitionSpec PartitionExtraSpec.

Context {PN : ParameterNames}.

Lemma pop_spec (s s' : gset string) (x : string) :
  pop s = Ok (x, s') -> Permutation (elements s) (x :: elements s').
Proof.
  unfold pop. destruct (elements s) as [|y l] eqn:E; [discriminate|].
  intros H. injection H as <- <-.
  assert (Hy : y ∈ s).
  { apply elem_of_elements. rewrite E. left. }
  rewrite <- E. rewrite (union_difference_singleton_L y s Hy) at 1.
  apply elements_union_singleton. apply not_elem_of_difference. right.
  apply elem_of_singleton. reflexivity.
Qed.

Lemma intersect_all_fold (fuel : nat) (s : gset string) (name : ParameterName) :
  size s = fuel ->
  exists l, Permutation l (elements s)
            /\ intersect_all fuel name s
               = fold_left intersection (map from_full_name l) name.
Proof.
  revert s name. induction fuel as [|fuel IH]; intros s name Hs.
  - exists []. apply size_empty_inv in Hs. apply leibniz_equiv in Hs. subst s.
    rewrite elements_empty. split; [constructor|reflexivity].
  - cbn [intersect_all]. destruct (pop s) as [[x s']|e] eqn:Ep.
    + pose proof (pop_spec s s' x Ep) as Hp.
      assert (Hs' : size s' = fuel).
      { apply Permutation_length in Hp. simpl in Hp.
        unfold size, set_size in *. simpl in *. lia. }
      destruct (IH s' (intersection name (from_full_name x)) Hs')
        as (l & Hl & ->).
      exists (x :: l). split; [|reflexivity].
      rewrite Hp. constructor. exact Hl.
    + exfalso. unfold pop in Ep.
      destruct (elements s) as [|y l] eqn:E; [|discriminate].
      unfold size, set_size in Hs. simpl in Hs. rewrite E in Hs. discriminate.
Qed.

Lemma name_of_cluster_fold (s : gset string) (name : ParameterName) :
  name_of_cluster s = Ok name ->
  exists x l, Permutation (x :: l) (elements s)
              /\ name = fold_left intersection (map from_full_name l)
                          (from_full_name x).
Proof.
  unfold name_of_cluster. destruct (pop s) as [[x s']|e] eqn:Ep; simpl;
    [|discriminate].
  intros H. injection H as <-.
  destruct (intersect_all_fold (size s') s' (from_full_name x) eq_refl)
    as (l & Hl & ->).
  exists x, l. split; [|reflexivity].
  rewrite (pop_spec s s' x Ep). constructor. exact Hl.
Qed.

(** X22.  The name of a cluster does not depend on the order in which
    [set.pop] hands out the free names.  When the intersection of
    parameter names is commutative and associative, the name is the
    intersection of the names of all the free parameters of the cluster,
    taken in any order. *)
Theorem cluster_name_any_order (s : gset string) (y : string) (r : list string) :
  (forall a b, intersection a b = intersection b a) ->
  (forall a b c, intersection (intersection a b) c
                 = intersection a (intersection b c)) ->
  Permutation (y :: r) (elements s) ->
  name_of_cluster s
  = Ok (fold_left intersection (map from_full_name r) (from_full_name y)).
Proof.
  intros Hc Ha Hp.
  assert (Hne : s ≠ ∅).
  { intros ->. rewrite elements_empty in Hp.
    apply Permutation_sym, Permutation_nil in Hp. discriminate. }
  destruct (name_of_cluster_nonempty s Hne) as [name Hn].
  rewrite Hn. f_equal.
  destruct (name_of_cluster_fold s name Hn) as (x & l & Hl & ->).
  assert (Hm : Permutation (map from_full_name (x :: l))
                           (map from_full_name (y :: r))).
  { apply Permutation_map. rewrite Hl, Hp. reflexivity. }
  apply (fold_left_any_head intersection Hc Ha _ _ Hm).
Qed.

End ClusterNames.

Section ClusterNamesAtExamples.

Import Lmfit Fitting PartitionSpec PartitionExtraSpec Examples.

#[local] Existing Instance plain_names.

Lemma common_prefix_nil_r (a : string) : common_prefix a EmptyString = EmptyString.
Proof. destruct a; reflexivity. Qed.

Lemma common_prefix_comm (a b : string) : common_prefix a b = common_prefix b a.
Proof.
  revert b. induction a as [|x a IH]; intros [|y b]; simpl; try reflexivity.
  rewrite (Ascii.eqb_sym y x).
  destruct (Ascii.eqb_spec x y) as [->|_]; [|reflexivity].
  rewrite IH. reflexivity.
Qed.

Lemma common_prefix_assoc (a b c : string) :
  common_prefix (common_prefix a b) c = common_prefix a (common_prefix b c).
Proof.
  revert b c. induction a as [|x a IH]; intros [|y b] [|z c]; simpl;
    try reflexivity.
  - destruct (Ascii.eqb x y); reflexivity.
  - destruct (Ascii.eqb_spec x y) as [->|Hxy];
      destruct (Ascii.eqb_spec y z) as [->|Hyz]; simpl.
    + rewrite Ascii.eqb_refl, IH. reflexivity.
    + destruct (Ascii.eqb_spec y z); [contradiction|reflexivity].
    + destruct (Ascii.eqb_spec x z); [contradiction|reflexivity].
    + reflexivity.
Qed.

Lemma cluster_name_any_order_witness :
  name_of_cluster {[ "dw,a12n"; "dw,a13n" ]}
  = Ok (fold_left intersection (map from_full_name ["dw,a12n"]) 
          (from_full_name "dw,a13n")).
Proof.
  apply (cluster_name_any_order (PN := plain_names)
           {[ "dw,a12n"; "dw,a13n" ]} "dw,a13n" ["dw,a12n"]
           common_prefix_comm common_prefix_assoc).
  vm_compute. first [reflexivity | apply perm_swap].
Defined.

End ClusterNamesAtExamples.
